(** * Pairs-trading analytics: a shallow embedding of [analytics.py], of the
    pair alignment and the refresh of [dashboard.py], and of the trades table
    of [ingestion.py]

    Numbers.  The program computes on IEEE binary64 values held in pandas
    objects.  Two models of them are used.  Module [F64] has real numbers
    extended with the three special values the program can observe: [NaN]
    (pandas' missing value) and the two infinities.  It serves the properties
    that say which rows an operation returns, which operations it applies to
    them and how values compare; none of them rests on the arithmetic being
    exact.  The values of the rolling z-score depend on rounding and
    underflow: module [Binary64] has binary64 numbers with the operations of
    the processor, and the z-score is settled there.

    Containers.  A pandas [Series] is the list of its (index label, value)
    pairs in row order; labels are timestamps, kept as integers.  A DataFrame
    is the list of its rows.

    Libraries.  The pandas operations that select, join, sort and resample
    rows are written out from their documented behaviour.  The numerical
    routines are parameters of the program: the regression of statsmodels, its
    Augmented Dickey-Fuller test and, on binary64 numbers, the rolling mean and
    standard deviation of pandas.  So is the answer to whether pandas raises
    inside [load_data], except for the conversion of the stored timestamps,
    which is written out. *)

From Stdlib Require Import Reals Lra Lia ZArith List Bool Permutation Sorted.
From Stdlib Require Floats.
Import ListNotations.

(* ================================================================== *)
(** * Part I: the embedding *)
(* ================================================================== *)

(** ** float64 values *)

Module F64.

Inductive float64 : Type :=
| Num (r : R)
| PInf
| NInf
| NaN.

Definition R_ltb (a b : R) : bool := if Rlt_dec a b then true else false.
Definition R_leb (a b : R) : bool := if Rle_dec a b then true else false.
Definition R_eqb (a b : R) : bool := if Req_dec_T a b then true else false.

Definition isna (x : float64) : bool :=
  match x with NaN => true | _ => false end.

Definition notna (x : float64) : bool := negb (isna x).

Definition isfinite (x : float64) : bool :=
  match x with Num _ => true | _ => false end.

Definition fneg (x : float64) : float64 :=
  match x with
  | Num a => Num (- a)
  | PInf => NInf
  | NInf => PInf
  | NaN => NaN
  end.

Definition fadd (x y : float64) : float64 :=
  match x, y with
  | NaN, _ | _, NaN => NaN
  | Num a, Num b => Num (a + b)
  | PInf, NInf | NInf, PInf => NaN
  | PInf, _ | _, PInf => PInf
  | NInf, _ | _, NInf => NInf
  end.

Definition fsub (x y : float64) : float64 := fadd x (fneg y).

(** An infinity of sign [pos] multiplied by the finite value [b]. *)
Definition inf_times (pos : bool) (b : R) : float64 :=
  if R_ltb 0 b then (if pos then PInf else NInf)
  else if R_ltb b 0 then (if pos then NInf else PInf)
  else NaN.

Definition fmul (x y : float64) : float64 :=
  match x, y with
  | NaN, _ | _, NaN => NaN
  | Num a, Num b => Num (a * b)
  | PInf, Num b | Num b, PInf => inf_times true b
  | NInf, Num b | Num b, NInf => inf_times false b
  | PInf, PInf | NInf, NInf => PInf
  | PInf, NInf | NInf, PInf => NInf
  end.

(** Division; a finite non-zero value over zero is an infinity, zero over
    zero is [NaN]. *)
Definition fdiv (x y : float64) : float64 :=
  match x, y with
  | NaN, _ | _, NaN => NaN
  | Num a, Num b =>
      if R_eqb b 0 then
        (if R_ltb 0 a then PInf else if R_ltb a 0 then NInf else NaN)
      else Num (a / b)
  | Num _, (PInf | NInf) => Num 0
  | PInf, Num b => if R_ltb b 0 then NInf else PInf
  | NInf, Num b => if R_ltb b 0 then PInf else NInf
  | (PInf | NInf), (PInf | NInf) => NaN
  end.

Definition fsqrt (x : float64) : float64 :=
  match x with
  | Num a => if R_ltb a 0 then NaN else Num (sqrt a)
  | PInf => PInf
  | NInf | NaN => NaN
  end.

(** Comparisons; every comparison with [NaN] is false. *)
Definition flt (x y : float64) : bool :=
  match x, y with
  | NaN, _ | _, NaN => false
  | Num a, Num b => R_ltb a b
  | NInf, (Num _ | PInf) => true
  | Num _, PInf => true
  | _, _ => false
  end.

Definition fle (x y : float64) : bool :=
  match x, y with
  | NaN, _ | _, NaN => false
  | Num a, Num b => R_leb a b
  | NInf, _ => true
  | _, PInf => true
  | _, _ => false
  end.

Definition fgt (x y : float64) : bool := flt y x.
Definition fge (x y : float64) : bool := fle y x.

Definition feq (x y : float64) : bool :=
  match x, y with
  | Num a, Num b => R_eqb a b
  | PInf, PInf | NInf, NInf => true
  | _, _ => false
  end.

(** Python's conversion of an [int] to a float. *)
Definition of_int (z : Z) : float64 := Num (IZR z).

(** The sum of a list of values. *)
Fixpoint fsum (xs : list float64) : float64 :=
  match xs with
  | [] => Num 0
  | x :: r => fadd x (fsum r)
  end.

Definition fmax (a b : float64) : float64 := if flt a b then b else a.
Definition fmin (a b : float64) : float64 := if flt b a then b else a.

End F64.
Export F64.

Declare Scope f64_scope.
Delimit Scope f64_scope with f64.
Bind Scope f64_scope with float64.
Infix "+" := fadd : f64_scope.
Infix "-" := fsub : f64_scope.
Infix "*" := fmul : f64_scope.
Infix "/" := fdiv : f64_scope.
Notation "- x" := (fneg x) : f64_scope.

(** Decides the comparisons of concrete reals left by the evaluation of the
    program on an example. *)
Ltac r_cases :=
  unfold R_ltb, R_leb, R_eqb;
  repeat match goal with
         | |- context [Rlt_dec ?a ?b] => destruct (Rlt_dec a b); try lra
         | |- context [Rle_dec ?a ?b] => destruct (Rle_dec a b); try lra
         | |- context [Req_dec_T ?a ?b] =>
             destruct (Req_dec_T a b); try lra; try congruence
         end.

(** ** pandas *)

Module Pandas.

(** A [Series]: (index label, value) pairs in row order. *)
Definition Series : Type := list (Z * float64).

Definition index (s : Series) : list Z := map fst s.
Definition values (s : Series) : list float64 := map snd s.

(** [s.empty] / [df.empty] *)
Definition empty {A : Type} (l : list A) : bool :=
  match l with [] => true | _ => false end.

(** A row of a two-column DataFrame. *)
Record Row2 : Type := mkRow2 { label : Z; col0 : float64; col1 : float64 }.

Fixpoint index_eqb (a b : list Z) : bool :=
  match a, b with
  | [], [] => true
  | x :: a', y :: b' => (x =? y)%Z && index_eqb a' b'
  | _, _ => false
  end.

(** The outer join of two series with increasing, duplicate-free labels: the
    rows of the sorted union of the labels, a missing value being [NaN]. *)
Fixpoint outer_join (a : Series) : Series -> list Row2 :=
  fix join (b : Series) : list Row2 :=
    match a, b with
    | [], _ => map (fun r => mkRow2 (fst r) NaN (snd r)) b
    | _, [] => map (fun r => mkRow2 (fst r) (snd r) NaN) a
    | (ta, va) :: a', (tb, vb) :: b' =>
        if (ta <? tb)%Z then mkRow2 ta va NaN :: outer_join a' b
        else if (tb <? ta)%Z then mkRow2 tb NaN vb :: join b'
        else mkRow2 ta va vb :: outer_join a' b'
    end.

(** [pd.concat([a, b], axis=1)] and [pd.DataFrame({c0: a, c1: b})]: when the
    two indexes are equal the columns are put side by side on that index;
    otherwise the series are re-indexed on the union of their (datetime)
    labels.  The second case is modelled for duplicate-free labels, where
    pandas does not raise. *)
Definition concat_axis1 (a b : Series) : list Row2 :=
  if index_eqb (index a) (index b)
  then map (fun p => mkRow2 (fst (fst p)) (snd (fst p)) (snd (snd p))) (combine a b)
  else outer_join a b.

(** [df.dropna()] on a two-column frame, [s.dropna()] on a series. *)
Definition dropna (df : list Row2) : list Row2 :=
  filter (fun r => notna (col0 r) && notna (col1 r)) df.

Definition dropna_series (s : Series) : Series :=
  filter (fun r => notna (snd r)) s.

(** [s.fillna(v)] *)
Definition fillna (v : float64) (s : Series) : Series :=
  map (fun r => (fst r, if isna (snd r) then v else snd r)) s.

(** Arithmetic of two series that carry the same index. *)
Definition series_op (f : float64 -> float64 -> float64) (a b : Series) : Series :=
  map (fun p => (fst (fst p), f (snd (fst p)) (snd (snd p)))) (combine a b).

Definition with_values (s : Series) (vs : list float64) : Series :=
  combine (index s) vs.

(** The window [xs[i-w+1 .. i]] of a rolling computation (for [w <= i+1]). *)
Definition window (w : nat) (xs : list float64) (i : nat) : list float64 :=
  firstn w (skipn (S i - w) xs).

(** [s.rolling(window=w)] followed by an aggregate: [min_periods] defaults
    to [w], so the result is [NaN] until the window is full and whenever a
    value of the window is missing; pandas treats an infinite value as
    missing here. *)
Definition rolling_at (w : nat) (agg : list float64 -> float64) (xs : list float64)
  (i : nat) : float64 :=
  if (w <=? S i)%nat then
    let win := window w xs i in
    if forallb isfinite win then agg win else NaN
  else NaN.

Definition rolling (w : nat) (agg : list float64 -> float64) (xs : list float64)
  : list float64 :=
  map (rolling_at w agg xs) (seq 0 (length xs)).

(** The aggregates of a full window, from their definitions. *)
Definition mean (win : list float64) : float64 :=
  (fsum win / Num (INR (length win)))%f64.

Definition sum_sq_dev (win : list float64) : float64 :=
  let m := mean win in fsum (map (fun x => ((x - m) * (x - m))%f64) win).

(** The sample standard deviation ([ddof = 1]). *)
Definition std (win : list float64) : float64 :=
  if (length win <=? 1)%nat then NaN
  else fsqrt (sum_sq_dev win / Num (INR (length win - 1)))%f64.

Definition rolling_mean (w : nat) (s : Series) : Series :=
  with_values s (rolling w mean (values s)).

Definition rolling_std (w : nat) (s : Series) : Series :=
  with_values s (rolling w std (values s)).

(** Pearson correlation of the paired values of a window. *)
Definition corr (win : list (float64 * float64)) : float64 :=
  let xs := map fst win in
  let ys := map snd win in
  let mx := mean xs in
  let my := mean ys in
  let sxy := fsum (map (fun p => ((fst p - mx) * (snd p - my))%f64) win) in
  (sxy / fsqrt (sum_sq_dev xs * sum_sq_dev ys))%f64.

(** [a.rolling(window=w).corr(b)] on two columns of one frame. *)
Definition rolling_pearson (w : nat) (df : list Row2) : Series :=
  map (fun i =>
         (label (nth i df (mkRow2 0 NaN NaN)),
          if (w <=? S i)%nat then
            let win := firstn w (skipn (S i - w) df) in
            if forallb (fun r => isfinite (col0 r) && isfinite (col1 r)) win
            then corr (map (fun r => (col0 r, col1 r)) win)
            else NaN
          else NaN))
      (seq 0 (length df)).

(** [s.diff()]: the first entry is missing. *)
Fixpoint diff_from (prev : float64) (xs : list float64) : list float64 :=
  match xs with
  | [] => []
  | x :: r => (x - prev)%f64 :: diff_from x r
  end.

Definition diff (xs : list float64) : list float64 :=
  match xs with
  | [] => []
  | x :: r => NaN :: diff_from x r
  end.

(** [s.shift(1)]: every value moves one row down, the first entry is missing. *)
Definition shift1 (xs : list float64) : list float64 :=
  match xs with
  | [] => []
  | _ :: _ => NaN :: removelast xs
  end.

(** [s.cumsum()]: missing entries are skipped by the running sum and stay
    missing in the result. *)
Fixpoint cumsum_from (acc : float64) (xs : list float64) : list float64 :=
  match xs with
  | [] => []
  | x :: r =>
      if isna x then NaN :: cumsum_from acc r
      else (acc + x)%f64 :: cumsum_from (acc + x)%f64 r
  end.

Definition cumsum (xs : list float64) : list float64 := cumsum_from (Num 0) xs.

(** Elementwise product of two columns of one frame. *)
Fixpoint mul_columns (a b : list float64) : list float64 :=
  match a, b with
  | x :: a', y :: b' => (x * y)%f64 :: mul_columns a' b'
  | _, _ => []
  end.

(** [a.intersection(b)] on indexes: the labels of [a] found in [b], once each. *)
Definition mem (t : Z) (l : list Z) : bool := existsb (Z.eqb t) l.

Fixpoint unique (l : list Z) : list Z :=
  match l with
  | [] => []
  | t :: r => t :: filter (fun u => negb (u =? t)%Z) (unique r)
  end.

Definition intersection (a b : list Z) : list Z :=
  unique (filter (fun t => mem t b) a).

(** The text of a stored timestamp.  [save_trade] hands a Python [datetime]
    to sqlite3, which stores its [isoformat(' ')]: the text carries a
    fractional part exactly when the microseconds are not zero. *)
Definition has_fraction (t : Z) : bool := negb (t mod 1000000 =? 0)%Z.

(** [pd.to_datetime] on the column of stored texts (pandas 2): the format is
    inferred from the first text and every text has to match it; a text in the
    other format raises ([None]). *)
Definition to_datetime (ts : list Z) : option (list Z) :=
  match ts with
  | [] => Some []
  | t0 :: _ =>
      if forallb (fun t => Bool.eqb (has_fraction t) (has_fraction t0)) ts
      then Some ts
      else None
  end.

(** [df.sort_values('timestamp')] on (timestamp, price) rows.  pandas does
    not fix the order of rows with equal timestamps; the model keeps the order
    they have in the query result. *)
Fixpoint insert_row (r : Z * float64) (l : list (Z * float64)) : list (Z * float64) :=
  match l with
  | [] => [r]
  | h :: t => if (fst r <=? fst h)%Z then r :: l else h :: insert_row r t
  end.

Fixpoint sort_values (l : list (Z * float64)) : list (Z * float64) :=
  match l with
  | [] => []
  | r :: t => insert_row r (sort_values t)
  end.

(** A row of the frame returned by [resample(...).ohlc()]. *)
Record Bar : Type := mkBar
  { interval_start : Z; open : float64; high : float64; low : float64; close : float64 }.

(** The left edge of the interval of width [d] that contains [t].  The
    intervals are [[k*d, (k+1)*d)]; for the widths the dashboard offers, each
    of which divides a day, counting them from the start of the first day, as
    pandas does, is counting them from the epoch. *)
Definition bucket (d t : Z) : Z := (d * (t / d))%Z.

Definition in_bucket (d b : Z) (r : Z * float64) : bool :=
  ((b <=? fst r) && (fst r <? b + d))%Z.

(** The open/high/low/close aggregate of the prices of one interval, in time
    order; missing prices are skipped and an interval without a price yields
    missing values. *)
Definition ohlc (b : Z) (prices : list float64) : Bar :=
  match filter notna prices with
  | [] => mkBar b NaN NaN NaN NaN
  | p :: ps =>
      mkBar b p (fold_left fmax ps p) (fold_left fmin ps p) (last ps p)
  end.

(** [s.resample(d).ohlc()] on rows sorted by time: one row for every interval
    from the one of the first row to the one of the last row. *)
Definition resample_ohlc (d : Z) (rows : list (Z * float64)) : list Bar :=
  match rows with
  | [] => []
  | r0 :: _ =>
      let first := bucket d (fst r0) in
      let final := bucket d (fst (last rows r0)) in
      map (fun k =>
             let b := (first + Z.of_nat k * d)%Z in
             ohlc b (map snd (filter (in_bucket d b) rows)))
          (seq 0 (Z.to_nat ((final - first) / d + 1)))
  end.

Definition dropna_bars (bars : list Bar) : list Bar :=
  filter (fun b => notna (open b) && notna (high b) && notna (low b) && notna (close b))
         bars.

(** [df.loc[idx]['close']]: for each label of [idx], the rows carrying it. *)
Definition loc_close (df : list Bar) (idx : list Z) : Series :=
  flat_map (fun t =>
              map (fun b => (interval_start b, close b))
                  (filter (fun b => (interval_start b =? t)%Z) df))
           idx.

End Pandas.
Export Pandas.

(** ** statsmodels *)

Module Statsmodels.

(** [sm.OLS(Y, X).fit().params] is the numerical routine of the library and
    a parameter of the program: a function from the observations [Y] and the
    design [X] to the coefficients, [None] standing for an exception.  What
    is modelled here is the design that [sm.add_constant] builds. *)

(** The design matrix handed to [sm.OLS]: the regressor alone, or a column
    of ones followed by the regressor. *)
Inductive Design : Type :=
| Exog (x : list float64)
| ConstExog (x : list float64).

(** [np.ptp]: maximum minus minimum. *)
Definition ptp (x : list float64) : float64 :=
  match x with
  | [] => NaN
  | v :: r => (fold_left fmax r v - fold_left fmin r v)%f64
  end.

(** [sm.add_constant(x)] with its default [has_constant='skip']: a column
    that is already a non-zero constant is returned as it is, no column of
    ones is added. *)
Definition is_nonzero_const (x : list float64) : bool :=
  feq (ptp x) (Num 0) && existsb (fun v => negb (feq v (Num 0))) x.

Definition add_constant (x : list float64) : Design :=
  if is_nonzero_const x then Exog x else ConstExog x.


End Statsmodels.
Export Statsmodels.

(** ** analytics.py *)

Module Analytics.

(** The resampling intervals the dashboard offers: ['1S'], ['1Min'] and
    ['5Min'], and their widths in microseconds, the unit of the timestamps. *)
Inductive Timeframe : Type := tf_1S | tf_1Min | tf_5Min.

Definition width (timeframe : Timeframe) : Z :=
  match timeframe with
  | tf_1S => 1000000
  | tf_1Min => 60000000
  | tf_5Min => 300000000
  end.

(** Lines 32 to 42 of [load_data]: the frame is sorted by time and
    resampled, and the intervals without a trade are dropped. *)
Definition ohlc_frame (df : list (Z * float64)) (timeframe : Timeframe) : list Bar :=
  let df := sort_values df in
  let resampled := resample_ohlc (width timeframe) df in
  dropna_bars resampled.

(** [load_data], after the query: [query] holds the (timestamp, price) rows
    read from the [trades] table for the symbol (the latest [limit] trades,
    latest first), [None] when reading them raised.  Every exception raised
    in the body is caught and turned into an empty frame: the one of the read,
    the one of [pd.to_datetime], and any other that pandas raises on the
    converted frame.  [raises timeframe df] tells whether pandas refuses the
    sorted frame [df] for the interval [timeframe]: the alias ['1S'] is
    deprecated in pandas 2.2 and refused later, and a span of time with too
    many intervals cannot be held; what is refused depends on the installed
    pandas and is a parameter. *)
Definition load_data (raises : Timeframe -> list (Z * float64) -> bool)
  (query : option (list (Z * float64))) (timeframe : Timeframe) : list Bar :=
  match query with
  | None => []
  | Some df =>
      if empty df then []
      else
        match to_datetime (map fst df) with
        | None => []
        | Some timestamp =>
            let df := combine timestamp (map snd df) in
            if raises timeframe (sort_values df) then []
            else ohlc_frame df timeframe
        end
  end.

(** [OLS_fit_params Y X] is [sm.OLS(Y, X).fit().params]: the coefficients that
    statsmodels returns, or [None] when it raises. *)
Definition calculate_ols_hedge_ratio
  (OLS_fit_params : list float64 -> Design -> option (list float64))
  (series_y series_x : Series) : float64 :=
  let df := dropna (concat_axis1 series_y series_x) in
  if empty df || (length df <? 5)%nat then Num 0
  else
    let Y := map col0 df in
    let X := add_constant (map col1 df) in
    match OLS_fit_params Y X with
    | Some params =>
        match nth_error params 1 with
        | Some beta => beta
        | None => Num 0
        end
    | None => Num 0
    end.

Definition calculate_spread (series_y series_x : Series) (hedge_ratio : float64)
  : Series :=
  let df := dropna (concat_axis1 series_y series_x) in
  if empty df then []
  else map (fun r => (label r, (col0 r - hedge_ratio * col1 r)%f64)) df.

(** [window] is a size the dashboard takes between 10 and 200; pandas
    raises on a negative one.  The properties proved of this function use the
    rows of the rolling aggregates and their missing values, not their
    numerical values, which are the matter of [Binary64.calculate_zscore]. *)
Definition calculate_zscore (spread : Series) (window : nat) : Series :=
  if empty spread then []
  else
    let mean := rolling_mean window spread in
    let std := rolling_std window spread in
    let z_score := series_op fdiv (series_op fsub spread mean) std in
    fillna (Num 0) z_score.

Definition calculate_rolling_correlation (series_y series_x : Series) (window : nat)
  : Series :=
  let df := dropna (concat_axis1 series_y series_x) in
  if empty df then []
  else rolling_pearson window df.

Record ADFResult : Type := mkADF
  { adf_stat : float64; p_value : float64; is_stationary : bool }.

(** [adfuller] is statsmodels' test: on the cleaned values it returns the
    statistic and the p-value, or raises ([None]). *)
Definition perform_adf_test
  (adfuller : list float64 -> option (float64 * float64)) (spread : Series)
  : option ADFResult :=
  let clean_spread := dropna_series spread in
  if (length clean_spread <? 20)%nat then None
  else
    match adfuller (values clean_spread) with
    | Some result =>
        Some (mkADF (fst result) (snd result) (flt (snd result) (Num (5 / 100))))
    | None => None
    end.

(** One pass of the loop body of [run_backtest]: the entry logic when flat,
    else the two exit tests. *)
Definition step (entry_threshold : float64) (current_pos : Z) (z : float64) : Z :=
  if (current_pos =? 0)%Z then
    if fgt z entry_threshold then (-1)%Z
    else if flt z (- entry_threshold)%f64 then 1%Z
    else current_pos
  else if (current_pos =? -1)%Z && fle z (Num 0) then 0%Z
  else if (current_pos =? 1)%Z && fge z (Num 0) then 0%Z
  else current_pos.

(** The loop: [positions] collects [current_pos] after each row. *)
Fixpoint positions_from (entry_threshold : float64) (current_pos : Z)
  (zs : list float64) : list Z :=
  match zs with
  | [] => []
  | z :: r =>
      let current_pos := step entry_threshold current_pos z in
      current_pos :: positions_from entry_threshold current_pos r
  end.

(** A row of the frame returned by [run_backtest]. *)
Record BacktestRow : Type := mkBacktestRow
  { bt_label : Z;
    bt_spread : float64;
    bt_z : float64;
    position : Z;
    spread_change : float64;
    pnl : float64;
    cumulative_pnl : float64 }.

Fixpoint assemble (df : list Row2) (positions : list Z)
  (spread_change pnl cumulative_pnl : list float64) : list BacktestRow :=
  match df, positions, spread_change, pnl, cumulative_pnl with
  | r :: df', p :: ps, c :: cs, g :: gs, u :: us =>
      mkBacktestRow (label r) (col0 r) (col1 r) p c g u :: assemble df' ps cs gs us
  | _, _, _, _, _ => []
  end.

(** The frame is built from the two series, its [position] column is set
    to 0 and then replaced by the positions of the loop, and the three
    profit columns are added from it. *)
Definition run_backtest (spread zscore : Series) (entry_threshold : float64)
  : list BacktestRow :=
  let df := concat_axis1 spread zscore in
  let positions := positions_from entry_threshold 0%Z (map col1 df) in
  let spread_change := diff (map col0 df) in
  let pnl := mul_columns (shift1 (map of_int positions)) spread_change in
  let cumulative_pnl := cumsum pnl in
  assemble df positions spread_change pnl cumulative_pnl.

End Analytics.
Export Analytics.

(** ** dashboard.py: pair alignment and the analytics run *)

Module Dashboard.

Definition common_idx (df_y df_x : list Bar) : list Z :=
  intersection (map interval_start df_y) (map interval_start df_x).

Definition series_y (df_y df_x : list Bar) : Series :=
  loc_close df_y (common_idx df_y df_x).

Definition series_x (df_y df_x : list Bar) : Series :=
  loc_close df_x (common_idx df_y df_x).

(** The aligned pair the dashboard computes, or [None] when it reports
    missing or insufficient data. *)
Definition aligned_pair (df_y df_x : list Bar) (window_size : nat)
  : option (Series * Series) :=
  if negb (empty df_y) && negb (empty df_x) then
    if (window_size <? length (common_idx df_y df_x))%nat
    then Some (series_y df_y df_x, series_x df_y df_x)
    else None
  else None.

(** What one refresh of the dashboard computes from an aligned pair. *)
Record Analytics : Type := mkAnalytics
  { hedge_ratio : float64;
    spread : Series;
    zscore : Series;
    rolling_corr : Series;
    adf_res : option ADFResult;
    backtest_df : list BacktestRow }.

Definition run_analytics
  (OLS_fit_params : list float64 -> Design -> option (list float64))
  (adfuller : list float64 -> option (float64 * float64))
  (sy sx : Series) (window_size : nat) (z_threshold : float64) : Analytics :=
  let hedge_ratio := calculate_ols_hedge_ratio OLS_fit_params sy sx in
  let spread := calculate_spread sy sx hedge_ratio in
  let zscore := calculate_zscore spread window_size in
  let rolling_corr := calculate_rolling_correlation sy sx window_size in
  let adf_res := perform_adf_test adfuller spread in
  let backtest_df := run_backtest spread zscore z_threshold in
  mkAnalytics hedge_ratio spread zscore rolling_corr adf_res backtest_df.

End Dashboard.
Export Dashboard.

(** ** The position state machine, as the specification words it *)

Module Machine.

Inductive Position : Type := Flat | Long | Short.

(** [Long = +1], [Short = -1], [Flat = 0]. *)
Definition encode (s : Position) : Z :=
  match s with Flat => 0%Z | Long => 1%Z | Short => (-1)%Z end.

(** The transition rule for the z-score [z] and the entry threshold [T]. *)
Definition transition (T : float64) (s : Position) (z : float64) : Position :=
  match s with
  | Flat => if fgt z T then Short else if flt z (- T)%f64 then Long else Flat
  | Short => if fle z (Num 0) then Flat else Short
  | Long => if fge z (Num 0) then Flat else Long
  end.

(** The states reached after each step, from the state [s]. *)
Fixpoint trajectory (T : float64) (s : Position) (zs : list float64) : list Position :=
  match zs with
  | [] => []
  | z :: r => transition T s z :: trajectory T (transition T s z) r
  end.

(** The state reached after all the steps of [zs], from [Flat]. *)
Definition state_after (T : float64) (zs : list float64) : Position :=
  fold_left (transition T) zs Flat.

(** A step enters a position when it leaves [0]; it exits when it returns
    to [0]. *)
Definition enters (before after : Z) : Prop := before = 0%Z /\ after <> 0%Z.
Definition exits (before after : Z) : Prop := before <> 0%Z /\ after = 0%Z.

End Machine.
Export Machine.

(** ** The data-model predicates of the specification *)

Module Stats.

(** The observations of a series that are finite numbers. *)
Definition finite_observations (s : Series) : Series :=
  filter (fun r => isfinite (snd r)) s.



(** An aligned pair of series: the same timestamps, no missing value. *)
Definition AlignedPair (y x : Series) : Prop :=
  index y = index x /\
  Forall (fun v => isna v = false) (values y) /\
  Forall (fun v => isna v = false) (values x).

(** A bar series as [load_data] returns it: strictly increasing interval
    starts. *)
Definition BarSeries (bars : list Bar) : Prop :=
  StronglySorted Z.lt (map interval_start bars).

End Stats.
Export Stats.

(** ** Example data *)

Module Examples.

Definition series_of (vs : list R) : Series :=
  combine (map Z.of_nat (seq 0 (length vs))) (map Num vs).

(** The spread of the lag scenario, and z-scores that enter long at the
    second step and exit at the fourth, for the threshold 2. *)
Definition lag_spread : Series := series_of [10; 12; 9; 9; 15]%R.
Definition lag_zscore : Series := series_of [0; -3; -3; 1; 0]%R.

(** A rising and a constant spread. *)
Definition ramp_spread : Series := series_of [1; 2; 3]%R.
Definition flat_spread : Series := series_of [5; 5; 5; 5]%R.

(** Six bars of a perfectly correlated pair, [Y = 2 X]. *)
Definition pair_y : Series := series_of [100; 101; 102; 103; 104; 105]%R.
Definition pair_x : Series := series_of [50; 50.5; 51; 51.5; 52; 52.5]%R.

(** Twenty observations, the last of them infinite, and a test routine that
    answers with undefined numbers. *)
Definition inf_tail_spread : Series :=
  series_of [1; 2; 1; 3; 2; 4; 3; 5; 4; 6; 5; 7; 6; 8; 7; 9; 8; 10; 9]%R
  ++ [(19%Z, PInf)].

Definition nan_adfuller (xs : list float64) : option (float64 * float64) :=
  Some (NaN, NaN).

(** A pandas that refuses no frame and no interval. *)
Definition never_raises (timeframe : Timeframe) (df : list (Z * float64)) : bool :=
  false.

(** Ticks of two one-minute intervals, out of order, with an empty minute
    between them: three in the first minute and one in the third. *)
Definition gap_ticks : list (Z * float64) :=
  [ (130000000%Z, Num 7); (10000000%Z, Num 5); (50000000%Z, Num 4);
    (20000000%Z, Num 9) ].

(** Two series of one-minute bars that share the second and the third
    minute. *)
Definition bars_y : list Bar :=
  [ mkBar 0 (Num 1) (Num 2) (Num 1) (Num 2);
    mkBar 60000000 (Num 2) (Num 3) (Num 2) (Num 3);
    mkBar 120000000 (Num 3) (Num 4) (Num 3) (Num 4) ].

Definition bars_x : list Bar :=
  [ mkBar 60000000 (Num 7) (Num 8) (Num 7) (Num 8);
    mkBar 120000000 (Num 8) (Num 9) (Num 8) (Num 9);
    mkBar 240000000 (Num 9) (Num 9) (Num 9) (Num 9) ].


(** A regression routine: the least-squares line in closed form, through the
    origin for a design without a column of ones. *)
Definition sum_prod (a b : list float64) : float64 := fsum (mul_columns a b).

Definition center (xs : list float64) : list float64 :=
  let m := mean xs in map (fun v => (v - m)%f64) xs.

Definition closed_form_params (Y : list float64) (X : Design) : option (list float64) :=
  match X with
  | Exog x => Some [ (sum_prod x Y / sum_prod x x)%f64 ]
  | ConstExog x =>
      let slope :=
        (sum_prod (center x) (center Y) / sum_prod (center x) (center x))%f64 in
      Some [ (mean Y - slope * mean x)%f64; slope ]
  end.

End Examples.
Export Examples.

(** ** The trades table: [ingestion.py] and the query of [load_data] *)

Module Trades.

(** The symbols the listener subscribes to; the dashboard offers the same
    four for either leg of the pair. *)
Inductive Symbol : Type := btcusdt | ethusdt | solusdt | bnbusdt.

Definition SYMBOLS : list Symbol := [btcusdt; ethusdt; solusdt; bnbusdt].

Definition symbol_eqb (a b : Symbol) : bool :=
  match a, b with
  | btcusdt, btcusdt | ethusdt, ethusdt | solusdt, solusdt | bnbusdt, bnbusdt => true
  | _, _ => false
  end.

(** A row of the table [trades]; the timestamp is the trade time in
    microseconds. *)
Record Trade : Type := mkTrade
  { symbol : Symbol; price : float64; quantity : float64; timestamp : Z }.

(** The database file: [None] as long as the table [trades] does not exist,
    else its rows in insertion order. *)
Definition Database : Type := option (list Trade).

(** [init_db]: [CREATE TABLE IF NOT EXISTS]. *)
Definition init_db (db : Database) : Database :=
  match db with
  | None => Some []
  | Some trades => Some trades
  end.

(** [save_trade]: one [INSERT]; without the table the statement raises, the
    error is printed and nothing is stored. *)
Definition save_trade (db : Database) (sym : Symbol) (p q : float64) (t : Z)
  : Database :=
  match db with
  | Some trades => Some (trades ++ [mkTrade sym p q t])
  | None => None
  end.

(** The query of [load_data]:
    [SELECT timestamp, price FROM trades WHERE symbol = sym
     ORDER BY timestamp DESC LIMIT limit].
    SQL does not fix the order of rows with equal timestamps; SQLite returns
    them in the order of insertion, and so does the model.  A negative [limit]
    is no limit. *)
Definition select_trades (trades : list Trade) (sym : Symbol) (limit : Z)
  : list (Z * float64) :=
  let matching := filter (fun r => symbol_eqb (symbol r) sym) trades in
  let ordered :=
    rev (sort_values (rev (map (fun r => (timestamp r, price r)) matching))) in
  if (limit <? 0)%Z then ordered else firstn (Z.to_nat limit) ordered.

(** [pd.read_sql(query, conn)]; it raises ([None]) without the table. *)
Definition read_sql (db : Database) (sym : Symbol) (limit : Z)
  : option (list (Z * float64)) :=
  match db with
  | None => None
  | Some trades => Some (select_trades trades sym limit)
  end.

(** [load_data(symbol, timeframe, limit)] of [analytics.py], query
    included. *)
Definition load_data (raises : Timeframe -> list (Z * float64) -> bool)
  (db : Database) (sym : Symbol) (timeframe : Timeframe) (limit : Z) : list Bar :=
  Analytics.load_data raises (read_sql db sym limit) timeframe.

End Trades.

(** ** dashboard.py: one refresh of the page *)

Module Display.

(** [s.iloc[-1]]; [None] stands for the [IndexError] on an empty object. *)
Definition iloc_last {A : Type} (l : list A) : option A :=
  match l with
  | [] => None
  | x :: r => Some (last r x)
  end.

(** [abs] on a float. *)
Definition fabs (x : float64) : float64 :=
  match x with
  | Num a => Num (Rabs a)
  | PInf | NInf => PInf
  | NaN => NaN
  end.

(** What the page shows: the warning that no data has arrived, the notice
    that the overlap is too short, or the metrics: the analytics, the
    simulated profit, the current z-score and correlation, and whether the
    breakout alert is raised.  The charts, the heatmap and the export are not
    modelled. *)
Inductive Screen : Type :=
| WaitingForData
| InsufficientData
| Metrics (a : Analytics) (total_pnl current_z current_corr : float64) (alert : bool).

(** The body of the script from the two loaded frames on; [None] stands
    for an exception, which nothing in the script catches. *)
Definition render
  (OLS_fit_params : list float64 -> Design -> option (list float64))
  (adfuller : list float64 -> option (float64 * float64))
  (df_y df_x : list Bar) (window_size : nat) (z_threshold : float64)
  : option Screen :=
  if negb (empty df_y) && negb (empty df_x) then
    let common_idx := intersection (map interval_start df_y) (map interval_start df_x) in
    if (window_size <? length common_idx)%nat then
      let series_y := loc_close df_y common_idx in
      let series_x := loc_close df_x common_idx in
      let a := run_analytics OLS_fit_params adfuller series_y series_x
                             window_size z_threshold in
      match iloc_last (backtest_df a), iloc_last (zscore a), iloc_last (rolling_corr a) with
      | Some b, Some z, Some c =>
          Some (Metrics a (cumulative_pnl b) (snd z) (snd c)
                        (fgt (fabs (snd z)) z_threshold))
      | _, _, _ => None
      end
    else Some InsufficientData
  else Some WaitingForData.

(** The script: both symbols are loaded with the default [limit]. *)
Definition dashboard
  (raises : Timeframe -> list (Z * float64) -> bool)
  (OLS_fit_params : list float64 -> Design -> option (list float64))
  (adfuller : list float64 -> option (float64 * float64))
  (db : Trades.Database) (symbol_y symbol_x : Trades.Symbol) (timeframe : Timeframe)
  (window_size : nat) (z_threshold : float64) : option Screen :=
  let df_y := Trades.load_data raises db symbol_y timeframe 10000 in
  let df_x := Trades.load_data raises db symbol_x timeframe 10000 in
  render OLS_fit_params adfuller df_y df_x window_size z_threshold.

End Display.
Export Display.

(** ** More example data *)

Module Samples.

(** Two series on different timestamps, the first with a missing value:
    they share the timestamps 1 and 2, and both carry a value at 2 only. *)
Definition ragged_y : Series := [(0%Z, Num 1); (1%Z, NaN); (2%Z, Num 3)].
Definition ragged_x : Series := [(1%Z, Num 5); (2%Z, Num 6); (3%Z, Num 7)].

End Samples.
Export Samples.

(** ** The z-score on binary64 numbers *)

Module Binary64.

Import PrimFloat.

(** [float] is an IEEE 754 binary64 number, the float of Python and of the
    columns of pandas, with the operations of the processor: each one rounds
    to nearest, overflows to an infinity and underflows to zero. *)

(** A missing value is the number that differs from itself. *)
Definition isna (x : float) : bool := is_nan x.

Definition Series : Type := list (Z * float).

Definition index (s : Series) : list Z := map fst s.
Definition values (s : Series) : list float := map snd s.

Definition fillna (v : float) (s : Series) : Series :=
  map (fun r => (fst r, if isna (snd r) then v else snd r)) s.

Definition series_op (f : float -> float -> float) (a b : Series) : Series :=
  map (fun p => (fst (fst p), f (snd (fst p)) (snd (snd p)))) (combine a b).

Definition with_values (s : Series) (vs : list float) : Series :=
  combine (index s) vs.

(** [calculate_zscore] on binary64 numbers.  [rolling_mean w] and
    [rolling_std w] are [s.rolling(window=w).mean()] and
    [s.rolling(window=w).std()] on the values of a series: pandas' streaming
    routines, which are parameters of the program. *)
Definition calculate_zscore
  (rolling_mean rolling_std : nat -> list float -> list float)
  (spread : Series) (window : nat) : Series :=
  if empty spread then []
  else
    let mean := with_values spread (rolling_mean window (values spread)) in
    let std := with_values spread (rolling_std window (values spread)) in
    let z_score := series_op div (series_op sub spread mean) std in
    fillna zero z_score.

(** Rolling routines for the examples: the mean and the sample standard
    deviation of each full window, evaluated in binary64 from their
    definitions, [NaN] until the window is full and whenever a value of the
    window is not finite. *)
Definition fsum (xs : list float) : float := fold_left add xs zero.

Definition count (xs : list float) : float :=
  fold_left (fun n _ => add n one) xs zero.

Definition mean (win : list float) : float := div (fsum win) (count win).

Definition std (win : list float) : float :=
  let m := mean win in
  sqrt (div (fsum (map (fun x => mul (sub x m) (sub x m)) win))
            (sub (count win) one)).

Definition rolling (agg : list float -> float) (w : nat) (xs : list float)
  : list float :=
  map (fun i =>
         if (w <=? S i)%nat then
           let win := firstn w (skipn (S i - w) xs) in
           if forallb is_finite win then agg win else nan
         else nan)
      (seq 0 (length xs)).

(** A series on the timestamps 0, 1, 2, ... *)
Definition series_of (vs : list float) : Series :=
  combine (map Z.of_nat (seq 0 (length vs))) vs.

(** A spread that starts at 0 and moves to 1e-200, the binary64 number
    nearest to it. *)
Definition tiny_spread : Series := series_of [0; 0x1.87e92154ef7acp-665]%float.

(** A rising and a constant spread. *)
Definition ramp_spread : Series := series_of [1; 2; 3]%float.
Definition flat_spread : Series := series_of [5; 5; 5; 5]%float.

End Binary64.

(* ================================================================== *)
(** * Part II: properties *)
(* ================================================================== *)

(** ** float64 arithmetic *)

Lemma R_ltb_false (a b : R) : ~ (a < b)%R -> R_ltb a b = false.
Proof. intros H. unfold R_ltb. destruct (Rlt_dec a b); [contradiction | reflexivity]. Qed.

Lemma R_leb_true (a b : R) : (a <= b)%R -> R_leb a b = true.
Proof. intros H. unfold R_leb. destruct (Rle_dec a b); [reflexivity | contradiction]. Qed.



Lemma R_ltb_lt (a b : R) : R_ltb a b = true <-> (a < b)%R.
Proof. unfold R_ltb. destruct (Rlt_dec a b); split; intros; try easy. Qed.

Lemma R_leb_le (a b : R) : R_leb a b = true <-> (a <= b)%R.
Proof. unfold R_leb. destruct (Rle_dec a b); split; intros; try easy. Qed.

Lemma fadd_0_l (x : float64) : (Num 0 + x)%f64 = x.
Proof. destruct x; simpl; try reflexivity. f_equal. lra. Qed.

Lemma isna_true (x : float64) : isna x = true <-> x = NaN.
Proof. destruct x; simpl; split; congruence. Qed.

(** ** Columns of pandas frames *)

Lemma diff_from_length (xs : list float64) :
  forall prev, length (diff_from prev xs) = length xs.
Proof. induction xs as [|x r IH]; intros prev; simpl; [reflexivity | now rewrite IH]. Qed.

Lemma diff_length (xs : list float64) : length (diff xs) = length xs.
Proof. destruct xs as [|x r]; simpl; [reflexivity | now rewrite diff_from_length]. Qed.

Lemma removelast_len {A : Type} (l : list A) :
  length (removelast l) = Nat.pred (length l).
Proof. rewrite removelast_firstn_len, length_firstn. lia. Qed.

Lemma shift1_length (xs : list float64) : length (shift1 xs) = length xs.
Proof.
  destruct xs as [|x r]; [reflexivity|].
  unfold shift1. cbn [length]. rewrite removelast_len. reflexivity.
Qed.

Lemma mul_columns_length (a : list float64) :
  forall b, length a = length b -> length (mul_columns a b) = length a.
Proof.
  induction a as [|x a IH]; intros [|y b] H; simpl in *; try congruence.
  now rewrite IH by congruence.
Qed.

Lemma cumsum_from_length (xs : list float64) :
  forall acc, length (cumsum_from acc xs) = length xs.
Proof.
  induction xs as [|x r IH]; intros acc; simpl; [reflexivity|].
  destruct (isna x); simpl; now rewrite IH.
Qed.

Lemma positions_from_length (T : float64) (zs : list float64) :
  forall cur, length (positions_from T cur zs) = length zs.
Proof. induction zs as [|z r IH]; intros cur; simpl; [reflexivity | now rewrite IH]. Qed.

(** Entry [i+1] of [diff] is the difference of entries [i+1] and [i]. *)
Lemma diff_from_nth (xs : list float64) :
  forall prev i x,
    nth_error xs i = Some x ->
    nth_error (diff_from prev xs) i
    = Some (x - match i with O => prev | S j => nth j xs NaN end)%f64.
Proof.
  induction xs as [|y r IH]; intros prev [|i] x H; simpl in *; try discriminate.
  - now inversion H.
  - rewrite (IH y i x H). destruct i; reflexivity.
Qed.

Lemma diff_nth_S (xs : list float64) (i : nat) (x y : float64) :
  nth_error xs i = Some x -> nth_error xs (S i) = Some y ->
  nth_error (diff xs) (S i) = Some (y - x)%f64.
Proof.
  destruct xs as [|x0 r]; [destruct i; discriminate|].
  intros Hx Hy. cbn [diff nth_error] in *.
  rewrite (diff_from_nth r x0 i y Hy).
  destruct i as [|j]; simpl in Hx.
  - now inversion Hx.
  - now rewrite (nth_error_nth _ _ _ Hx).
Qed.

Lemma shift1_nth_S (xs : list float64) (i : nat) (x y : float64) :
  nth_error xs i = Some x -> nth_error xs (S i) = Some y ->
  nth_error (shift1 xs) (S i) = Some x.
Proof.
  intros Hx Hy. destruct xs as [|x0 r]; [destruct i; discriminate|].
  unfold shift1. cbn [nth_error].
  assert (Hlt : (S i < length (x0 :: r))%nat)
    by (apply nth_error_Some; congruence).
  assert (Hsplit : x0 :: r = removelast (x0 :: r) ++ [last (x0 :: r) NaN])
    by (apply app_removelast_last; discriminate).
  assert (Hlen : length (removelast (x0 :: r)) = length r)
    by (rewrite removelast_len; reflexivity).
  rewrite Hsplit in Hx. rewrite nth_error_app1 in Hx; [exact Hx|].
  rewrite Hlen. simpl in Hlt. lia.
Qed.

Lemma mul_columns_nth (a : list float64) :
  forall b i x y,
    nth_error a i = Some x -> nth_error b i = Some y ->
    nth_error (mul_columns a b) i = Some (x * y)%f64.
Proof.
  induction a as [|u a IH]; intros [|v b] [|i] x y Ha Hb; simpl in *; try discriminate.
  - inversion Ha; inversion Hb; reflexivity.
  - now apply IH.
Qed.

(** Past a defined entry, the running sum adds the next defined entry. *)
Lemma cumsum_from_step (xs : list float64) :
  forall acc i x y u,
    nth_error xs i = Some x -> nth_error xs (S i) = Some y ->
    isna x = false ->
    nth_error (cumsum_from acc xs) i = Some u ->
    nth_error (cumsum_from acc xs) (S i)
    = Some (if isna y then NaN else (u + y)%f64).
Proof.
  induction xs as [|h r IH]; intros acc i x y u Hx Hy Hn Hu.
  - destruct i; discriminate.
  - destruct i as [|i].
    + simpl in Hx. inversion Hx; subst h. cbn [cumsum_from] in *.
      rewrite Hn in *. cbn [nth_error] in *. inversion Hu; subst u.
      destruct r as [|y' r']; [discriminate|]. simpl in Hy. inversion Hy; subst y'.
      cbn [cumsum_from]. destruct (isna y); reflexivity.
    + cbn [cumsum_from] in *. simpl in Hx, Hy.
      destruct (isna h); cbn [nth_error] in *; eapply IH; eauto.
Qed.

(** ** The columns of the frame returned by [run_backtest] *)

Lemma assemble_columns (df : list Row2) :
  forall ps cs gs us,
    length ps = length df -> length cs = length df ->
    length gs = length df -> length us = length df ->
    let rows := assemble df ps cs gs us in
    map bt_label rows = map label df /\
    map bt_spread rows = map col0 df /\
    map bt_z rows = map col1 df /\
    map position rows = ps /\
    map spread_change rows = cs /\
    map pnl rows = gs /\
    map cumulative_pnl rows = us.
Proof.
  induction df as [|r df IH]; intros [|p ps] [|c cs] [|g gs] [|u us] H1 H2 H3 H4;
    simpl in *; try discriminate; [repeat split|].
  destruct (IH ps cs gs us) as (A & B & C & D & E & F & G); try congruence.
  simpl. repeat split; congruence.
Qed.

Lemma run_backtest_columns (spread zscore : Series) (T : float64) :
  let df := concat_axis1 spread zscore in
  let rows := run_backtest spread zscore T in
  map bt_label rows = map label df /\
  map bt_spread rows = map col0 df /\
  map bt_z rows = map col1 df /\
  map position rows = positions_from T 0%Z (map bt_z rows) /\
  map spread_change rows = diff (map bt_spread rows) /\
  map pnl rows
  = mul_columns (shift1 (map of_int (map position rows))) (map spread_change rows) /\
  map cumulative_pnl rows = cumsum (map pnl rows).
Proof.
  intros df rows. subst rows. unfold run_backtest. fold df.
  set (ps := positions_from T 0%Z (map col1 df)).
  set (cs := diff (map col0 df)).
  set (gs := mul_columns (shift1 (map of_int ps)) cs).
  assert (Lp : length ps = length df)
    by (unfold ps; rewrite positions_from_length, length_map; reflexivity).
  assert (Lc : length cs = length df)
    by (unfold cs; rewrite diff_length, length_map; reflexivity).
  assert (Lg : length gs = length df).
  { unfold gs. rewrite mul_columns_length; rewrite shift1_length, length_map; congruence. }
  assert (Lu : length (cumsum gs) = length df)
    by (unfold cumsum; rewrite cumsum_from_length; exact Lg).
  destruct (assemble_columns df ps cs gs (cumsum gs) Lp Lc Lg Lu)
    as (A & B & C & D & E & F & G).
  rewrite A, B, C, D, E, F, G. repeat split; reflexivity.
Qed.

Lemma run_backtest_length (spread zscore : Series) (T : float64) :
  length (run_backtest spread zscore T) = length (concat_axis1 spread zscore).
Proof.
  destruct (run_backtest_columns spread zscore T) as (A & _).
  apply (f_equal (@length Z)) in A. now rewrite !length_map in A.
Qed.

(** ** The loop of [run_backtest] and the state machine *)

Lemma step_refines (T : float64) (s : Position) (z : float64) :
  step T (encode s) z = encode (transition T s z).
Proof.
  destruct s; unfold step, transition, encode.
  - destruct (fgt z T); [reflexivity|]. destruct (flt z (- T)%f64); reflexivity.
  - destruct (fge z (Num 0)); reflexivity.
  - destruct (fle z (Num 0)); reflexivity.
Qed.

Lemma positions_from_trajectory (T : float64) (zs : list float64) :
  forall s, positions_from T (encode s) zs = map encode (trajectory T s zs).
Proof.
  induction zs as [|z r IH]; intros s; simpl; [reflexivity|].
  rewrite step_refines, IH. reflexivity.
Qed.

Lemma trajectory_nth (T : float64) (zs : list float64) :
  forall s i, (i < length zs)%nat ->
    nth_error (trajectory T s zs) i
    = Some (fold_left (transition T) (firstn (S i) zs) s).
Proof.
  induction zs as [|z r IH]; intros s i Hi; simpl in Hi; [lia|].
  destruct i as [|i]; simpl.
  - reflexivity.
  - rewrite IH by lia. reflexivity.
Qed.

Lemma positions_from_nth (T : float64) (zs : list float64) :
  forall cur i z,
    nth_error zs i = Some z ->
    nth_error (positions_from T cur zs) i
    = Some (step T (match i with
                    | O => cur
                    | S j => nth j (positions_from T cur zs) 0%Z
                    end) z).
Proof.
  induction zs as [|h r IH]; intros cur i z Hz; [destruct i; discriminate|].
  destruct i as [|i]; simpl in *.
  - now inversion Hz.
  - rewrite (IH _ i z Hz). destruct i; reflexivity.
Qed.

Lemma step_range (T : float64) (p : Z) (z : float64) :
  (p = -1 \/ p = 0 \/ p = 1)%Z ->
  (step T p z = -1 \/ step T p z = 0 \/ step T p z = 1)%Z.
Proof.
  intros [-> | [-> | ->]]; unfold step.
  - destruct (fle z (Num 0)); cbn; auto.
  - destruct (fgt z T); cbn; auto. destruct (flt z (- T)%f64); auto.
  - destruct (fge z (Num 0)); cbn; auto.
Qed.

(** A step keeps the position, or enters from flat, or exits to flat: it
    never goes from long to short or back in one step. *)
Lemma step_moves (T : float64) (p : Z) (z : float64) :
  step T p z = p \/ enters p (step T p z) \/ exits p (step T p z).
Proof.
  unfold step, enters, exits.
  destruct (Z.eqb_spec p 0) as [-> | Hp0].
  - destruct (fgt z T); [right; left; split; [reflexivity | discriminate]|].
    destruct (flt z (- T)%f64); [right; left; split; [reflexivity | discriminate]|].
    now left.
  - destruct ((p =? -1)%Z && fle z (Num 0)); [right; right; split; [exact Hp0 | reflexivity]|].
    destruct ((p =? 1)%Z && fge z (Num 0)); [right; right; split; [exact Hp0 | reflexivity]|].
    now left.
Qed.

Lemma enters_exits_exclusive (p q : Z) : ~ (enters p q /\ exits p q).
Proof. unfold enters, exits. intros [[H _] [H' _]]. contradiction. Qed.

Lemma positions_from_range (T : float64) (zs : list float64) :
  forall cur, (cur = -1 \/ cur = 0 \/ cur = 1)%Z ->
    Forall (fun p => p = -1 \/ p = 0 \/ p = 1)%Z (positions_from T cur zs).
Proof.
  induction zs as [|z r IH]; intros cur Hc; simpl; constructor.
  - now apply step_range.
  - apply IH. now apply step_range.
Qed.

(** ** Alignment of two series *)

Lemma index_eqb_eq (a b : list Z) : index_eqb a b = true <-> a = b.
Proof.
  revert b; induction a as [|x a IH]; intros [|y b]; simpl; split; intros H;
    try congruence; try discriminate.
  - apply andb_true_iff in H as [H1 H2]. apply Z.eqb_eq in H1. apply IH in H2. congruence.
  - inversion H; subst. rewrite Z.eqb_refl. simpl. now apply IH.
Qed.

Lemma concat_axis1_same_index (a b : Series) :
  index a = index b ->
  concat_axis1 a b
  = map (fun p => mkRow2 (fst (fst p)) (snd (fst p)) (snd (snd p))) (combine a b).
Proof.
  intros H. unfold concat_axis1.
  destruct (index_eqb (index a) (index b)) eqn:E; [reflexivity|].
  apply index_eqb_eq in H. congruence.
Qed.

Lemma combine_same_index (a : Series) :
  forall b : Series, index a = index b ->
    map (fun p => fst (fst p)) (combine a b) = index a /\
    map (fun p => snd (fst p)) (combine a b) = values a /\
    map (fun p => snd (snd p)) (combine a b) = values b.
Proof.
  induction a as [|[t v] a IH]; intros [|[t' v'] b] H; simpl in *; try discriminate;
    [repeat split|].
  inversion H; subst. destruct (IH b H2) as (A & B & C).
  unfold index, values in *. simpl. repeat split; congruence.
Qed.

Lemma concat_axis1_columns (a b : Series) :
  index a = index b ->
  map label (concat_axis1 a b) = index a /\
  map col0 (concat_axis1 a b) = values a /\
  map col1 (concat_axis1 a b) = values b.
Proof.
  intros H. rewrite (concat_axis1_same_index a b H), !map_map. simpl.
  exact (combine_same_index a b H).
Qed.

(** ** The backtest: positions, rows, profit and loss *)

(** C3.  The position column of [run_backtest] is the trajectory of the state
    machine started in [Flat] and stepped once per row on the z column: from
    [Flat], [z > T] goes to [Short] and [z < -T] to [Long]; from [Short],
    [z <= 0] goes to [Flat]; from [Long], [z >= 0] goes to [Flat]; otherwise
    the state is kept.  The position of row [i] is the state after the rule of
    step [i] has been applied. *)
Theorem backtest_positions_follow_machine (spread zscore : Series) (T : float64) :
  let rows := run_backtest spread zscore T in
  map position rows = map encode (trajectory T Flat (map bt_z rows)) /\
  (forall i r, nth_error rows i = Some r ->
     position r = encode (state_after T (firstn (S i) (map bt_z rows)))) /\
  (index spread = index zscore -> map bt_z rows = values zscore).
Proof.
  intros rows.
  destruct (run_backtest_columns spread zscore T) as (_ & _ & Hz & Hp & _).
  fold rows in Hz, Hp.
  assert (Htraj : map position rows = map encode (trajectory T Flat (map bt_z rows))).
  { rewrite Hp. exact (positions_from_trajectory T (map bt_z rows) Flat). }
  split; [exact Htraj|]. split.
  - intros i r Hr.
    assert (Hi : (i < length (map bt_z rows))%nat).
    { rewrite length_map. apply nth_error_Some. congruence. }
    pose proof (map_nth_error position i rows Hr) as Hpr.
    rewrite Htraj in Hpr.
    pose proof (trajectory_nth T (map bt_z rows) Flat i Hi) as Ht.
    rewrite (map_nth_error encode i _ Ht) in Hpr.
    unfold state_after. congruence.
  - intros Hidx. rewrite Hz. now apply concat_axis1_columns.
Qed.

(** C10.  The frame returned by [run_backtest] has one row per row of the
    aligned input (one per value of [spread] when the two series carry the same
    index); every position is -1, 0 or 1; and a step keeps the position, or
    enters from flat, or exits to flat, never both. *)
Theorem backtest_rows_and_positions (spread zscore : Series) (T : float64) :
  let rows := run_backtest spread zscore T in
  length rows = length (concat_axis1 spread zscore) /\
  (index spread = index zscore ->
     length rows = length spread /\ map bt_label rows = index spread) /\
  (forall r, In r rows -> (position r = -1 \/ position r = 0 \/ position r = 1)%Z) /\
  (forall i r, nth_error rows i = Some r ->
     let before := match i with
                   | O => 0%Z
                   | S j => nth j (map position rows) 0%Z
                   end in
     (position r = before \/ enters before (position r) \/ exits before (position r)) /\
     ~ (enters before (position r) /\ exits before (position r))).
Proof.
  intros rows.
  destruct (run_backtest_columns spread zscore T) as (Hl & _ & _ & Hp & _).
  fold rows in Hl, Hp.
  split; [apply run_backtest_length|]. split; [|split].
  - intros Hidx. destruct (concat_axis1_columns spread zscore Hidx) as (A & _).
    split.
    + unfold rows. rewrite run_backtest_length.
      apply (f_equal (@length Z)) in A. unfold index in A.
      now rewrite !length_map in A.
    + congruence.
  - intros r Hr.
    pose proof (positions_from_range T (map bt_z rows) 0%Z (or_intror (or_introl eq_refl))) as HF.
    rewrite <- Hp in HF. rewrite Forall_forall in HF.
    apply HF. now apply in_map.
  - intros i r Hr before. split; [|apply enters_exits_exclusive].
    pose proof (map_nth_error position i rows Hr) as Hpr.
    pose proof (map_nth_error bt_z i rows Hr) as Hzr.
    rewrite Hp in Hpr at 1.
    rewrite (positions_from_nth T _ 0%Z i _ Hzr) in Hpr.
    rewrite <- Hp in Hpr. fold before in Hpr.
    assert (Hs : position r = step T before (bt_z r)) by congruence.
    rewrite Hs. apply step_moves.
Qed.

Lemma backtest_first_row (spread zscore : Series) (T : float64) (r0 : BacktestRow) :
  nth_error (run_backtest spread zscore T) 0 = Some r0 ->
  spread_change r0 = NaN /\ pnl r0 = NaN /\ cumulative_pnl r0 = NaN.
Proof.
  intros Hr.
  destruct (run_backtest_columns spread zscore T) as (_ & _ & _ & _ & Hc & Hg & Hu).
  set (rows := run_backtest spread zscore T) in *.
  destruct rows as [|r rows']; [discriminate|].
  simpl in Hr. inversion Hr; subst r. clear Hr.
  cbn [map diff] in Hc. inversion Hc as [[Hc0 Hc']].
  cbn [map shift1 mul_columns] in Hg. rewrite Hc0 in Hg.
  cbn [mul_columns fmul] in Hg. inversion Hg as [[Hg0 Hg']].
  cbn [map] in Hu. rewrite Hg0 in Hu. cbn [cumsum cumsum_from isna] in Hu.
  inversion Hu as [[Hu0 Hu']].
  repeat split; congruence.
Qed.

Lemma backtest_pnl_step (spread zscore : Series) (T : float64) (i : nat)
  (r r' : BacktestRow) :
  nth_error (run_backtest spread zscore T) i = Some r ->
  nth_error (run_backtest spread zscore T) (S i) = Some r' ->
  spread_change r' = (bt_spread r' - bt_spread r)%f64 /\
  pnl r' = (of_int (position r) * (bt_spread r' - bt_spread r))%f64.
Proof.
  intros Hr Hr'.
  destruct (run_backtest_columns spread zscore T) as (_ & _ & _ & _ & Hc & Hg & _).
  set (rows := run_backtest spread zscore T) in *.
  assert (Hd : nth_error (map spread_change rows) (S i)
               = Some (bt_spread r' - bt_spread r)%f64).
  { rewrite Hc. apply diff_nth_S; now apply map_nth_error. }
  assert (Hsc : spread_change r' = (bt_spread r' - bt_spread r)%f64).
  { rewrite (map_nth_error spread_change (S i) rows Hr') in Hd. congruence. }
  split; [exact Hsc|].
  assert (Hs : nth_error (shift1 (map of_int (map position rows))) (S i)
               = Some (of_int (position r))).
  { apply shift1_nth_S with (y := of_int (position r'));
      apply map_nth_error; now apply map_nth_error. }
  pose proof (mul_columns_nth _ _ (S i) _ _ Hs Hd) as Hm.
  rewrite <- Hg in Hm.
  rewrite (map_nth_error pnl (S i) rows Hr') in Hm. congruence.
Qed.

Lemma backtest_cum_second (spread zscore : Series) (T : float64) (r1 : BacktestRow) :
  nth_error (run_backtest spread zscore T) 1 = Some r1 ->
  cumulative_pnl r1 = pnl r1.
Proof.
  intros Hr.
  destruct (run_backtest_columns spread zscore T) as (_ & _ & _ & _ & _ & _ & Hu).
  remember (run_backtest spread zscore T) as rows eqn:E.
  destruct rows as [|r0 [|r rows']]; try discriminate.
  assert (H0 : pnl r0 = NaN)
    by (apply (backtest_first_row spread zscore T r0); rewrite <- E; reflexivity).
  simpl in Hr. inversion Hr; subst r. clear Hr.
  cbn [map] in Hu. rewrite H0 in Hu. cbn [cumsum cumsum_from isna] in Hu.
  destruct (isna (pnl r1)) eqn:En; injection Hu as Hu0 Hu1 Hu'.
  - apply isna_true in En. congruence.
  - rewrite Hu1. apply fadd_0_l.
Qed.

Lemma backtest_cum_step (spread zscore : Series) (T : float64) (i : nat)
  (r r' : BacktestRow) :
  nth_error (run_backtest spread zscore T) i = Some r ->
  nth_error (run_backtest spread zscore T) (S i) = Some r' ->
  isna (pnl r) = false -> isna (pnl r') = false ->
  cumulative_pnl r' = (cumulative_pnl r + pnl r')%f64.
Proof.
  intros Hr Hr' Hn Hn'.
  destruct (run_backtest_columns spread zscore T) as (_ & _ & _ & _ & _ & _ & Hu).
  set (rows := run_backtest spread zscore T) in *.
  pose proof (map_nth_error cumulative_pnl i rows Hr) as Hui.
  pose proof (map_nth_error cumulative_pnl (S i) rows Hr') as Hui'.
  rewrite Hu in Hui, Hui'. unfold cumsum in Hui, Hui'.
  rewrite (cumsum_from_step (map pnl rows) (Num 0) i (pnl r) (pnl r') (cumulative_pnl r)) in Hui';
    try assumption; try (now apply map_nth_error).
  rewrite Hn' in Hui'. congruence.
Qed.

Lemma lag_trajectory :
  trajectory (Num 2) Flat (values lag_zscore) = [Flat; Long; Long; Flat; Flat].
Proof. cbv -[IZR Rlt_dec Rle_dec Req_dec_T Ropp]. r_cases. reflexivity. Qed.

Lemma lag_positions :
  positions_from (Num 2) 0%Z (values lag_zscore) = [0; 1; 1; 0; 0]%Z.
Proof.
  change 0%Z with (encode Flat).
  rewrite (positions_from_trajectory (Num 2) (values lag_zscore) Flat), lag_trajectory.
  reflexivity.
Qed.

(** The lag scenario, evaluated: the long position entered at the second row
    earns nothing on that row and the move of the third row. *)
Lemma lag_scenario :
  let rows := run_backtest lag_spread lag_zscore (Num 2) in
  length rows = 5%nat /\
  map position rows = [0; 1; 1; 0; 0]%Z /\
  map pnl rows = [NaN; Num 0; Num (-3); Num 0; Num 0] /\
  map cumulative_pnl rows = [NaN; Num 0; Num (-3); Num (-3); Num (-3)].
Proof.
  intros rows.
  destruct (run_backtest_columns lag_spread lag_zscore (Num 2))
    as (_ & Hs & Hz & Hp & Hc & Hg & Hu).
  fold rows in Hs, Hz, Hp, Hc, Hg, Hu.
  destruct (concat_axis1_columns lag_spread lag_zscore eq_refl) as (_ & A & B).
  rewrite A in Hs. rewrite B in Hz. rewrite Hz, lag_positions in Hp.
  rewrite Hs in Hc. rewrite Hp, Hc in Hg. rewrite Hg in Hu.
  split.
  { apply (f_equal (@length Z)) in Hp. now rewrite length_map in Hp. }
  rewrite Hp, Hg, Hu.
  cbv [lag_spread series_of values map combine seq length snd diff diff_from shift1
       removelast of_int mul_columns fmul fsub fadd fneg cumsum cumsum_from isna].
  repeat split; repeat f_equal; lra.
Qed.

(** On the lag scenario the machine goes flat, long, long, flat, flat, and
    so does the position column. *)
Lemma backtest_positions_follow_machine_witness :
  let rows := run_backtest lag_spread lag_zscore (Num 2) in
  trajectory (Num 2) Flat (values lag_zscore) = [Flat; Long; Long; Flat; Flat] /\
  map position rows = map encode [Flat; Long; Long; Flat; Flat].
Proof.
  intros rows.
  pose proof lag_trajectory as Ht.
  split; [exact Ht|].
  destruct (backtest_positions_follow_machine lag_spread lag_zscore (Num 2))
    as (A & _ & C).
  fold rows in A, C. rewrite (C eq_refl), Ht in A. exact A.
Defined.

Lemma backtest_rows_and_positions_witness :
  let rows := run_backtest lag_spread lag_zscore (Num 2) in
  index lag_spread = index lag_zscore /\
  length rows = 5%nat /\
  map bt_label rows = [0; 1; 2; 3; 4]%Z /\
  Forall (fun r => position r = -1 \/ position r = 0 \/ position r = 1)%Z rows.
Proof.
  intros rows.
  destruct (backtest_rows_and_positions lag_spread lag_zscore (Num 2))
    as (_ & A & B & _).
  fold rows in A, B. destruct (A eq_refl) as (L & I).
  repeat split; try assumption.
  apply Forall_forall. exact B.
Defined.

Lemma nth_error_in_range {A : Type} (l : list A) (i : nat) :
  (i < length l)%nat -> exists x, nth_error l i = Some x.
Proof.
  intros H. destruct (nth_error l i) as [x|] eqn:E; [now exists x|].
  apply nth_error_None in E. lia.
Qed.

(** C1, as the program has it.  The first row has no spread change, no
    profit and no cumulative profit (all three are missing, not 0).  From the
    second row on, the profit of a row is the position of the row before times
    the change of the spread from that row; the cumulative profit of the second
    row is its profit, and past it the cumulative profit of a row is that of
    the row before plus the profit of the row, wherever both profits are
    defined. *)
Theorem backtest_pnl_lagged (spread zscore : Series) (T : float64) :
  let rows := run_backtest spread zscore T in
  (forall r0, nth_error rows 0 = Some r0 ->
     spread_change r0 = NaN /\ pnl r0 = NaN /\ cumulative_pnl r0 = NaN) /\
  (forall i r r', nth_error rows i = Some r -> nth_error rows (S i) = Some r' ->
     spread_change r' = (bt_spread r' - bt_spread r)%f64 /\
     pnl r' = (of_int (position r) * (bt_spread r' - bt_spread r))%f64) /\
  (forall r1, nth_error rows 1 = Some r1 -> cumulative_pnl r1 = pnl r1) /\
  (forall i r r', nth_error rows i = Some r -> nth_error rows (S i) = Some r' ->
     isna (pnl r) = false -> isna (pnl r') = false ->
     cumulative_pnl r' = (cumulative_pnl r + pnl r')%f64).
Proof.
  intros rows. repeat split.
  - now apply (backtest_first_row spread zscore T).
  - now apply (backtest_first_row spread zscore T).
  - now apply (backtest_first_row spread zscore T).
  - now apply (backtest_pnl_step spread zscore T i r r').
  - now apply (backtest_pnl_step spread zscore T i r r').
  - now apply backtest_cum_second.
  - intros i r r'. now apply backtest_cum_step.
Qed.

(** On the lag scenario: the second row's profit uses the position of the
    first row, and the third row's cumulative profit adds to the second's. *)
Lemma backtest_pnl_lagged_witness :
  let rows := run_backtest lag_spread lag_zscore (Num 2) in
  exists r0 r1 r2,
    nth_error rows 0 = Some r0 /\ nth_error rows 1 = Some r1 /\
    nth_error rows 2 = Some r2 /\
    pnl r0 = NaN /\
    pnl r1 = (of_int (position r0) * (bt_spread r1 - bt_spread r0))%f64 /\
    cumulative_pnl r2 = (cumulative_pnl r1 + pnl r2)%f64.
Proof.
  intros rows.
  destruct lag_scenario as (Hlen & _ & Hg & _). fold rows in Hlen, Hg.
  destruct (nth_error_in_range rows 0) as [r0 H0]; [lia|].
  destruct (nth_error_in_range rows 1) as [r1 H1]; [lia|].
  destruct (nth_error_in_range rows 2) as [r2 H2]; [lia|].
  destruct (backtest_pnl_lagged lag_spread lag_zscore (Num 2)) as (F0 & F1 & _ & F2).
  fold rows in F0, F1, F2.
  exists r0, r1, r2. repeat split; try assumption.
  - now apply F0.
  - now apply (F1 0%nat).
  - apply (F2 1%nat); try assumption.
    + pose proof (map_nth_error pnl 1 rows H1) as E. rewrite Hg in E.
      simpl in E. injection E as E. now rewrite <- E.
    + pose proof (map_nth_error pnl 2 rows H2) as E. rewrite Hg in E.
      simpl in E. injection E as E. now rewrite <- E.
Defined.

(** C1 does not hold as worded.  On the lag scenario the first row's profit
    and cumulative profit are missing values, not 0, and the second row's
    cumulative profit is not the first row's plus its own profit. *)
Lemma backtest_pnl_first_row_not_zero :
  let rows := run_backtest lag_spread lag_zscore (Num 2) in
  exists r0 r1,
    nth_error rows 0 = Some r0 /\ nth_error rows 1 = Some r1 /\
    pnl r0 <> Num 0 /\ cumulative_pnl r0 <> Num 0 /\
    cumulative_pnl r1 <> (cumulative_pnl r0 + pnl r1)%f64.
Proof.
  intros rows.
  destruct lag_scenario as (Hlen & _ & Hg & Hu). fold rows in Hlen, Hg, Hu.
  destruct (nth_error_in_range rows 0) as [r0 H0]; [lia|].
  destruct (nth_error_in_range rows 1) as [r1 H1]; [lia|].
  exists r0, r1.
  pose proof (map_nth_error pnl 0 rows H0) as G0. rewrite Hg in G0.
  pose proof (map_nth_error cumulative_pnl 0 rows H0) as U0. rewrite Hu in U0.
  pose proof (map_nth_error cumulative_pnl 1 rows H1) as U1. rewrite Hu in U1.
  simpl in G0, U0, U1.
  injection G0 as G0. injection U0 as U0. injection U1 as U1.
  rewrite <- G0, <- U0, <- U1.
  repeat split; try assumption; simpl; discriminate.
Qed.

(** ** The spread *)

Lemma filter_all {A : Type} (f : A -> bool) (l : list A) :
  Forall (fun a => f a = true) l -> filter f l = l.
Proof.
  induction 1 as [|a l Ha _ IH]; simpl; [reflexivity|]. now rewrite Ha, IH.
Qed.

Lemma outer_join_nil_r (a : Series) :
  outer_join a [] = map (fun r => mkRow2 (fst r) (snd r) NaN) a.
Proof. destruct a as [|[t v] a]; reflexivity. Qed.

Lemma outer_join_nil_l (b : Series) :
  outer_join [] b = map (fun r => mkRow2 (fst r) NaN (snd r)) b.
Proof. destruct b; reflexivity. Qed.

Lemma dropna_one_side_missing (df : list Row2) :
  Forall (fun r => col0 r = NaN \/ col1 r = NaN) df -> dropna df = [].
Proof.
  induction 1 as [|r df Hr _ IH]; [reflexivity|].
  unfold dropna in *. simpl. rewrite IH.
  destruct Hr as [-> | ->]; simpl; [reflexivity|].
  now rewrite andb_false_r.
Qed.

Lemma dropna_concat_nil_l (b : Series) : dropna (concat_axis1 [] b) = [].
Proof.
  unfold concat_axis1. destruct b as [|r b]; [reflexivity|].
  cbn [index map index_eqb]. rewrite outer_join_nil_l.
  apply dropna_one_side_missing. apply Forall_forall. intros x Hx.
  apply in_map_iff in Hx as (y & <- & _). now left.
Qed.

Lemma dropna_concat_nil_r (a : Series) : dropna (concat_axis1 a []) = [].
Proof.
  unfold concat_axis1. destruct a as [|r a]; [reflexivity|].
  cbn [index map index_eqb]. rewrite outer_join_nil_r.
  apply dropna_one_side_missing. apply Forall_forall. intros x Hx.
  apply in_map_iff in Hx as (y & <- & _). now right.
Qed.

Lemma dropna_aligned (y x : Series) :
  AlignedPair y x -> dropna (concat_axis1 y x) = concat_axis1 y x.
Proof.
  intros (Hidx & Hy & Hx).
  apply filter_all. apply Forall_forall. intros r Hr.
  destruct (concat_axis1_columns y x Hidx) as (_ & A & B).
  assert (H0 : In (col0 r) (values y)) by (rewrite <- A; now apply in_map).
  assert (H1 : In (col1 r) (values x)) by (rewrite <- B; now apply in_map).
  rewrite Forall_forall in Hy, Hx. unfold notna.
  now rewrite (Hy _ H0), (Hx _ H1).
Qed.

(** C8.  On an aligned pair the spread is the elementwise [Y - beta * X] on
    the shared timestamps, and an empty input yields an empty result. *)
Theorem spread_elementwise (y x : Series) (beta : float64) :
  (AlignedPair y x ->
     calculate_spread y x beta = series_op (fun vy vx => (vy - beta * vx)%f64) y x /\
     index (calculate_spread y x beta) = index y /\
     (forall i t vy vx,
        nth_error y i = Some (t, vy) -> nth_error x i = Some (t, vx) ->
        nth_error (calculate_spread y x beta) i = Some (t, (vy - beta * vx)%f64))) /\
  calculate_spread [] x beta = [] /\
  calculate_spread y [] beta = [].
Proof.
  split; [|split].
  - intros HA. pose proof HA as (Hidx & _ & _).
    assert (E : calculate_spread y x beta
                = series_op (fun vy vx => (vy - beta * vx)%f64) y x).
    { unfold calculate_spread. rewrite (dropna_aligned y x HA).
      rewrite (concat_axis1_same_index y x Hidx).
      destruct (combine y x) as [|p l] eqn:Ec.
      - unfold series_op. rewrite Ec. reflexivity.
      - unfold series_op. rewrite Ec. cbn [map empty]. rewrite map_map. reflexivity. }
    split; [exact E|]. split.
    + rewrite E. unfold series_op, index. rewrite map_map. cbn [fst].
      apply (combine_same_index y x Hidx).
    + intros i t vy vx Hy Hx. rewrite E. unfold series_op.
      apply map_nth_error with (f := fun p => (fst (fst p), (snd (fst p) - beta * snd (snd p))%f64))
                               (d := ((t, vy), (t, vx))).
      clear E HA Hidx. revert x i Hy Hx.
      induction y as [|a y IH]; intros [|b x] [|i] Hy Hx; simpl in *; try discriminate.
      * congruence.
      * now apply IH.
  - unfold calculate_spread. now rewrite dropna_concat_nil_l.
  - unfold calculate_spread. now rewrite dropna_concat_nil_r.
Qed.

Lemma map_fst_combine {A B : Type} (a : list A) :
  forall b : list B, length a = length b -> map fst (combine a b) = a.
Proof.
  induction a as [|x a IH]; intros [|y b] H; simpl in *; try discriminate; [reflexivity|].
  now rewrite IH by congruence.
Qed.

Lemma map_snd_combine {A B : Type} (a : list A) :
  forall b : list B, length a = length b -> map snd (combine a b) = b.
Proof.
  induction a as [|x a IH]; intros [|y b] H; simpl in *; try discriminate; [reflexivity|].
  now rewrite IH by congruence.
Qed.

Lemma nth_error_combine {A B : Type} (a : list A) :
  forall (b : list B) i x y,
    nth_error a i = Some x -> nth_error b i = Some y ->
    nth_error (combine a b) i = Some (x, y).
Proof.
  induction a as [|u a IH]; intros [|v b] [|i] x y Ha Hb; simpl in *; try discriminate.
  - congruence.
  - now apply IH.
Qed.

Lemma series_of_index (vs : list R) :
  index (series_of vs) = map Z.of_nat (seq 0 (length vs)).
Proof.
  unfold series_of, index. apply map_fst_combine.
  now rewrite !length_map, length_seq.
Qed.

Lemma series_of_values (vs : list R) : values (series_of vs) = map Num vs.
Proof.
  unfold series_of, values. apply map_snd_combine.
  now rewrite !length_map, length_seq.
Qed.

Lemma series_of_aligned (ys xs : list R) :
  length ys = length xs -> AlignedPair (series_of ys) (series_of xs).
Proof.
  intros Hlen. repeat split.
  - now rewrite !series_of_index, Hlen.
  - rewrite series_of_values. apply Forall_forall. intros v Hv.
    apply in_map_iff in Hv as (r & <- & _). reflexivity.
  - rewrite series_of_values. apply Forall_forall. intros v Hv.
    apply in_map_iff in Hv as (r & <- & _). reflexivity.
Qed.

(** On the pair [Y = 2 X] with hedge ratio 2 the spread is defined on every
    shared timestamp. *)
Lemma spread_elementwise_witness :
  AlignedPair pair_y pair_x /\
  calculate_spread pair_y pair_x (Num 2)
  = series_op (fun vy vx => (vy - Num 2 * vx)%f64) pair_y pair_x /\
  index (calculate_spread pair_y pair_x (Num 2)) = index pair_y.
Proof.
  assert (HA : AlignedPair pair_y pair_x) by (apply series_of_aligned; reflexivity).
  destruct (spread_elementwise pair_y pair_x (Num 2)) as (H & _).
  destruct (H HA) as (E & I & _).
  repeat split; try assumption; apply HA.
Defined.

(** ** Rolling statistics *)

Lemma rolling_nth (w : nat) (agg : list float64 -> float64) (xs : list float64) (i : nat) :
  (i < length xs)%nat ->
  nth_error (rolling w agg xs) i = Some (rolling_at w agg xs i).
Proof.
  intros Hi. unfold rolling. apply map_nth_error.
  rewrite nth_error_seq. apply Nat.ltb_lt in Hi. now rewrite Hi.
Qed.

Lemma rolling_at_incomplete (w : nat) (agg : list float64 -> float64)
  (xs : list float64) (i : nat) :
  (S i < w)%nat -> rolling_at w agg xs i = NaN.
Proof.
  intros H. unfold rolling_at.
  replace (w <=? S i)%nat with false by (symmetry; apply Nat.leb_gt; lia).
  reflexivity.
Qed.

(** The z-score of row [i], as [calculate_zscore] computes it. *)
Lemma zscore_nth (s : Series) (w i : nat) (t : Z) (x : float64) :
  nth_error s i = Some (t, x) ->
  nth_error (calculate_zscore s w) i
  = Some (t, let q := ((x - rolling_at w mean (values s) i)
                       / rolling_at w std (values s) i)%f64 in
             if isna q then Num 0 else q).
Proof.
  intros Hs. unfold calculate_zscore.
  destruct s as [|r0 s0] eqn:Es; [destruct i; discriminate|].
  cbn [empty]. rewrite <- Es in *. clear Es r0 s0.
  assert (Hi : (i < length (values s))%nat).
  { unfold values. rewrite length_map. apply nth_error_Some. congruence. }
  assert (Ht : nth_error (index s) i = Some t)
    by (unfold index; now rewrite (map_nth_error fst i s Hs)).
  assert (Hm : nth_error (rolling_mean w s) i = Some (t, rolling_at w mean (values s) i)).
  { unfold rolling_mean, with_values. apply nth_error_combine; [exact Ht|].
    now apply rolling_nth. }
  assert (Hd : nth_error (rolling_std w s) i = Some (t, rolling_at w std (values s) i)).
  { unfold rolling_std, with_values. apply nth_error_combine; [exact Ht|].
    now apply rolling_nth. }
  pose proof (nth_error_combine _ _ i _ _ Hs Hm) as H1.
  apply (map_nth_error (fun p => (fst (fst p), (snd (fst p) - snd (snd p))%f64))) in H1.
  pose proof (nth_error_combine _ _ i _ _ H1 Hd) as H2.
  apply (map_nth_error (fun p => (fst (fst p), (snd (fst p) / snd (snd p))%f64))) in H2.
  apply (map_nth_error (fun r => (fst r, if isna (snd r) then Num 0 else snd r))) in H2.
  exact H2.
Qed.

Lemma fdiv_nan_r (x : float64) : (x / NaN)%f64 = NaN.
Proof. destruct x; reflexivity. Qed.

(** ** The rolling z-score on binary64 numbers *)

Module RollingZScore.

Import PrimFloat FloatOps FloatAxioms SpecFloat Binary64.

Local Open Scope float_scope.

(** The classes of binary64 numbers, on their specification. *)
Lemma is_nan_spec (x : float) : is_nan x = true <-> Prim2SF x = S754_nan.
Proof.
  unfold is_nan. rewrite eqb_spec. unfold SFeqb.
  destruct (Prim2SF x) as [s | s | | s m e]; cbn.
  - split; discriminate.
  - destruct s; split; discriminate.
  - split; reflexivity.
  - rewrite Z.compare_refl, Pos.compare_cont_refl. destruct s; split; discriminate.
Qed.

Lemma is_zero_spec (x : float) :
  is_zero x = true <-> exists s, Prim2SF x = S754_zero s.
Proof.
  unfold is_zero. rewrite eqb_spec. unfold SFeqb.
  change (Prim2SF zero) with (S754_zero false).
  destruct (Prim2SF x) as [s | s | | s m e]; cbn.
  - split; [intros _; now exists s | reflexivity].
  - destruct s; split; try discriminate; intros (u & H); discriminate.
  - split; [discriminate | intros (u & H); discriminate].
  - destruct s; split; try discriminate; intros (u & H); discriminate.
Qed.

Lemma is_infinity_spec (x : float) :
  is_infinity x = true <-> exists s, Prim2SF x = S754_infinity s.
Proof.
  unfold is_infinity. rewrite eqb_spec, abs_spec. unfold SFeqb.
  change (Prim2SF infinity) with (S754_infinity false).
  destruct (Prim2SF x) as [s | s | | s m e]; cbn.
  - split; [discriminate | intros (u & H); discriminate].
  - split; [intros _; now exists s | reflexivity].
  - split; [discriminate | intros (u & H); discriminate].
  - split; [discriminate | intros (u & H); discriminate].
Qed.

Lemma div_nan_r (x y : float) : is_nan y = true -> is_nan (x / y) = true.
Proof.
  intros H. apply is_nan_spec in H. apply is_nan_spec.
  rewrite div_spec, H. unfold SF64div, SFdiv. now destruct (Prim2SF x).
Qed.

(** Zero over zero is a missing value; any other number over zero is an
    infinity. *)
Lemma div_zero_zero (x y : float) :
  is_zero x = true -> is_zero y = true -> is_nan (x / y) = true.
Proof.
  intros Hx Hy. apply is_zero_spec in Hx as (sx & Hx). apply is_zero_spec in Hy as (sy & Hy).
  apply is_nan_spec. rewrite div_spec, Hx, Hy. reflexivity.
Qed.

Lemma div_by_zero (x y : float) :
  is_zero x = false -> is_nan x = false -> is_zero y = true ->
  is_infinity (x / y) = true.
Proof.
  intros Hx Hn Hy. apply is_zero_spec in Hy as (sy & Hy).
  apply is_infinity_spec. rewrite div_spec, Hy. unfold SF64div, SFdiv.
  destruct (Prim2SF x) as [s | s | | s m e] eqn:E.
  - exfalso. assert (H : is_zero x = true) by (apply is_zero_spec; now exists s).
    congruence.
  - now exists (xorb s sy).
  - exfalso. assert (H : is_nan x = true) by (now apply is_nan_spec). congruence.
  - now exists (xorb s sy).
Qed.

Lemma infinity_not_nan (x : float) : is_infinity x = true -> is_nan x = false.
Proof.
  intros H. apply is_infinity_spec in H as (s & H).
  destruct (is_nan x) eqn:E; [|reflexivity].
  apply is_nan_spec in E. congruence.
Qed.

(** A finite number less itself is zero, and zero over a number is zero or
    a missing value. *)
Lemma sub_diag_zero (x : float) : is_finite x = true -> is_zero (x - x) = true.
Proof.
  unfold is_finite. intros H. apply negb_true_iff, orb_false_iff in H as [Hn Hi].
  apply is_zero_spec. exists false. rewrite sub_spec. unfold SF64sub, SFsub.
  destruct (Prim2SF x) as [s | s | | s m e] eqn:E.
  - now destruct s.
  - exfalso. assert (H : is_infinity x = true) by (apply is_infinity_spec; now exists s).
    congruence.
  - exfalso. assert (H : is_nan x = true) by (now apply is_nan_spec). congruence.
  - now rewrite Z.sub_diag.
Qed.

Lemma div_zero_num (x y : float) :
  is_zero x = true -> is_nan (x / y) = false -> is_zero (x / y) = true.
Proof.
  intros Hx Hq. apply is_zero_spec in Hx as (sx & Hx).
  destruct (Prim2SF (x / y)) as [s | s | | s m e] eqn:E.
  - apply is_zero_spec. now exists s.
  - exfalso. rewrite div_spec, Hx in E. unfold SF64div, SFdiv in E.
    destruct (Prim2SF y); discriminate.
  - exfalso. assert (H : is_nan (x / y) = true) by (now apply is_nan_spec). congruence.
  - exfalso. rewrite div_spec, Hx in E. unfold SF64div, SFdiv in E.
    destruct (Prim2SF y); discriminate.
Qed.

(** The rolling routines of the examples return one value per row, and a
    missing value until the window is full. *)
Lemma rolling_rows (agg : list float -> float) (w : nat) (xs : list float) :
  length (rolling agg w xs) = length xs.
Proof. unfold rolling. now rewrite length_map, length_seq. Qed.

Lemma rolling_min_periods (agg : list float -> float) (w : nat) (xs : list float)
  (i : nat) :
  (S i < w)%nat -> (i < length xs)%nat -> nth_error (rolling agg w xs) i = Some nan.
Proof.
  intros Hw Hi. unfold rolling.
  rewrite (map_nth_error _ i (seq 0 (length xs)) (d := i)).
  - replace (w <=? S i)%nat with false by (symmetry; apply Nat.leb_gt; exact Hw).
    reflexivity.
  - rewrite nth_error_seq. apply Nat.ltb_lt in Hi. now rewrite Hi.
Qed.

Section Rolling.

Variables rolling_mean rolling_std : nat -> list float -> list float.

(** What is used of pandas' rolling routines: they return one value per
    row, and [min_periods], which defaults to the window size, makes the
    deviation a missing value until the window is full. *)
Hypothesis mean_rows : forall w xs, length (rolling_mean w xs) = length xs.
Hypothesis std_rows : forall w xs, length (rolling_std w xs) = length xs.
Hypothesis std_min_periods :
  forall w xs i, (S i < w)%nat -> (i < length xs)%nat ->
                 nth_error (rolling_std w xs) i = Some nan.

Lemma zscore_row (s : Series) (w i : nat) (t : Z) (x : float) :
  nth_error s i = Some (t, x) ->
  exists m sd,
    nth_error (rolling_mean w (values s)) i = Some m /\
    nth_error (rolling_std w (values s)) i = Some sd /\
    nth_error (calculate_zscore rolling_mean rolling_std s w) i
    = Some (t, let q := (x - m) / sd in if is_nan q then 0 else q).
Proof.
  intros Hs. unfold calculate_zscore.
  destruct s as [|r0 s0] eqn:Es; [destruct i; discriminate|].
  cbn [empty]. rewrite <- Es in *. clear Es r0 s0.
  assert (Hi : (i < length (values s))%nat).
  { unfold values. rewrite length_map. apply nth_error_Some. congruence. }
  assert (Ht : nth_error (index s) i = Some t)
    by (unfold index; now rewrite (map_nth_error fst i s Hs)).
  destruct (nth_error (rolling_mean w (values s)) i) as [m|] eqn:Em;
    [|apply nth_error_None in Em; rewrite mean_rows in Em; lia].
  destruct (nth_error (rolling_std w (values s)) i) as [sd|] eqn:Ed;
    [|apply nth_error_None in Ed; rewrite std_rows in Ed; lia].
  exists m, sd. split; [reflexivity|]. split; [reflexivity|].
  pose proof (nth_error_combine _ _ i _ _ Ht Em) as Hm.
  pose proof (nth_error_combine _ _ i _ _ Ht Ed) as Hd.
  pose proof (nth_error_combine _ _ i _ _ Hs Hm) as H1.
  apply (map_nth_error (fun p => (fst (fst p), snd (fst p) - snd (snd p)))) in H1.
  pose proof (nth_error_combine _ _ i _ _ H1 Hd) as H2.
  apply (map_nth_error (fun p => (fst (fst p), snd (fst p) / snd (snd p)))) in H2.
  apply (map_nth_error (fun r => (fst r, if isna (snd r) then zero else snd r))) in H2.
  exact H2.
Qed.

(** C2, as the program has it.  The z-score of row [i] is the quotient of
    the deviation of the value from the rolling mean of the row by the rolling
    standard deviation of the row, a missing quotient being replaced by 0: it
    is never a missing value.  It is 0 on every row whose window is
    incomplete.  When the standard deviation is zero, the z-score is 0 if the
    deviation from the mean is zero too, and an infinity otherwise: only
    missing values are replaced.  On a row whose rolling mean is the finite
    value of the row, as on a constant spread, the z-score is zero whatever
    the standard deviation. *)
Theorem zscore_rolling_window (s : Series) (w i : nat) (t : Z) (x : float) :
  nth_error s i = Some (t, x) ->
  exists m sd z,
    nth_error (rolling_mean w (values s)) i = Some m /\
    nth_error (rolling_std w (values s)) i = Some sd /\
    nth_error (calculate_zscore rolling_mean rolling_std s w) i = Some (t, z) /\
    z = (let q := (x - m) / sd in if is_nan q then 0 else q) /\
    is_nan z = false /\
    ((S i < w)%nat -> z = 0) /\
    (is_zero sd = true -> is_zero (x - m) = true -> z = 0) /\
    (is_zero sd = true -> is_zero (x - m) = false -> is_nan (x - m) = false ->
     is_infinity z = true) /\
    (m = x -> is_finite x = true -> is_zero z = true).
Proof.
  intros Hs. destruct (zscore_row s w i t x Hs) as (m & sd & Hm & Hd & Hz).
  exists m, sd, (let q := (x - m) / sd in if is_nan q then 0 else q).
  split; [exact Hm|]. split; [exact Hd|]. split; [exact Hz|].
  split; [reflexivity|]. cbv zeta.
  assert (Hi : (i < length (values s))%nat).
  { unfold values. rewrite length_map. apply nth_error_Some. congruence. }
  split; [|split; [|split; [|split]]].
  - destruct (is_nan ((x - m) / sd)) eqn:E; [reflexivity | exact E].
  - intros Hw. rewrite (std_min_periods w (values s) i Hw Hi) in Hd.
    injection Hd as <-. now rewrite div_nan_r.
  - intros H0 Hdev. now rewrite (div_zero_zero _ _ Hdev H0).
  - intros H0 Hdev Hn.
    pose proof (div_by_zero _ _ Hdev Hn H0) as Hinf.
    now rewrite (infinity_not_nan _ Hinf).
  - intros -> Hx. destruct (is_nan ((x - x) / sd)) eqn:E; [reflexivity|].
    apply div_zero_num; [now apply sub_diag_zero | exact E].
Qed.

End Rolling.

(** On the spread 1, 2, 3 with the window 2 and the rolling routines of the
    examples: the first z-score, whose window is incomplete, is 0, and the
    third standardises 3 against the window 2, 3.  On the constant spread 5,
    5, 5, 5 the last z-score is 0: the deviation from the mean and the
    standard deviation are both zero. *)
Lemma zscore_rolling_window_witness :
  nth_error (calculate_zscore (rolling mean) (rolling std) ramp_spread 2) 0
  = Some (0%Z, 0) /\
  nth_error (calculate_zscore (rolling mean) (rolling std) ramp_spread 2) 2
  = Some (2%Z, (3 - 2.5) / sqrt 0.5) /\
  nth_error (calculate_zscore (rolling mean) (rolling std) flat_spread 2) 3
  = Some (3%Z, 0).
Proof.
  split; [|split].
  - destruct (zscore_rolling_window (rolling mean) (rolling std)
                (rolling_rows mean) (rolling_rows std) (rolling_min_periods std)
                ramp_spread 2 0 0%Z 1 eq_refl)
      as (m & sd & z & _ & _ & Hz & _ & _ & H0 & _).
    rewrite Hz. now rewrite H0 by lia.
  - destruct (zscore_rolling_window (rolling mean) (rolling std)
                (rolling_rows mean) (rolling_rows std) (rolling_min_periods std)
                ramp_spread 2 2 2%Z 3 eq_refl)
      as (m & sd & z & Hm & Hd & Hz & Ez & _).
    rewrite Hz, Ez. vm_compute in Hm, Hd. injection Hm as <-. injection Hd as <-.
    vm_compute. reflexivity.
  - destruct (zscore_rolling_window (rolling mean) (rolling std)
                (rolling_rows mean) (rolling_rows std) (rolling_min_periods std)
                flat_spread 2 3 3%Z 5 eq_refl)
      as (m & sd & z & Hm & Hd & Hz & _ & _ & _ & H0 & _).
    rewrite Hz. vm_compute in Hm, Hd. injection Hm as <-. injection Hd as <-.
    now rewrite H0.
Defined.

(** The spread 0, 1e-200 with the window 2: the squares of the two
    deviations from the mean 5e-201 underflow to zero, so the standard
    deviation of the second row is zero, and its z-score is an infinity, which
    [fillna(0)] leaves in place. *)
Lemma zscore_infinite_on_zero_std :
  nth_error (rolling std 2 (values tiny_spread)) 1 = Some 0 /\
  nth_error (calculate_zscore (rolling mean) (rolling std) tiny_spread 2) 1
  = Some (1%Z, infinity) /\
  infinity <> 0 /\ is_infinity infinity = true.
Proof.
  split; [vm_compute; reflexivity|]. split; [vm_compute; reflexivity|].
  split; [|reflexivity].
  intros E. apply (f_equal is_zero) in E. vm_compute in E. discriminate.
Qed.

End RollingZScore.

(** ** The stationarity test *)

(** C5, as the program has it.  The tester returns no verdict when fewer than
    20 observations remain after the removal of the missing ([NaN]) values,
    infinite values being kept and counted, and when the test routine raises;
    a result it returns is the routine's statistic and p-value, and it is
    marked stationary exactly when the p-value is below 0.05. *)
Theorem adf_test_gating
  (adfuller : list float64 -> option (float64 * float64)) (spread : Series) :
  let clean := dropna_series spread in
  ((length clean < 20)%nat -> perform_adf_test adfuller spread = None) /\
  (adfuller (values clean) = None -> perform_adf_test adfuller spread = None) /\
  (forall r, perform_adf_test adfuller spread = Some r ->
     (20 <= length clean)%nat /\
     adfuller (values clean) = Some (adf_stat r, p_value r) /\
     is_stationary r = flt (p_value r) (Num (5 / 100)) /\
     (forall v, p_value r = Num v -> (is_stationary r = true <-> (v < 5 / 100)%R))).
Proof.
  intros clean. unfold perform_adf_test. fold clean. split; [|split].
  - intros H. apply Nat.ltb_lt in H. now rewrite H.
  - intros H. rewrite H. now destruct (length clean <? 20)%nat.
  - intros r. destruct (length clean <? 20)%nat eqn:E; [discriminate|].
    apply Nat.ltb_ge in E.
    destruct (adfuller (values clean)) as [[stat p]|]; [|discriminate].
    intros H. injection H as <-. cbn [adf_stat p_value is_stationary fst snd].
    repeat split; try assumption.
    + intros Ht. rewrite H in Ht. cbn [flt] in Ht. now apply R_ltb_lt.
    + intros Hv. rewrite H. cbn [flt]. now apply R_ltb_lt.
Qed.

(** C5 does not hold as worded.  With 19 finite observations and an
    infinite one, 20 observations remain after [dropna], the test routine is
    called, and its answer is returned as a verdict. *)
Lemma adf_test_counts_infinite_values :
  (length (finite_observations inf_tail_spread) < 20)%nat /\
  length (dropna_series inf_tail_spread) = 20%nat /\
  perform_adf_test nan_adfuller inf_tail_spread = Some (mkADF NaN NaN false).
Proof.
  split; [|split].
  - cbv [inf_tail_spread series_of finite_observations length map seq combine app filter
         isfinite snd]. lia.
  - reflexivity.
  - reflexivity.
Qed.

(** With three observations there is no verdict, whatever the routine says. *)
Lemma adf_test_gating_witness :
  perform_adf_test nan_adfuller ramp_spread = None /\
  (forall r, perform_adf_test nan_adfuller inf_tail_spread = Some r ->
     is_stationary r = false).
Proof.
  split.
  - destruct (adf_test_gating nan_adfuller ramp_spread) as (H & _).
    apply H. cbv [ramp_spread series_of dropna_series length map seq combine filter
                  notna isna negb snd]. lia.
  - intros r Hr.
    destruct (adf_test_gating nan_adfuller inf_tail_spread) as (_ & _ & H).
    destruct (H r Hr) as (_ & Ha & Hs & _).
    unfold nan_adfuller in Ha. injection Ha as _ Hp. now rewrite Hs, <- Hp.
Defined.

(** ** Sorted indexes *)

Lemma ssorted_filter {A : Type} (R : A -> A -> Prop) (f : A -> bool) (l : list A) :
  StronglySorted R l -> StronglySorted R (filter f l).
Proof.
  induction 1 as [|a l Hs IH Ha]; simpl; [constructor|].
  destruct (f a); [|exact IH].
  constructor; [exact IH|].
  apply Forall_forall. intros x Hx. apply filter_In in Hx as [Hx _].
  rewrite Forall_forall in Ha. now apply Ha.
Qed.

Lemma ssorted_lt_nodup (l : list Z) : StronglySorted Z.lt l -> NoDup l.
Proof.
  induction 1 as [|a l Hs IH Ha]; constructor; [|exact IH].
  intros Hin. rewrite Forall_forall in Ha. specialize (Ha a Hin). lia.
Qed.

Lemma mem_In (t : Z) (l : list Z) : mem t l = true <-> In t l.
Proof.
  unfold mem. rewrite existsb_exists. split.
  - intros (x & Hx & E). apply Z.eqb_eq in E. now subst.
  - intros H. exists t. split; [exact H | apply Z.eqb_refl].
Qed.

Lemma unique_nodup (l : list Z) : NoDup l -> unique l = l.
Proof.
  induction 1 as [|t l Ht Hn IH]; simpl; [reflexivity|].
  rewrite IH. f_equal. apply filter_all. apply Forall_forall. intros u Hu.
  apply negb_true_iff. apply Z.eqb_neq. intros ->. contradiction.
Qed.

(** On duplicate-free indexes the intersection is the labels of the first
    index that occur in the second, in the order of the first. *)
Lemma intersection_nodup (a b : list Z) :
  NoDup a -> intersection a b = filter (fun t => mem t b) a.
Proof. intros H. unfold intersection. apply unique_nodup. now apply NoDup_filter. Qed.

Lemma intersection_In (a b : list Z) (t : Z) :
  NoDup a -> (In t (intersection a b) <-> In t a /\ In t b).
Proof.
  intros H. rewrite (intersection_nodup a b H), filter_In, mem_In. reflexivity.
Qed.

(** ** Selection of rows by label *)

Lemma filter_none {A : Type} (f : A -> bool) (l : list A) :
  (forall x, In x l -> f x = false) -> filter f l = [].
Proof.
  induction l as [|a l IH]; intros H; simpl; [reflexivity|].
  rewrite (H a) by now left. apply IH. intros x Hx. apply H. now right.
Qed.

Lemma filter_key_unique (df : list Bar) (t : Z) :
  NoDup (map interval_start df) -> In t (map interval_start df) ->
  exists b, filter (fun b => (interval_start b =? t)%Z) df = [b] /\
            In b df /\ interval_start b = t.
Proof.
  induction df as [|b df IH]; intros Hn Hin; [contradiction|].
  cbn [map] in Hn. inversion Hn as [|? ? Hnotin Hn']; subst.
  cbn [filter]. destruct (Z.eqb_spec (interval_start b) t) as [E | E].
  - exists b. repeat split; [|now left | exact E].
    f_equal. apply filter_none.
    intros x Hx. apply Z.eqb_neq. intros Ex. apply Hnotin. rewrite E, <- Ex.
    now apply in_map.
  - destruct Hin as [Hin | Hin]; [contradiction|].
    destruct (IH Hn' Hin) as (b' & F & Hb' & Hk).
    exists b'. repeat split; [exact F | now right | exact Hk].
Qed.

Lemma loc_close_index (df : list Bar) (idx : list Z) :
  NoDup (map interval_start df) ->
  (forall t, In t idx -> In t (map interval_start df)) ->
  index (loc_close df idx) = idx.
Proof.
  intros Hn. induction idx as [|t idx IH]; intros Hsub; [reflexivity|].
  unfold loc_close, index in *. cbn [flat_map]. rewrite map_app.
  destruct (filter_key_unique df t Hn (Hsub t (or_introl eq_refl))) as (b & F & _ & Hk).
  rewrite F. cbn [map fst app]. rewrite Hk. f_equal.
  apply IH. intros u Hu. apply Hsub. now right.
Qed.

(** Every selected row is a row of the frame, with its close price. *)
Lemma loc_close_In (df : list Bar) (idx : list Z) (t : Z) (c : float64) :
  In (t, c) (loc_close df idx) ->
  In t idx /\ exists b, In b df /\ interval_start b = t /\ close b = c.
Proof.
  unfold loc_close. intros H. apply in_flat_map in H as (u & Hu & H).
  apply in_map_iff in H as (b & E & Hb). apply filter_In in Hb as (Hb & Ek).
  apply Z.eqb_eq in Ek. injection E as E1 E2. subst.
  split; [exact Hu|]. exists b. repeat split; assumption.
Qed.

(** ** The order of float64 values *)

Lemma flt_false_fle (a b : float64) :
  isna a = false -> isna b = false -> flt a b = false -> fle b a = true.
Proof.
  destruct a as [x| | |], b as [y| | |]; simpl; intros Ha Hb H; try discriminate;
    try reflexivity.
  unfold R_ltb in H. destruct (Rlt_dec x y); [discriminate|].
  apply R_leb_true. lra.
Qed.

Lemma flt_fle (a b : float64) : flt a b = true -> fle a b = true.
Proof.
  destruct a as [x| | |], b as [y| | |]; simpl; intros H; try discriminate;
    try reflexivity.
  apply R_ltb_lt in H. apply R_leb_true. lra.
Qed.

Lemma fle_refl (a : float64) : isna a = false -> fle a a = true.
Proof.
  destruct a as [x| | |]; simpl; intros H; try discriminate; try reflexivity.
  apply R_leb_true. lra.
Qed.

Lemma fle_trans (a b c : float64) :
  fle a b = true -> fle b c = true -> fle a c = true.
Proof.
  destruct a as [x| | |], b as [y| | |], c as [z| | |]; simpl; intros H1 H2;
    try discriminate; try reflexivity.
  apply R_leb_le in H1. apply R_leb_le in H2. apply R_leb_true. lra.
Qed.

(** The running maximum of defined values is one of them and bounds them. *)
Lemma fold_fmax_spec (ps : list float64) :
  forall p,
    isna p = false -> Forall (fun q => isna q = false) ps ->
    In (fold_left fmax ps p) (p :: ps) /\
    fle p (fold_left fmax ps p) = true /\
    (forall q, In q ps -> fle q (fold_left fmax ps p) = true).
Proof.
  induction ps as [|a ps IH]; intros p Hp Hall.
  - simpl. repeat split; [now left | now apply fle_refl | intros q []].
  - inversion Hall as [|? ? Ha Hall']; subst. cbn [fold_left].
    assert (Hm : isna (fmax p a) = false) by (unfold fmax; now destruct (flt p a)).
    destruct (IH (fmax p a) Hm Hall') as (Hin & Hle & Hq).
    assert (Hpa : fle p (fmax p a) = true /\ fle a (fmax p a) = true).
    { unfold fmax. destruct (flt p a) eqn:E.
      - split; [now apply flt_fle | now apply fle_refl].
      - split; [now apply fle_refl | now apply flt_false_fle]. }
    destruct Hpa as (Hp' & Ha').
    repeat split.
    + destruct Hin as [Hin | Hin]; [|right; now right].
      rewrite <- Hin. unfold fmax. destruct (flt p a); [right; now left | now left].
    + now apply (fle_trans _ _ _ Hp').
    + intros q [<- | Hin']; [now apply (fle_trans _ _ _ Ha') | now apply Hq].
Qed.

Lemma fold_fmin_spec (ps : list float64) :
  forall p,
    isna p = false -> Forall (fun q => isna q = false) ps ->
    In (fold_left fmin ps p) (p :: ps) /\
    fle (fold_left fmin ps p) p = true /\
    (forall q, In q ps -> fle (fold_left fmin ps p) q = true).
Proof.
  induction ps as [|a ps IH]; intros p Hp Hall.
  - simpl. repeat split; [now left | now apply fle_refl | intros q []].
  - inversion Hall as [|? ? Ha Hall']; subst. cbn [fold_left].
    assert (Hm : isna (fmin p a) = false) by (unfold fmin; now destruct (flt a p)).
    destruct (IH (fmin p a) Hm Hall') as (Hin & Hle & Hq).
    assert (Hpa : fle (fmin p a) p = true /\ fle (fmin p a) a = true).
    { unfold fmin. destruct (flt a p) eqn:E.
      - split; [now apply flt_fle | now apply fle_refl].
      - split; [now apply fle_refl | now apply flt_false_fle]. }
    destruct Hpa as (Hp' & Ha').
    repeat split.
    + destruct Hin as [Hin | Hin]; [|right; now right].
      rewrite <- Hin. unfold fmin. destruct (flt a p); [right; now left | now left].
    + now apply (fle_trans _ _ _ Hle).
    + intros q [<- | Hin']; [now apply (fle_trans _ _ _ Hle) | now apply Hq].
Qed.

Lemma fle_antisym (a b : float64) : fle a b = true -> fle b a = true -> a = b.
Proof.
  destruct a as [x| | |], b as [y| | |]; cbn; intros H1 H2; try discriminate;
    try reflexivity.
  apply R_leb_le in H1. apply R_leb_le in H2. f_equal. lra.
Qed.

(** ** Sorting the ticks by time *)

Lemma insert_row_perm (r : Z * float64) (l : list (Z * float64)) :
  Permutation (insert_row r l) (r :: l).
Proof.
  induction l as [|h t IH]; simpl; [reflexivity|].
  destruct (fst r <=? fst h)%Z; [reflexivity|].
  rewrite IH. apply perm_swap.
Qed.

Lemma sort_values_perm (l : list (Z * float64)) : Permutation (sort_values l) l.
Proof.
  induction l as [|r t IH]; simpl; [reflexivity|].
  rewrite insert_row_perm. now constructor.
Qed.

Lemma insert_row_sorted (r : Z * float64) (l : list (Z * float64)) :
  StronglySorted (fun a b => (fst a <= fst b)%Z) l ->
  StronglySorted (fun a b => (fst a <= fst b)%Z) (insert_row r l).
Proof.
  induction 1 as [|h t Hs IH Hh]; simpl; [repeat constructor|].
  destruct (Z.leb_spec (fst r) (fst h)) as [Hle | Hgt].
  - constructor; [now constructor|].
    constructor; [exact Hle|].
    apply Forall_forall. intros x Hx. rewrite Forall_forall in Hh.
    specialize (Hh x Hx). lia.
  - constructor; [exact IH|].
    apply Forall_forall. intros x Hx.
    apply (Permutation_in _ (insert_row_perm r t)) in Hx.
    destruct Hx as [<- | Hx]; [lia|].
    rewrite Forall_forall in Hh. now apply Hh.
Qed.

Lemma sort_values_sorted (l : list (Z * float64)) :
  StronglySorted (fun a b => (fst a <= fst b)%Z) (sort_values l).
Proof.
  induction l as [|r t IH]; simpl; [constructor | now apply insert_row_sorted].
Qed.

Lemma sort_values_In (l : list (Z * float64)) (r : Z * float64) :
  In r (sort_values l) <-> In r l.
Proof.
  split; apply Permutation_in; [|symmetry]; apply sort_values_perm.
Qed.

Lemma sorted_last_bound (l : list (Z * float64)) (d0 : Z * float64) :
  StronglySorted (fun a b => (fst a <= fst b)%Z) l ->
  forall x, In x l -> (fst x <= fst (last l d0))%Z.
Proof.
  induction 1 as [|h t Hs IH Hh]; intros x Hx; [contradiction|].
  destruct t as [|h' t'].
  - destruct Hx as [<- | []]. simpl. lia.
  - change (last (h :: h' :: t') d0) with (last (h' :: t') d0).
    destruct Hx as [<- | Hx]; [|now apply IH].
    rewrite Forall_forall in Hh. apply Hh.
    destruct (exists_last (l := h' :: t')) as (l' & a & E); [discriminate|].
    rewrite E, last_last. apply in_or_app. right. now left.
Qed.

(** ** Intervals *)

Lemma bucket_bounds (d t : Z) :
  (0 < d)%Z -> (bucket d t <= t < bucket d t + d)%Z.
Proof.
  intros Hd. unfold bucket.
  pose proof (Z.mul_div_le t d Hd). pose proof (Z.mul_succ_div_gt t d Hd). lia.
Qed.

Lemma bucket_mono (d t u : Z) :
  (0 < d)%Z -> (t <= u)%Z -> (t / d <= u / d)%Z.
Proof. intros Hd H. now apply Z.div_le_mono. Qed.

(** A timestamp is in the interval that starts at the multiple [d * q] of
    the width exactly when that interval is its bucket. *)
Lemma in_bucket_iff (d q : Z) (r : Z * float64) :
  (0 < d)%Z -> (in_bucket d (d * q) r = true <-> bucket d (fst r) = (d * q)%Z).
Proof.
  intros Hd. unfold in_bucket, bucket.
  rewrite andb_true_iff, Z.leb_le, Z.ltb_lt. split.
  - intros [H1 H2]. f_equal. symmetry. apply (Z.div_unique_pos _ d q (fst r - d * q)); lia.
  - intros H. pose proof (bucket_bounds d (fst r) Hd) as Hb. unfold bucket in Hb. lia.
Qed.

(** ** Resampling *)

Lemma ohlc_start (b : Z) (prices : list float64) : interval_start (ohlc b prices) = b.
Proof. unfold ohlc. destruct (filter notna prices); reflexivity. Qed.


Lemma last_In {A : Type} (l : list A) (d0 : A) : In (last l d0) (d0 :: l).
Proof.
  destruct l as [|a l]; [now left|].
  destruct (exists_last (l := a :: l)) as (l' & x & E); [discriminate|].
  rewrite E, last_last. right. apply in_or_app. right. now left.
Qed.


Lemma dropna_bars_In (bars : list Bar) (bar : Bar) :
  In bar (dropna_bars bars) <->
  In bar bars /\ isna (open bar) = false /\ isna (high bar) = false /\
  isna (low bar) = false /\ isna (close bar) = false.
Proof.
  unfold dropna_bars, notna. rewrite filter_In, !andb_true_iff, !negb_true_iff. tauto.
Qed.

Lemma resample_bar_form (d : Z) (rows : list (Z * float64)) (bar : Bar) :
  In bar (resample_ohlc d rows) ->
  exists q, bar = ohlc (d * q) (map snd (filter (in_bucket d (d * q)) rows)).
Proof.
  unfold resample_ohlc. destruct rows as [|r0 rest]; [intros []|].
  intros H. apply in_map_iff in H as (k & <- & _).
  exists (fst r0 / d + Z.of_nat k)%Z. unfold bucket.
  replace (d * (fst r0 / d) + Z.of_nat k * d)%Z with (d * (fst r0 / d + Z.of_nat k))%Z by lia.
  reflexivity.
Qed.

Lemma resample_bar_exists (d : Z) (rows : list (Z * float64)) (r : Z * float64) :
  (0 < d)%Z -> StronglySorted (fun a b => (fst a <= fst b)%Z) rows -> In r rows ->
  let b := bucket d (fst r) in
  In (ohlc b (map snd (filter (in_bucket d b) rows))) (resample_ohlc d rows).
Proof.
  intros Hd Hs Hr b. unfold resample_ohlc.
  destruct rows as [|r0 rest] eqn:E; [contradiction|]. rewrite <- E in *.
  assert (H0 : (fst r0 <= fst r)%Z).
  { rewrite E in Hs, Hr. apply StronglySorted_inv in Hs as [_ Hall].
    destruct Hr as [<- | Hr]; [lia|]. rewrite Forall_forall in Hall. now apply Hall. }
  pose proof (sorted_last_bound rows r0 Hs r Hr) as Hl.
  pose proof (bucket_mono d _ _ Hd H0) as Q0.
  pose proof (bucket_mono d _ _ Hd Hl) as Ql.
  set (q0 := (fst r0 / d)%Z) in *. set (q := (fst r / d)%Z) in *.
  set (ql := (fst (last rows r0) / d)%Z) in *.
  apply in_map_iff. exists (Z.to_nat (q - q0)). split.
  - unfold b, bucket. fold q0 q.
    replace (d * q0 + Z.of_nat (Z.to_nat (q - q0)) * d)%Z with (d * q)%Z
      by (rewrite Z2Nat.id by lia; lia).
    reflexivity.
  - apply in_seq. split; [lia|]. unfold bucket. fold q0 ql.
    replace (d * ql - d * q0)%Z with ((ql - q0) * d)%Z by lia.
    rewrite Z.div_mul by lia. lia.
Qed.

Lemma sorted_map_lt (f : Bar -> Z) (l : list Bar) :
  StronglySorted (fun a b => (f a < f b)%Z) l -> StronglySorted Z.lt (map f l).
Proof.
  induction 1 as [|a l Hs IH Ha]; simpl; constructor; [exact IH|].
  apply Forall_forall. intros x Hx. apply in_map_iff in Hx as (y & <- & Hy).
  rewrite Forall_forall in Ha. now apply Ha.
Qed.

Lemma resample_sorted (d : Z) (rows : list (Z * float64)) :
  (0 < d)%Z ->
  StronglySorted (fun a b => (interval_start a < interval_start b)%Z) (resample_ohlc d rows).
Proof.
  intros Hd. unfold resample_ohlc. destruct rows as [|r0 rest]; [constructor|].
  generalize (Z.to_nat ((bucket d (fst (last (r0 :: rest) r0)) - bucket d (fst r0)) / d + 1)).
  generalize (bucket d (fst r0)). intros first n. generalize 0%nat.
  induction n as [|n IH]; intros s; simpl; constructor; [apply IH|].
  apply Forall_forall. intros x Hx. apply in_map_iff in Hx as (k & <- & Hk).
  apply in_seq in Hk. rewrite !ohlc_start. nia.
Qed.

Lemma width_pos (tf : Timeframe) : (0 < width tf)%Z.
Proof. destruct tf; reflexivity. Qed.

(** [pd.to_datetime] returns the instants it is given, or raises. *)
Lemma to_datetime_some (ts ts' : list Z) : to_datetime ts = Some ts' -> ts' = ts.
Proof.
  unfold to_datetime. destruct ts as [|t0 ts0]; [congruence|].
  destruct (forallb _ _); congruence.
Qed.

Lemma combine_columns {A B : Type} (l : list (A * B)) :
  combine (map fst l) (map snd l) = l.
Proof. induction l as [|[a b] l IH]; [reflexivity|]. cbn. now rewrite IH. Qed.

(** [load_data] returns no bar, or the frame of lines 32 to 42: the latter
    when there are ticks, their timestamps are converted and pandas refuses
    nothing. *)
Lemma load_data_cases (raises : Timeframe -> list (Z * float64) -> bool)
  (df : list (Z * float64)) (tf : Timeframe) :
  (load_data raises (Some df) tf = [] /\
   (df = [] \/ to_datetime (map fst df) = None \/ raises tf (sort_values df) = true)) \/
  (load_data raises (Some df) tf = ohlc_frame df tf /\
   df <> [] /\ to_datetime (map fst df) = Some (map fst df) /\
   raises tf (sort_values df) = false).
Proof.
  unfold load_data. destruct df as [|r0 df0] eqn:E; [left; split; [reflexivity | now left]|].
  assert (Hne : df <> []) by (rewrite E; discriminate).
  cbn [empty]. rewrite <- E. clear E r0 df0.
  destruct (to_datetime (map fst df)) as [ts|] eqn:Et;
    [|left; split; [reflexivity | right; now left]].
  apply to_datetime_some in Et as Ets. subst ts. cbv zeta. rewrite combine_columns.
  destruct (raises tf (sort_values df)) eqn:Er.
  - left. split; [reflexivity | right; now right].
  - right. repeat split; try reflexivity; assumption.
Qed.

(** A bar that [load_data] returns is a bar of the frame of lines 32 to 42. *)
Lemma load_data_frame (raises : Timeframe -> list (Z * float64) -> bool)
  (df : list (Z * float64)) (tf : Timeframe) (bar : Bar) :
  In bar (load_data raises (Some df) tf) -> In bar (ohlc_frame df tf).
Proof.
  intros Hin. destruct (load_data_cases raises df tf) as [(E & _) | (E & _)];
    rewrite E in Hin; [contradiction | exact Hin].
Qed.

Lemma ohlc_frame_sorted (df : list (Z * float64)) (tf : Timeframe) :
  BarSeries (ohlc_frame df tf).
Proof.
  unfold BarSeries, ohlc_frame. cbv zeta.
  apply sorted_map_lt. unfold dropna_bars. apply ssorted_filter.
  apply resample_sorted. apply width_pos.
Qed.

(** The bars of [load_data] have strictly increasing interval starts. *)
Lemma load_data_bar_series (raises : Timeframe -> list (Z * float64) -> bool)
  (query : option (list (Z * float64))) (tf : Timeframe) :
  BarSeries (load_data raises query tf).
Proof.
  destruct query as [df|]; [|constructor].
  destruct (load_data_cases raises df tf) as [(E & _) | (E & _)]; rewrite E;
    [constructor | apply ohlc_frame_sorted].
Qed.




(** Four ticks, out of order, in the first and the third minute: two bars,
    none for the empty minute between them. *)
Lemma gap_scenario :
  load_data never_raises (Some gap_ticks) tf_1Min =
  [ mkBar 0 (Num 5) (Num 9) (Num 4) (Num 4);
    mkBar 120000000 (Num 7) (Num 7) (Num 7) (Num 7) ].
Proof. cbv -[IZR Rlt_dec Rle_dec Req_dec_T]. r_cases. reflexivity. Qed.



(** ** The aligned pair *)

(** C6.  For two bar series, the two aligned series carry the same
    timestamps: exactly those present in both inputs, each with the close of
    its bar in the input it comes from, as many as the intersection of the two
    timestamp sets has elements, in ascending order. *)
Theorem aligned_pair_intersection (df_y df_x : list Bar) :
  BarSeries df_y -> BarSeries df_x ->
  let sy := series_y df_y df_x in
  let sx := series_x df_y df_x in
  index sy = index sx /\
  (forall t, In t (index sy) <->
             In t (map interval_start df_y) /\ In t (map interval_start df_x)) /\
  (forall t c, In (t, c) sy ->
     exists b, In b df_y /\ interval_start b = t /\ close b = c) /\
  (forall t c, In (t, c) sx ->
     exists b, In b df_x /\ interval_start b = t /\ close b = c) /\
  (forall l, NoDup l ->
     (forall t, In t l <->
                In t (map interval_start df_y) /\ In t (map interval_start df_x)) ->
     length sy = length l /\ length sx = length l) /\
  StronglySorted Z.lt (index sy) /\
  (forall w p, aligned_pair df_y df_x w = Some p ->
     p = (sy, sx) /\ (w < length sy)%nat).
Proof.
  intros Hy Hx sy sx. unfold BarSeries in Hy, Hx.
  pose proof (ssorted_lt_nodup _ Hy) as Ny.
  pose proof (ssorted_lt_nodup _ Hx) as Nx.
  set (idx := common_idx df_y df_x).
  assert (Hidx : forall t, In t idx <->
            In t (map interval_start df_y) /\ In t (map interval_start df_x))
    by (intros t; apply intersection_In; exact Ny).
  assert (Iy : index sy = idx)
    by (apply loc_close_index; [exact Ny | intros t Ht; now apply Hidx]).
  assert (Ix : index sx = idx)
    by (apply loc_close_index; [exact Nx | intros t Ht; now apply Hidx]).
  assert (Sidx : StronglySorted Z.lt idx).
  { unfold idx, common_idx. rewrite (intersection_nodup _ _ Ny). now apply ssorted_filter. }
  assert (Ly : length sy = length idx)
    by (rewrite <- Iy; unfold index; now rewrite length_map).
  assert (Lx : length sx = length idx)
    by (rewrite <- Ix; unfold index; now rewrite length_map).
  split; [congruence|]. split; [now rewrite Iy|].
  split; [intros t c H; now apply (loc_close_In df_y idx t c)|].
  split; [intros t c H; now apply (loc_close_In df_x idx t c)|].
  split; [|split].
  - intros l Hl Hmem.
    assert (P : Permutation idx l).
    { apply NoDup_Permutation; [now apply ssorted_lt_nodup | exact Hl |].
      intros t. rewrite Hidx, Hmem. reflexivity. }
    apply Permutation_length in P. split; congruence.
  - now rewrite Iy.
  - intros w p. unfold aligned_pair.
    destruct (negb (empty df_y) && negb (empty df_x)); [|discriminate].
    fold idx. destruct (w <? length idx)%nat eqn:E; [|discriminate].
    intros H. injection H as <-. apply Nat.ltb_lt in E. split; [reflexivity | lia].
Qed.

(** On two series of one-minute bars that share the second and the third
    minute, the aligned pair has these two timestamps, with the closes of each
    input; and bars that [load_data] returns can be aligned as they are. *)
Lemma aligned_pair_intersection_witness :
  BarSeries bars_y /\ BarSeries bars_x /\
  series_y bars_y bars_x = [(60000000%Z, Num 3); (120000000%Z, Num 4)] /\
  series_x bars_y bars_x = [(60000000%Z, Num 8); (120000000%Z, Num 9)] /\
  index (series_y bars_y bars_x) = index (series_x bars_y bars_x) /\
  StronglySorted Z.lt (index (series_y bars_y bars_x)) /\
  index (series_y (load_data never_raises (Some gap_ticks) tf_1Min) bars_x)
  = index (series_x (load_data never_raises (Some gap_ticks) tf_1Min) bars_x).
Proof.
  assert (Hy : BarSeries bars_y).
  { unfold BarSeries. cbn. repeat constructor; lia. }
  assert (Hx : BarSeries bars_x).
  { unfold BarSeries. cbn. repeat constructor; lia. }
  destruct (aligned_pair_intersection bars_y bars_x Hy Hx) as (A & _ & _ & _ & _ & S & _).
  destruct (aligned_pair_intersection (load_data never_raises (Some gap_ticks) tf_1Min) bars_x
              (load_data_bar_series never_raises (Some gap_ticks) tf_1Min) Hx) as (B & _).
  repeat split; try assumption; reflexivity.
Defined.

(** ** The join of two series on their timestamps *)

Lemma outer_join_cons (ta : Z) (va : float64) (a : Series) (tb : Z) (vb : float64)
  (b : Series) :
  outer_join ((ta, va) :: a) ((tb, vb) :: b)
  = if (ta <? tb)%Z then mkRow2 ta va NaN :: outer_join a ((tb, vb) :: b)
    else if (tb <? ta)%Z then mkRow2 tb NaN vb :: outer_join ((ta, va) :: a) b
    else mkRow2 ta va vb :: outer_join a b.
Proof. reflexivity. Qed.

(** On one index the join puts the columns side by side. *)
Lemma outer_join_same_index (a : Series) :
  forall b, index a = index b ->
    outer_join a b
    = map (fun p => mkRow2 (fst (fst p)) (snd (fst p)) (snd (snd p))) (combine a b).
Proof.
  induction a as [|[ta va] a IH]; intros [|[tb vb] b] H; try discriminate;
    [reflexivity|].
  unfold index in H. cbn [map fst] in H. injection H as <- H.
  rewrite outer_join_cons, Z.ltb_irrefl. cbn [combine map fst snd].
  now rewrite (IH b H).
Qed.

Lemma concat_axis1_join (a b : Series) : concat_axis1 a b = outer_join a b.
Proof.
  unfold concat_axis1. destruct (index_eqb (index a) (index b)) eqn:E; [|reflexivity].
  apply index_eqb_eq in E. symmetry. now apply outer_join_same_index.
Qed.

(** A row of the join without a missing value comes from a row of each
    series. *)
Lemma outer_join_complete (a : Series) :
  forall b r, In r (outer_join a b) ->
    isna (col0 r) = false -> isna (col1 r) = false ->
    In (label r, col0 r) a /\ In (label r, col1 r) b.
Proof.
  induction a as [|[ta va] a IHa]; intros b r Hin H0 H1.
  - rewrite outer_join_nil_l in Hin. apply in_map_iff in Hin as (p & <- & _).
    discriminate.
  - induction b as [|[tb vb] b IHb].
    + rewrite outer_join_nil_r in Hin. apply in_map_iff in Hin as (p & <- & _).
      discriminate.
    + rewrite outer_join_cons in Hin.
      destruct (Z.ltb_spec ta tb) as [L1 | L1];
        [|destruct (Z.ltb_spec tb ta) as [L2 | L2]].
      * destruct Hin as [<- | Hin]; [discriminate|].
        destruct (IHa _ r Hin H0 H1) as (A & B). split; [now right | exact B].
      * destruct Hin as [<- | Hin]; [discriminate|].
        destruct (IHb Hin) as (A & B). split; [exact A | now right].
      * assert (tb = ta) by lia. subst tb.
        destruct Hin as [<- | Hin]; [split; now left|].
        destruct (IHa _ r Hin H0 H1) as (A & B). split; now right.
Qed.

Lemma sorted_head_lt (t : Z) (l : list Z) (u : Z) :
  StronglySorted Z.lt (t :: l) -> In u l -> (t < u)%Z.
Proof.
  intros H Hu. apply StronglySorted_inv in H as (_ & H).
  rewrite Forall_forall in H. now apply H.
Qed.

Lemma sorted_tail (t : Z) (l : list Z) :
  StronglySorted Z.lt (t :: l) -> StronglySorted Z.lt l.
Proof. intros H. now apply StronglySorted_inv in H. Qed.

(** Two rows under one timestamp, one of each series, meet in a row of the
    join. *)
Lemma outer_join_matched (a : Series) :
  forall b t va vb,
    StronglySorted Z.lt (index a) -> StronglySorted Z.lt (index b) ->
    In (t, va) a -> In (t, vb) b -> In (mkRow2 t va vb) (outer_join a b).
Proof.
  induction a as [|[ta va0] a IHa]; intros b t va vb Sa Sb Ha Hb; [contradiction|].
  induction b as [|[tb vb0] b IHb]; [contradiction|].
  unfold index in Sa, Sb. cbn [map fst] in Sa, Sb.
  assert (Ia : forall v, In (t, v) a -> (ta < t)%Z).
  { intros v Hv. apply (sorted_head_lt ta (map fst a) t Sa).
    now apply (in_map fst a (t, v)). }
  assert (Ib : forall v, In (t, v) b -> (tb < t)%Z).
  { intros v Hv. apply (sorted_head_lt tb (map fst b) t Sb).
    now apply (in_map fst b (t, v)). }
  rewrite outer_join_cons.
  destruct (Z.ltb_spec ta tb) as [H1 | H1]; [|destruct (Z.ltb_spec tb ta) as [H2 | H2]].
  - right. apply IHa; try assumption; [now apply sorted_tail in Sa|].
    destruct Ha as [E | Ha]; [|exact Ha]. injection E as -> _.
    destruct Hb as [E | Hb]; [injection E as -> _; lia|].
    specialize (Ib _ Hb). lia.
  - right. apply IHb; [now apply sorted_tail in Sb|].
    destruct Hb as [E | Hb]; [|exact Hb]. injection E as -> _.
    destruct Ha as [E | Ha]; [injection E as -> _; lia|].
    specialize (Ia _ Ha). lia.
  - assert (tb = ta) by lia. subst tb.
    destruct Ha as [E | Ha]; destruct Hb as [E' | Hb].
    + injection E as -> ->. injection E' as ->. now left.
    + injection E as -> _. specialize (Ib _ Hb). lia.
    + injection E' as -> _. specialize (Ia _ Ha). lia.
    + right. apply IHa; try assumption;
        [now apply sorted_tail in Sa | now apply sorted_tail in Sb].
Qed.

(** The labels of the join come from the two indexes, in ascending order. *)
Lemma outer_join_labels (a : Series) :
  forall b r, In r (outer_join a b) -> In (label r) (index a) \/ In (label r) (index b).
Proof.
  induction a as [|[ta va] a IHa]; intros b r Hin.
  - rewrite outer_join_nil_l in Hin. apply in_map_iff in Hin as (p & <- & Hp).
    right. now apply (in_map fst).
  - induction b as [|[tb vb] b IHb].
    + rewrite outer_join_nil_r in Hin. apply in_map_iff in Hin as (p & <- & Hp).
      left. now apply (in_map fst).
    + rewrite outer_join_cons in Hin.
      destruct (ta <? tb)%Z; [|destruct (tb <? ta)%Z].
      * destruct Hin as [<- | Hin]; [left; now left|].
        destruct (IHa _ r Hin) as [A | B]; [left; now right | now right].
      * destruct Hin as [<- | Hin]; [right; now left|].
        destruct (IHb Hin) as [A | B]; [now left | right; now right].
      * destruct Hin as [<- | Hin]; [left; now left|].
        destruct (IHa _ r Hin) as [A | B]; [left; now right | right; now right].
Qed.

Lemma outer_join_sorted (a : Series) :
  forall b,
    StronglySorted Z.lt (index a) -> StronglySorted Z.lt (index b) ->
    StronglySorted Z.lt (map label (outer_join a b)).
Proof.
  induction a as [|[ta va] a IHa]; intros b Sa Sb.
  - rewrite outer_join_nil_l, map_map. exact Sb.
  - induction b as [|[tb vb] b IHb].
    + rewrite outer_join_nil_r, map_map. exact Sa.
    + unfold index in Sa, Sb. cbn [map fst] in Sa, Sb.
      pose proof (sorted_tail _ _ Sa) as Sa'. pose proof (sorted_tail _ _ Sb) as Sb'.
      rewrite outer_join_cons.
      destruct (Z.ltb_spec ta tb) as [H1 | H1];
        [|destruct (Z.ltb_spec tb ta) as [H2 | H2]];
        cbn [map label]; constructor.
      * now apply IHa.
      * apply Forall_forall. intros u Hu. apply in_map_iff in Hu as (r & <- & Hr).
        destruct (outer_join_labels a _ r Hr) as [A | [<- | B]].
        -- now apply (sorted_head_lt ta (map fst a)).
        -- exact H1.
        -- pose proof (sorted_head_lt tb (map fst b) _ Sb B). lia.
      * now apply IHb.
      * apply Forall_forall. intros u Hu. apply in_map_iff in Hu as (r & <- & Hr).
        destruct (outer_join_labels ((ta, va) :: a) b r Hr) as [[<- | A] | B].
        -- exact H2.
        -- pose proof (sorted_head_lt ta (map fst a) _ Sa A). lia.
        -- now apply (sorted_head_lt tb (map fst b)).
      * now apply IHa.
      * apply Forall_forall. intros u Hu. apply in_map_iff in Hu as (r & <- & Hr).
        destruct (outer_join_labels a b r Hr) as [A | B].
        -- now apply (sorted_head_lt ta (map fst a)).
        -- pose proof (sorted_head_lt tb (map fst b) _ Sb B). lia.
Qed.

(** The rows the three pair functions work on: the timestamps at which both
    series carry a value. *)
Lemma aligned_rows (a b : Series) :
  StronglySorted Z.lt (index a) -> StronglySorted Z.lt (index b) ->
  let df := dropna (concat_axis1 a b) in
  (forall r, In r df <->
             In (label r, col0 r) a /\ In (label r, col1 r) b /\
             isna (col0 r) = false /\ isna (col1 r) = false) /\
  StronglySorted Z.lt (map label df).
Proof.
  intros Sa Sb df. unfold df. rewrite concat_axis1_join. split.
  - intros r. unfold dropna. rewrite filter_In, andb_true_iff. unfold notna.
    rewrite !negb_true_iff. split.
    + intros (Hin & H0 & H1).
      destruct (outer_join_complete a b r Hin H0 H1) as (A & B). tauto.
    + intros (A & B & H0 & H1). split; [|tauto].
      destruct r as [t va vb]. now apply outer_join_matched.
  - unfold dropna.
    pose proof (outer_join_sorted a b Sa Sb) as S.
    induction (outer_join a b) as [|r l IH]; [constructor|].
    cbn [map] in S. apply StronglySorted_inv in S as (S & F).
    cbn [filter]. destruct (notna (col0 r) && notna (col1 r)); [|now apply IH].
    cbn [map]. constructor; [now apply IH|].
    apply Forall_forall. intros u Hu. apply in_map_iff in Hu as (q & <- & Hq).
    apply filter_In in Hq as (Hq & _).
    rewrite Forall_forall in F. apply F. now apply in_map.
Qed.

(** ** The paired observations of two series *)







(** ** The hedge ratio *)





Lemma hedge_ratio_few
  (OLS_fit_params : list float64 -> Design -> option (list float64)) (sy sx : Series) :
  (length (dropna (concat_axis1 sy sx)) < 5)%nat ->
  calculate_ols_hedge_ratio OLS_fit_params sy sx = Num 0.
Proof.
  intros H. unfold calculate_ols_hedge_ratio.
  apply Nat.ltb_lt in H. rewrite H. now rewrite orb_true_r.
Qed.







(* ================================================================== *)
(** * Part III: further properties of the program *)
(* ================================================================== *)

(** ** The z-score, row by row *)

Lemma rolling_length (w : nat) (agg : list float64 -> float64) (xs : list float64) :
  length (rolling w agg xs) = length xs.
Proof. unfold rolling. now rewrite length_map, length_seq. Qed.

Lemma zscore_length (s : Series) (w : nat) : length (calculate_zscore s w) = length s.
Proof.
  unfold calculate_zscore. destruct s as [|r0 s0] eqn:E; [reflexivity|].
  cbn [empty]. rewrite <- E. clear E r0 s0.
  unfold fillna, series_op, rolling_mean, rolling_std, with_values.
  rewrite !length_map, !length_combine, !length_map, !length_combine.
  unfold index, values. rewrite !rolling_length, !length_map. lia.
Qed.

Lemma zscore_index (s : Series) (w : nat) : index (calculate_zscore s w) = index s.
Proof.
  unfold index. apply nth_error_ext. intros i.
  destruct (nth_error s i) as [[t x]|] eqn:E.
  - rewrite (map_nth_error fst i s E).
    now rewrite (map_nth_error fst i _ (zscore_nth s w i t x E)).
  - apply nth_error_None in E.
    replace (nth_error (map fst s) i) with (@None Z)
      by (symmetry; apply nth_error_None; now rewrite length_map).
    apply nth_error_None. now rewrite length_map, zscore_length.
Qed.

(** ** The backtest on the z-scores of its own spread *)

(** A z-score that opens no position from flat. *)
Lemma step_idle (T z : float64) :
  fgt z T = false -> flt z (- T)%f64 = false -> step T 0%Z z = 0%Z.
Proof. intros H1 H2. unfold step. cbn. now rewrite H1, H2. Qed.

Lemma positions_from_idle (T : float64) (zs : list float64) (n : nat) :
  (forall i z, (i < n)%nat -> nth_error zs i = Some z ->
               fgt z T = false /\ flt z (- T)%f64 = false) ->
  forall i p, (i < n)%nat -> nth_error (positions_from T 0%Z zs) i = Some p -> p = 0%Z.
Proof.
  revert n. induction zs as [|z zs IH]; intros n Hq i p Hi Hp.
  - destruct i; discriminate.
  - cbn [positions_from] in Hp.
    destruct (Hq 0%nat z) as [H1 H2]; [lia | reflexivity |].
    rewrite (step_idle T z H1 H2) in Hp.
    destruct i as [|i]; simpl in Hp; [congruence|].
    apply (IH (Nat.pred n)) with (i := i); [|lia|exact Hp].
    intros j zj Hj Hzj. apply (Hq (S j) zj); [lia | exact Hzj].
Qed.

Lemma zero_idle (T : float64) :
  flt T (Num 0) = false ->
  fgt (Num 0) T = false /\ flt (Num 0) (- T)%f64 = false.
Proof.
  intros H. split; [exact H|].
  destruct T as [t| | |]; cbn in *; try reflexivity; try discriminate.
  unfold R_ltb in *. destruct (Rlt_dec t 0); [discriminate|].
  destruct (Rlt_dec 0 (- t)); [lra | reflexivity].
Qed.

Lemma backtest_zscore_columns (spread : Series) (w : nat) (T : float64) :
  let rows := run_backtest spread (calculate_zscore spread w) T in
  map bt_z rows = values (calculate_zscore spread w) /\
  map position rows = positions_from T 0%Z (values (calculate_zscore spread w)) /\
  length rows = length spread.
Proof.
  intros rows.
  destruct (run_backtest_columns spread (calculate_zscore spread w) T)
    as (_ & _ & Hz & Hp & _).
  fold rows in Hz, Hp.
  assert (Hidx : index spread = index (calculate_zscore spread w))
    by (symmetry; apply zscore_index).
  destruct (concat_axis1_columns _ _ Hidx) as (_ & _ & Hc).
  assert (Hzv : map bt_z rows = values (calculate_zscore spread w)) by congruence.
  split; [exact Hzv|]. split; [congruence|].
  apply (f_equal (@length float64)) in Hzv. unfold values in Hzv.
  rewrite !length_map, zscore_length in Hzv. exact Hzv.
Qed.

Lemma fmul_zero_position (d : float64) :
  (of_int 0 * d)%f64 = NaN \/ (of_int 0 * d)%f64 = Num 0.
Proof.
  unfold of_int. destruct d as [b| | |]; cbn; [right | left | left | left].
  - f_equal. lra.
  - unfold inf_times. now rewrite !R_ltb_false by lra.
  - unfold inf_times. now rewrite !R_ltb_false by lra.
  - reflexivity.
Qed.

(** X2.  On the z-scores of its own spread, with a threshold that is not
    negative, the backtest is flat on every row whose rolling window is
    incomplete: the rows before row [w - 1] carry the z-score 0 and the
    position 0, and no profit or loss is booked up to row [w - 1]. *)
Theorem backtest_flat_during_warmup (spread : Series) (w : nat) (T : float64) :
  flt T (Num 0) = false ->
  let rows := run_backtest spread (calculate_zscore spread w) T in
  (forall i r, (S i < w)%nat -> nth_error rows i = Some r ->
     bt_z r = Num 0 /\ position r = 0%Z) /\
  (forall i r, (i < w)%nat -> nth_error rows i = Some r ->
     pnl r = NaN \/ pnl r = Num 0).
Proof.
  intros HT rows.
  destruct (backtest_zscore_columns spread w T) as (Hz & Hp & Hlen).
  fold rows in Hz, Hp, Hlen.
  assert (Hwarm : forall i z, (S i < w)%nat ->
            nth_error (values (calculate_zscore spread w)) i = Some z -> z = Num 0).
  { intros i z Hi Hzi.
    assert (Hil : (i < length spread)%nat).
    { rewrite <- (zscore_length spread w).
      unfold values in Hzi. apply nth_error_Some.
      intros E. now rewrite (nth_error_map snd i _), E in Hzi. }
    destruct (nth_error spread i) as [[t x]|] eqn:Es;
      [|apply nth_error_None in Es; lia].
    pose proof (zscore_nth spread w i t x Es) as Hn.
    rewrite !rolling_at_incomplete in Hn by exact Hi. cbv zeta in Hn.
    rewrite fdiv_nan_r in Hn. cbn [isna] in Hn.
    unfold values in Hzi. rewrite (map_nth_error snd i _ Hn) in Hzi.
    cbn [snd] in Hzi. congruence. }
  assert (Hflat : forall i r, (S i < w)%nat -> nth_error rows i = Some r ->
            bt_z r = Num 0 /\ position r = 0%Z).
  { intros i r Hi Hr. split.
    - apply (Hwarm i); [exact Hi|].
      rewrite <- Hz. now apply map_nth_error.
    - apply (positions_from_idle T (values (calculate_zscore spread w)) (Nat.pred w))
        with (i := i); [|lia|].
      + intros j z Hj Hzj. rewrite (Hwarm j z) by (assumption || lia).
        now apply zero_idle.
      + rewrite <- Hp. now apply map_nth_error. }
  split; [exact Hflat|].
  intros i r Hi Hr. destruct i as [|i].
  - left. now apply (backtest_first_row spread (calculate_zscore spread w) T).
  - assert (Hprev : exists q, nth_error rows i = Some q).
    { destruct (nth_error rows i) as [q|] eqn:E; [now exists q|].
      apply nth_error_None in E.
      assert (S i < length rows)%nat by (apply nth_error_Some; congruence). lia. }
    destruct Hprev as (q & Hq).
    destruct (backtest_pnl_step spread (calculate_zscore spread w) T i q r Hq Hr)
      as (_ & Hpnl).
    destruct (Hflat i q) as (_ & Hq0); [lia | exact Hq |].
    rewrite Hpnl, Hq0. apply fmul_zero_position.
Qed.

Lemma backtest_flat_during_warmup_witness :
  flt (Num 2) (Num 0) = false /\
  (forall r, nth_error (run_backtest lag_spread (calculate_zscore lag_spread 4) (Num 2)) 2
             = Some r -> bt_z r = Num 0 /\ position r = 0%Z).
Proof.
  assert (H : flt (Num 2) (Num 0) = false).
  { cbn. unfold R_ltb. destruct (Rlt_dec 2 0); [lra | reflexivity]. }
  split; [exact H|].
  intros r Hr.
  exact (proj1 (backtest_flat_during_warmup lag_spread 4 (Num 2) H) 2%nat r
               (le_n 4) Hr).
Defined.

(** ** The backtest reads no later row *)

Lemma positions_from_firstn (T : float64) (n : nat) :
  forall zs cur,
    positions_from T cur (firstn n zs) = firstn n (positions_from T cur zs).
Proof.
  induction n as [|n IH]; intros [|z zs] cur; try reflexivity.
  cbn [firstn positions_from]. now rewrite IH.
Qed.

Lemma diff_from_firstn (n : nat) :
  forall xs prev, diff_from prev (firstn n xs) = firstn n (diff_from prev xs).
Proof.
  induction n as [|n IH]; intros [|x xs] prev; try reflexivity.
  cbn [firstn diff_from]. now rewrite IH.
Qed.

Lemma diff_firstn (n : nat) (xs : list float64) :
  diff (firstn n xs) = firstn n (diff xs).
Proof.
  destruct n as [|n]; destruct xs as [|x xs]; try reflexivity.
  cbn [firstn diff]. now rewrite diff_from_firstn.
Qed.

Lemma removelast_firstn_S {A : Type} (l : list A) :
  forall n, removelast (firstn (S n) l) = firstn n (removelast l).
Proof.
  induction l as [|x l IH]; intros n; [now rewrite !firstn_nil|].
  destruct l as [|y l].
  - cbn [firstn removelast]. now rewrite !firstn_nil.
  - destruct n as [|n]; [reflexivity|].
    change (firstn (S (S n)) (x :: y :: l)) with (x :: firstn (S n) (y :: l)).
    change (removelast (x :: y :: l)) with (x :: removelast (y :: l)).
    cbn [firstn] in *. rewrite <- IH. reflexivity.
Qed.

Lemma shift1_firstn (n : nat) (xs : list float64) :
  shift1 (firstn n xs) = firstn n (shift1 xs).
Proof.
  destruct n as [|n]; destruct xs as [|x xs]; try reflexivity.
  unfold shift1 at 2. cbn [firstn]. rewrite <- (removelast_firstn_S (x :: xs) n).
  reflexivity.
Qed.

Lemma mul_columns_firstn (n : nat) :
  forall a b, mul_columns (firstn n a) (firstn n b) = firstn n (mul_columns a b).
Proof.
  induction n as [|n IH]; intros [|x a] [|y b]; try reflexivity.
  cbn [firstn mul_columns]. now rewrite IH.
Qed.

Lemma cumsum_from_firstn (n : nat) :
  forall xs acc, cumsum_from acc (firstn n xs) = firstn n (cumsum_from acc xs).
Proof.
  induction n as [|n IH]; intros [|x xs] acc; try reflexivity.
  cbn [firstn cumsum_from]. destruct (isna x); cbn [firstn]; now rewrite IH.
Qed.

Lemma assemble_firstn (n : nat) :
  forall df ps cs gs us,
    assemble (firstn n df) (firstn n ps) (firstn n cs) (firstn n gs) (firstn n us)
    = firstn n (assemble df ps cs gs us).
Proof.
  induction n as [|n IH]; intros df ps cs gs us.
  - now destruct df.
  - destruct df as [|r df]; [reflexivity|].
    destruct ps as [|p ps]; [reflexivity|].
    destruct cs as [|c cs]; [reflexivity|].
    destruct gs as [|g gs]; [reflexivity|].
    destruct us as [|u us]; [reflexivity|].
    cbn [firstn assemble]. now rewrite IH.
Qed.

(** X5.  The backtest looks at no later row: on two series with one index,
    its first [n] rows are the rows it returns for the first [n] rows of the
    input, so rows that arrive later change no row already computed. *)
Theorem backtest_no_lookahead (spread zscore : Series) (T : float64) (n : nat) :
  index spread = index zscore ->
  run_backtest (firstn n spread) (firstn n zscore) T
  = firstn n (run_backtest spread zscore T).
Proof.
  intros Hidx.
  assert (Hidx' : index (firstn n spread) = index (firstn n zscore)).
  { unfold index in *. now rewrite <- !firstn_map, Hidx. }
  unfold run_backtest.
  rewrite (concat_axis1_same_index _ _ Hidx), (concat_axis1_same_index _ _ Hidx').
  rewrite <- combine_firstn, <- firstn_map.
  set (df := map (fun p => mkRow2 (fst (fst p)) (snd (fst p)) (snd (snd p)))
                 (combine spread zscore)).
  cbv zeta. rewrite <- !firstn_map.
  rewrite positions_from_firstn, diff_firstn.
  rewrite <- !firstn_map, shift1_firstn, mul_columns_firstn.
  unfold cumsum. rewrite cumsum_from_firstn.
  apply assemble_firstn.
Qed.

Lemma backtest_no_lookahead_witness :
  index lag_spread = index lag_zscore /\
  run_backtest (firstn 3 lag_spread) (firstn 3 lag_zscore) (Num 2)
  = firstn 3 (run_backtest lag_spread lag_zscore (Num 2)).
Proof.
  split; [reflexivity|].
  exact (backtest_no_lookahead lag_spread lag_zscore (Num 2) 3 eq_refl).
Defined.

(** ** The rolling correlation *)

Lemma rolling_correlation_unfold (sy sx : Series) (w : nat) :
  calculate_rolling_correlation sy sx w
  = rolling_pearson w (dropna (concat_axis1 sy sx)).
Proof.
  unfold calculate_rolling_correlation.
  now destruct (dropna (concat_axis1 sy sx)).
Qed.

Lemma rolling_pearson_nth (w : nat) (df : list Row2) (i : nat) (r : Row2) :
  nth_error df i = Some r ->
  nth_error (rolling_pearson w df) i
  = Some (label r,
          if (w <=? S i)%nat then
            let win := firstn w (skipn (S i - w) df) in
            if forallb (fun r => isfinite (col0 r) && isfinite (col1 r)) win
            then corr (map (fun r => (col0 r, col1 r)) win)
            else NaN
          else NaN).
Proof.
  intros Hr. unfold rolling_pearson.
  assert (Hi : (i < length df)%nat) by (apply nth_error_Some; congruence).
  rewrite (map_nth_error _ i (seq 0 (length df)) (d := i)).
  - now rewrite (nth_error_nth df i _ Hr).
  - rewrite nth_error_seq. apply Nat.ltb_lt in Hi. now rewrite Hi.
Qed.

Lemma rolling_pearson_length (w : nat) (df : list Row2) :
  length (rolling_pearson w df) = length df.
Proof. unfold rolling_pearson. now rewrite length_map, length_seq. Qed.

Lemma rolling_pearson_index (w : nat) (df : list Row2) :
  index (rolling_pearson w df) = map label df.
Proof.
  unfold index. apply nth_error_ext. intros i.
  destruct (nth_error df i) as [r|] eqn:E.
  - rewrite (map_nth_error fst i _ (rolling_pearson_nth w df i r E)).
    now rewrite (map_nth_error label i df E).
  - apply nth_error_None in E.
    replace (nth_error (map label df) i) with (@None Z)
      by (symmetry; apply nth_error_None; now rewrite length_map).
    apply nth_error_None. now rewrite length_map, rolling_pearson_length.
Qed.

(** X6.  The rolling correlation of two series whose timestamps ascend,
    aligned or not, has one row for each timestamp at which both series carry
    a value, under that timestamp and in ascending order: timestamps of one
    series only, and missing values, are dropped.  The rows whose window is
    incomplete are missing values, which, unlike those of the z-score, are not
    replaced by 0. *)
Theorem rolling_correlation_shape (sy sx : Series) (w : nat) :
  StronglySorted Z.lt (index sy) -> StronglySorted Z.lt (index sx) ->
  let c := calculate_rolling_correlation sy sx w in
  (forall t, In t (index c) <->
     exists vy vx, In (t, vy) sy /\ In (t, vx) sx /\
                   isna vy = false /\ isna vx = false) /\
  StronglySorted Z.lt (index c) /\
  (forall i t v, (S i < w)%nat -> nth_error c i = Some (t, v) -> v = NaN).
Proof.
  intros Sy Sx c. unfold c. rewrite rolling_correlation_unfold.
  destruct (aligned_rows sy sx Sy Sx) as (Hrows & Hsorted).
  set (df := dropna (concat_axis1 sy sx)) in *.
  rewrite rolling_pearson_index.
  split; [|split; [exact Hsorted|]].
  - intros t. rewrite in_map_iff. split.
    + intros (r & <- & Hr). apply Hrows in Hr.
      exists (col0 r), (col1 r). tauto.
    + intros (vy & vx & Hy & Hx & H0 & H1).
      exists (mkRow2 t vy vx). split; [reflexivity|].
      apply Hrows. cbn [label col0 col1]. tauto.
  - intros i t v Hi Hc.
    assert (Hl : (i < length df)%nat).
    { rewrite <- (rolling_pearson_length w df). apply nth_error_Some. congruence. }
    destruct (nth_error df i) as [r|] eqn:E; [|apply nth_error_None in E; lia].
    rewrite (rolling_pearson_nth w df i r E) in Hc.
    replace (w <=? S i)%nat with false in Hc by (symmetry; apply Nat.leb_gt; lia).
    congruence.
Qed.

(** Of the timestamps 0 to 3 of the two ragged series only 2 carries a
    value in both: the rolling correlation has that one row. *)
Lemma rolling_correlation_shape_witness :
  StronglySorted Z.lt (index ragged_y) /\
  StronglySorted Z.lt (index ragged_x) /\
  In 2%Z (index (calculate_rolling_correlation ragged_y ragged_x 2)) /\
  ~ In 1%Z (index (calculate_rolling_correlation ragged_y ragged_x 2)).
Proof.
  assert (Sy : StronglySorted Z.lt (index ragged_y))
    by (repeat (constructor; try lia)).
  assert (Sx : StronglySorted Z.lt (index ragged_x))
    by (repeat (constructor; try lia)).
  split; [exact Sy|]. split; [exact Sx|].
  destruct (rolling_correlation_shape ragged_y ragged_x 2 Sy Sx) as (H & _).
  split.
  - apply H. exists (Num 3), (Num 6). repeat split; try reflexivity; cbn; tauto.
  - intros Hin. apply H in Hin as (vy & vx & Hy & _ & Hn & _).
    cbn in Hy. destruct Hy as [E | [E | [E | []]]]; try discriminate.
    injection E as <-. discriminate.
Defined.

(** ** The spread of two series that are not aligned *)

(** X10.  The spread of two series whose timestamps ascend, aligned or
    not, has a row exactly at the timestamps at which both series carry a
    value, with [Y - beta * X] of the two values under that timestamp, in
    ascending order of the timestamps: timestamps of one series only, and
    missing values, are dropped. *)
Theorem spread_inner_join (y x : Series) (beta : float64) :
  StronglySorted Z.lt (index y) -> StronglySorted Z.lt (index x) ->
  let s := calculate_spread y x beta in
  (forall t v, In (t, v) s <->
     exists vy vx, In (t, vy) y /\ In (t, vx) x /\
                   isna vy = false /\ isna vx = false /\
                   v = (vy - beta * vx)%f64) /\
  StronglySorted Z.lt (index s).
Proof.
  intros Sy Sx s.
  destruct (aligned_rows y x Sy Sx) as (Hrows & Hsorted).
  assert (Hs : s = map (fun r => (label r, (col0 r - beta * col1 r)%f64))
                       (dropna (concat_axis1 y x))).
  { unfold s, calculate_spread. now destruct (dropna (concat_axis1 y x)). }
  split.
  - intros t v. rewrite Hs, in_map_iff. split.
    + intros (r & E & Hr). injection E as <- <-.
      apply Hrows in Hr as (A & B & H0 & H1).
      exists (col0 r), (col1 r). tauto.
    + intros (vy & vx & A & B & H0 & H1 & ->).
      exists (mkRow2 t vy vx). split; [reflexivity|].
      apply Hrows. cbn [label col0 col1]. tauto.
  - rewrite Hs. unfold index. rewrite map_map. cbn [fst]. exact Hsorted.
Qed.

(** Of the timestamps 0 to 3 of the two ragged series only 2 carries a
    value in both. *)
Lemma spread_inner_join_witness :
  StronglySorted Z.lt (index ragged_y) /\
  StronglySorted Z.lt (index ragged_x) /\
  In (2%Z, (Num 3 - Num 2 * Num 6)%f64) (calculate_spread ragged_y ragged_x (Num 2)) /\
  ~ In 1%Z (index (calculate_spread ragged_y ragged_x (Num 2))).
Proof.
  assert (Sy : StronglySorted Z.lt (index ragged_y))
    by (repeat (constructor; try lia)).
  assert (Sx : StronglySorted Z.lt (index ragged_x))
    by (repeat (constructor; try lia)).
  split; [exact Sy|]. split; [exact Sx|].
  destruct (spread_inner_join ragged_y ragged_x (Num 2) Sy Sx) as (H & _).
  split.
  - apply H. exists (Num 3), (Num 6).
    repeat split; try reflexivity; cbn; tauto.
  - intros Hin. apply in_map_iff in Hin as ([t v] & E & Hin). cbn [fst] in E. subst t.
    apply H in Hin as (vy & vx & Hy & _ & Hn & _).
    cbn in Hy. destruct Hy as [E | [E | [E | []]]]; try discriminate.
    injection E as <-. discriminate.
Defined.

Lemma spread_rows (y x : Series) (beta : float64) :
  calculate_spread y x beta
  = map (fun r => (label r, (col0 r - beta * col1 r)%f64)) (dropna (concat_axis1 y x)).
Proof. unfold calculate_spread. now destruct (dropna (concat_axis1 y x)). Qed.

(** ** The spread under the fallback hedge ratio *)

Lemma fsub_zero_times (v : float64) (b : R) : (v - Num 0 * Num b)%f64 = v.
Proof. destruct v; cbn; try reflexivity. f_equal. lra. Qed.

Lemma spread_aligned (y x : Series) (beta : float64) :
  AlignedPair y x ->
  calculate_spread y x beta
  = map (fun p => (fst (fst p), (snd (fst p) - beta * snd (snd p))%f64)) (combine y x).
Proof.
  intros HA. rewrite spread_rows, (dropna_aligned y x HA).
  destruct HA as (Hidx & _).
  rewrite (concat_axis1_same_index y x Hidx), map_map. reflexivity.
Qed.

(** X12.  On an aligned pair whose [X] is finite, the spread under the hedge
    ratio 0 is [Y] itself; so it is whenever the hedge ratio falls back to 0
    because fewer than five observations are there. *)
Theorem spread_under_zero_hedge
  (OLS_fit_params : list float64 -> Design -> option (list float64)) (y x : Series) :
  AlignedPair y x ->
  Forall (fun v => isfinite v = true) (values x) ->
  calculate_spread y x (Num 0) = y /\
  ((length y < 5)%nat ->
   calculate_spread y x (calculate_ols_hedge_ratio OLS_fit_params y x) = y).
Proof.
  intros HA Hfin.
  assert (H0 : calculate_spread y x (Num 0) = y).
  { rewrite (spread_aligned y x (Num 0) HA).
    destruct HA as (Hidx & _). unfold index, values in *.
    revert x Hidx Hfin. induction y as [|[t vy] y IH]; intros [|[t' vx] x] Hidx Hfin;
      try discriminate; [reflexivity|].
    cbn [map fst snd] in Hidx, Hfin. injection Hidx as _ Hidx.
    apply Forall_cons_iff in Hfin as (Hvx & Hfin).
    destruct vx as [b| | |]; try discriminate.
    cbn [combine map fst snd]. rewrite fsub_zero_times.
    now rewrite (IH x Hidx Hfin). }
  split; [exact H0|].
  intros Hlen. rewrite hedge_ratio_few; [exact H0|].
  rewrite (dropna_aligned y x HA).
  destruct HA as (Hidx & _).
  destruct (concat_axis1_columns y x Hidx) as (A & _).
  apply (f_equal (@length Z)) in A. unfold index in A.
  rewrite !length_map in A. lia.
Qed.

(** Three observations of a rising series against itself. *)
Lemma spread_under_zero_hedge_witness :
  AlignedPair ramp_spread ramp_spread /\
  Forall (fun v => isfinite v = true) (values ramp_spread) /\
  calculate_spread ramp_spread ramp_spread
    (calculate_ols_hedge_ratio closed_form_params ramp_spread ramp_spread) = ramp_spread.
Proof.
  assert (HA : AlignedPair ramp_spread ramp_spread)
    by (apply (series_of_aligned [1; 2; 3]%R [1; 2; 3]%R); reflexivity).
  assert (Hfin : Forall (fun v => isfinite v = true) (values ramp_spread)).
  { unfold ramp_spread. rewrite series_of_values.
    apply Forall_forall. intros v Hv. apply in_map_iff in Hv as (r & <- & _).
    reflexivity. }
  split; [exact HA|]. split; [exact Hfin|].
  apply (proj2 (spread_under_zero_hedge closed_form_params ramp_spread ramp_spread
                  HA Hfin)).
  simpl. lia.
Defined.

(** ** Every bar of [load_data] *)

Lemma filter_notna_defined (prices : list float64) :
  Forall (fun q => isna q = false) (filter notna prices).
Proof.
  apply Forall_forall. intros q Hq. apply filter_In in Hq as (_ & Hq).
  unfold notna in Hq. now apply negb_true_iff in Hq.
Qed.

(** A bar with a defined open: the prices it is built from are the defined
    prices of its interval, and its four values are ordered. *)
Lemma ohlc_ordered (b : Z) (prices : list float64) :
  isna (open (ohlc b prices)) = false ->
  let bar := ohlc b prices in
  In (open bar) prices /\
  fle (low bar) (open bar) = true /\ fle (open bar) (high bar) = true /\
  fle (low bar) (close bar) = true /\ fle (close bar) (high bar) = true.
Proof.
  unfold ohlc. pose proof (filter_notna_defined prices) as Hdef.
  destruct (filter notna prices) as [|p ps] eqn:E; [discriminate|].
  intros _. cbn [open high low close].
  inversion Hdef as [|? ? Hp Hps]; subst.
  destruct (fold_fmax_spec ps p Hp Hps) as (_ & HpM & HM).
  destruct (fold_fmin_spec ps p Hp Hps) as (_ & Hmp & Hm).
  assert (Hin : In p prices).
  { assert (H : In p (filter notna prices)) by (rewrite E; now left).
    now apply filter_In in H. }
  split; [exact Hin|]. split; [exact Hmp|]. split; [exact HpM|].
  destruct (last_In ps p) as [<- | Hl]; [now split|].
  split; [now apply Hm | now apply HM].
Qed.

Lemma ohlc_frame_bar (df : list (Z * float64)) (tf : Timeframe) (bar : Bar) :
  In bar (ohlc_frame df tf) ->
  exists q,
    interval_start bar = (width tf * q)%Z /\
    bar = ohlc (width tf * q)
               (map snd (filter (in_bucket (width tf) (width tf * q)) (sort_values df))) /\
    isna (open bar) = false.
Proof.
  intros Hin. unfold ohlc_frame in Hin. cbv zeta in Hin.
  apply dropna_bars_In in Hin as (Hin & Ho & _).
  apply resample_bar_form in Hin as (q & Hq).
  exists q. split; [|split; [exact Hq | exact Ho]].
  rewrite Hq. apply ohlc_start.
Qed.

(** Every bar holds a tick with a defined price. *)
Lemma ohlc_frame_bar_tick (df : list (Z * float64)) (tf : Timeframe) (bar : Bar) :
  In bar (ohlc_frame df tf) ->
  exists r, In r df /\ isna (snd r) = false /\
            bucket (width tf) (fst r) = interval_start bar.
Proof.
  intros Hbar.
  destruct (ohlc_frame_bar df tf bar Hbar) as (q & Hq & Hform & Ho).
  pose proof Ho as Ho'. rewrite Hform in Ho'.
  destruct (ohlc_ordered _ _ Ho') as (Hin & _).
  rewrite <- Hform in Hin.
  apply in_map_iff in Hin as (r & Hp & Hr). apply filter_In in Hr as (Hr & Hb).
  apply (proj1 (sort_values_In df r)) in Hr.
  exists r. split; [exact Hr|]. split; [now rewrite Hp|].
  rewrite Hq. apply in_bucket_iff; [apply width_pos | exact Hb].
Qed.

(** The number of bars does not exceed the number of ticks. *)
Lemma ohlc_frame_count (df : list (Z * float64)) (tf : Timeframe) :
  (length (ohlc_frame df tf) <= length df)%nat.
Proof.
  pose proof (ohlc_frame_sorted df tf) as Hs. unfold BarSeries in Hs.
  apply ssorted_lt_nodup in Hs.
  rewrite <- (length_map interval_start),
          <- (length_map (fun r => bucket (width tf) (fst r)) df).
  apply NoDup_incl_length; [exact Hs|].
  intros b Hb. apply in_map_iff in Hb as (bar & <- & Hbar).
  destruct (ohlc_frame_bar_tick df tf bar Hbar) as (r & Hr & _ & Hb).
  apply in_map_iff. now exists r.
Qed.

(** X14.  Whatever the ticks, missing prices included, and whatever pandas
    refuses, every bar that [load_data] returns starts at a multiple of the
    interval width, holds a tick with a defined price, and has ordered values:
    its low is at most its open and its close, which are at most its high (so
    none of the four is missing); and there are at most as many bars as
    ticks. *)
Theorem load_data_bar_invariants (raises : Timeframe -> list (Z * float64) -> bool)
  (df : list (Z * float64)) (tf : Timeframe) :
  let bars := load_data raises (Some df) tf in
  Forall (fun bar =>
            (exists q, interval_start bar = (width tf * q)%Z) /\
            (exists r, In r df /\ isna (snd r) = false /\
                       bucket (width tf) (fst r) = interval_start bar) /\
            fle (low bar) (open bar) = true /\ fle (open bar) (high bar) = true /\
            fle (low bar) (close bar) = true /\ fle (close bar) (high bar) = true)
         bars /\
  (length bars <= length df)%nat.
Proof.
  intros bars. split.
  - apply Forall_forall. intros bar Hbar. apply load_data_frame in Hbar.
    destruct (ohlc_frame_bar df tf bar Hbar) as (q & Hq & Hform & Ho).
    split; [now exists q|].
    split; [now apply ohlc_frame_bar_tick|].
    rewrite Hform in Ho. destruct (ohlc_ordered _ _ Ho) as (_ & Hord).
    now rewrite <- Hform in Hord.
  - unfold bars. destruct (load_data_cases raises df tf) as [(E & _) | (E & _)];
      rewrite E; [simpl; lia | apply ohlc_frame_count].
Qed.

(** ** The order of the ticks in the query result *)

Lemma sorted_permutation_unique (l1 : list (Z * float64)) :
  forall l2,
    StronglySorted (fun a b => (fst a < fst b)%Z) l1 ->
    StronglySorted (fun a b => (fst a < fst b)%Z) l2 ->
    Permutation l1 l2 -> l1 = l2.
Proof.
  induction l1 as [|h t IH]; intros l2 S1 S2 P.
  - apply Permutation_nil in P. now subst.
  - destruct l2 as [|h' t'];
      [apply Permutation_sym, Permutation_nil in P; discriminate|].
    apply StronglySorted_inv in S1 as (S1 & F1).
    apply StronglySorted_inv in S2 as (S2 & F2).
    rewrite Forall_forall in F1, F2.
    assert (E : h = h').
    { assert (H1 : In h (h' :: t')) by (apply (Permutation_in _ P); now left).
      assert (H2 : In h' (h :: t))
        by (apply (Permutation_in _ (Permutation_sym P)); now left).
      destruct H1 as [-> | H1]; [reflexivity|].
      destruct H2 as [<- | H2]; [reflexivity|].
      specialize (F1 _ H2). specialize (F2 _ H1). lia. }
    subst h'. f_equal. apply IH; try assumption.
    now apply Permutation_cons_inv in P.
Qed.

Lemma sorted_distinct_strict (l : list (Z * float64)) :
  StronglySorted (fun a b => (fst a <= fst b)%Z) l -> NoDup (map fst l) ->
  StronglySorted (fun a b => (fst a < fst b)%Z) l.
Proof.
  induction 1 as [|h t S IH F]; intros N; constructor.
  - apply IH. now inversion N.
  - apply Forall_forall. intros x Hx. rewrite Forall_forall in F.
    specialize (F x Hx). inversion N as [|? ? Hn _]; subst.
    assert (fst x <> fst h); [|lia].
    intros E. apply Hn. rewrite <- E. now apply in_map.
Qed.

Lemma sort_values_canonical (df df' : list (Z * float64)) :
  Permutation df df' -> NoDup (map fst df) -> sort_values df = sort_values df'.
Proof.
  intros P N.
  assert (N' : NoDup (map fst df'))
    by (apply (Permutation_NoDup (Permutation_map fst P)); exact N).
  apply sorted_permutation_unique.
  - apply sorted_distinct_strict; [apply sort_values_sorted|].
    apply (Permutation_NoDup (Permutation_map fst (Permutation_sym (sort_values_perm df)))).
    exact N.
  - apply sorted_distinct_strict; [apply sort_values_sorted|].
    apply (Permutation_NoDup (Permutation_map fst (Permutation_sym (sort_values_perm df')))).
    exact N'.
  - rewrite (sort_values_perm df), (sort_values_perm df'). exact P.
Qed.

(** Whether the stored texts have one format does not depend on their
    order. *)
Lemma to_datetime_permutation (ts ts' : list Z) :
  Permutation ts ts' ->
  (to_datetime ts = None <-> to_datetime ts' = None).
Proof.
  intros P.
  assert (H : forall l : list Z,
            to_datetime l = None <->
            exists a b, In a l /\ In b l /\ has_fraction a <> has_fraction b).
  { intros l. unfold to_datetime. destruct l as [|t0 l0]; [split; [discriminate|]|].
    { intros (a & _ & [] & _). }
    destruct (forallb _ (t0 :: l0)) eqn:E.
    - split; [discriminate|]. intros (a & b & Ha & Hb & Hne). exfalso.
      rewrite forallb_forall in E.
      pose proof (E a Ha) as Ea. pose proof (E b Hb) as Eb.
      apply eqb_prop in Ea, Eb. congruence.
    - split; [intros _|reflexivity].
      assert (Hex : exists a, In a (t0 :: l0) /\
                              Bool.eqb (has_fraction a) (has_fraction t0) = false).
      { clear -E. induction (t0 :: l0) as [|a l IH]; [discriminate|].
        cbn [forallb] in E. apply andb_false_iff in E as [E | E].
        - exists a. split; [now left | exact E].
        - destruct (IH E) as (b & Hb & Eb). exists b. split; [now right | exact Eb]. }
      destruct Hex as (a & Ha & Ea). exists a, t0.
      split; [exact Ha|]. split; [now left|].
      intros Heq. rewrite Heq, eqb_reflx in Ea. discriminate. }
  rewrite !H. split; intros (a & b & Ha & Hb & Hne); exists a, b.
  - split; [now apply (Permutation_in _ P)|]. split; [now apply (Permutation_in _ P) | exact Hne].
  - apply Permutation_sym in P.
    split; [now apply (Permutation_in _ P)|]. split; [now apply (Permutation_in _ P) | exact Hne].
Qed.

(** X15.  Ticks with distinct timestamps yield the same bars in whatever
    order the query returns them. *)
Theorem load_data_order_insensitive (raises : Timeframe -> list (Z * float64) -> bool)
  (df df' : list (Z * float64)) (tf : Timeframe) :
  Permutation df df' -> NoDup (map fst df) ->
  load_data raises (Some df) tf = load_data raises (Some df') tf.
Proof.
  intros P N.
  pose proof (sort_values_canonical df df' P N) as Es.
  pose proof (to_datetime_permutation _ _ (Permutation_map fst P)) as Ec.
  assert (Hnil : df = [] <-> df' = []).
  { split; intros ->; [now apply Permutation_nil in P|].
    now apply Permutation_sym, Permutation_nil in P. }
  assert (Ef : ohlc_frame df tf = ohlc_frame df' tf)
    by (unfold ohlc_frame; now rewrite Es).
  destruct (load_data_cases raises df tf) as [(E & H) | (E & Hne & Hc & Hr)];
    destruct (load_data_cases raises df' tf) as [(E' & H') | (E' & Hne' & Hc' & Hr')];
    rewrite E, E'; try reflexivity; try exact Ef; exfalso.
  - rewrite <- Es in Hr'. destruct H as [H | [H | H]].
    + apply Hne'. now apply Hnil.
    + apply Ec in H. congruence.
    + congruence.
  - rewrite <- Es in H'. destruct H' as [H' | [H' | H']].
    + apply Hne. now apply Hnil.
    + apply Ec in H'. congruence.
    + congruence.
Qed.

(** The out-of-order ticks of the gap scenario and the same ticks in time
    order. *)
Lemma load_data_order_insensitive_witness :
  Permutation gap_ticks (sort_values gap_ticks) /\
  NoDup (map fst gap_ticks) /\
  load_data never_raises (Some gap_ticks) tf_1Min
  = load_data never_raises (Some (sort_values gap_ticks)) tf_1Min.
Proof.
  assert (P : Permutation gap_ticks (sort_values gap_ticks))
    by (symmetry; apply sort_values_perm).
  assert (N : NoDup (map fst gap_ticks)).
  { cbn. repeat constructor; cbn; intros H;
      repeat (destruct H as [H | H]; [discriminate|]); exact H. }
  split; [exact P|]. split; [exact N|].
  exact (load_data_order_insensitive never_raises gap_ticks (sort_values gap_ticks)
           tf_1Min P N).
Defined.

(** ** The trades table *)

Lemma symbol_eqb_eq (a b : Trades.Symbol) : Trades.symbol_eqb a b = true <-> a = b.
Proof. destruct a, b; cbn; split; intros H; try reflexivity; discriminate. Qed.

Lemma symbol_eqb_refl (a : Trades.Symbol) : Trades.symbol_eqb a a = true.
Proof. now apply symbol_eqb_eq. Qed.

Lemma symbol_eqb_neq (a b : Trades.Symbol) : a <> b -> Trades.symbol_eqb a b = false.
Proof.
  intros H. destruct (Trades.symbol_eqb a b) eqn:E; [|reflexivity].
  apply symbol_eqb_eq in E. contradiction.
Qed.

(** The rows the query selects for a symbol, before ordering. *)
Lemma matching_app (trades : list Trades.Trade) (r : Trades.Trade) (sym : Trades.Symbol) :
  filter (fun x => Trades.symbol_eqb (Trades.symbol x) sym) (trades ++ [r])
  = filter (fun x => Trades.symbol_eqb (Trades.symbol x) sym) trades
    ++ (if Trades.symbol_eqb (Trades.symbol r) sym then [r] else []).
Proof. rewrite filter_app. reflexivity. Qed.

(** Sorting puts a row whose timestamp is beyond all others last. *)
Lemma insert_row_last (x : Z * float64) (l : list (Z * float64)) :
  Forall (fun r => (fst r < fst x)%Z) l -> insert_row x l = l ++ [x].
Proof.
  induction 1 as [|h t Hh _ IH]; [reflexivity|].
  cbn [app insert_row].
  replace (fst x <=? fst h)%Z with false by (symmetry; apply Z.leb_gt; exact Hh).
  now rewrite IH.
Qed.

Lemma sort_values_latest (l : list (Z * float64)) (x : Z * float64) :
  Forall (fun r => (fst r < fst x)%Z) l ->
  sort_values (x :: l) = sort_values l ++ [x].
Proof.
  intros H. cbn [sort_values]. apply insert_row_last.
  apply Forall_forall. intros r Hr. apply (proj1 (sort_values_In l r)) in Hr.
  rewrite Forall_forall in H. now apply H.
Qed.

(** X16.  After [init_db], whether or not the table was there before, a
    saved trade changes the result of the query for no other symbol, and when
    it is later than every stored trade of its symbol it is read back as the
    first row of the result for its symbol, for every limit other than 0.
    Without the table the trade is lost: nothing is stored, and [load_data]
    answers with an empty frame. *)
Theorem save_trade_read_back (db0 : Trades.Database) (sym : Trades.Symbol)
  (p q : float64) (t : Z) :
  let stored := match db0 with Some trades => trades | None => [] end in
  let db := Trades.save_trade (Trades.init_db db0) sym p q t in
  Trades.init_db db0 = Some stored /\
  (forall other limit, other <> sym ->
     Trades.read_sql db other limit = Some (Trades.select_trades stored other limit)) /\
  (forall limit, limit <> 0%Z ->
     Forall (fun r => Trades.symbol r = sym -> (Trades.timestamp r < t)%Z) stored ->
     exists rows, Trades.read_sql db sym limit = Some ((t, p) :: rows)) /\
  Trades.save_trade None sym p q t = None /\
  (forall raises tf limit,
     Trades.load_data raises (Trades.save_trade None sym p q t) sym tf limit = []).
Proof.
  intros stored db.
  assert (Hinit : Trades.init_db db0 = Some stored) by (now destruct db0).
  split; [exact Hinit|].
  unfold db. rewrite Hinit.
  unfold Trades.save_trade, Trades.read_sql, Trades.select_trades.
  split; [|split; [|split; reflexivity]].
  - intros other limit Hne. rewrite matching_app. cbn [Trades.symbol].
    rewrite (symbol_eqb_neq sym other) by congruence. now rewrite app_nil_r.
  - intros limit Hl Hlate. rewrite matching_app. cbn [Trades.symbol].
    rewrite symbol_eqb_refl, map_app. cbn [map Trades.timestamp Trades.price].
    rewrite rev_app_distr. cbn [rev app].
    rewrite sort_values_latest.
    + rewrite rev_app_distr. cbn [rev app].
      destruct (limit <? 0)%Z eqn:E; [eexists; reflexivity|].
      apply Z.ltb_ge in E.
      destruct (Z.to_nat limit) as [|n] eqn:En; [lia|].
      cbn [firstn]. eexists. reflexivity.
    + apply Forall_forall. intros r Hr. apply in_rev in Hr.
      apply in_map_iff in Hr as (x & <- & Hx).
      apply filter_In in Hx as (Hx & Hs). apply symbol_eqb_eq in Hs.
      rewrite Forall_forall in Hlate. cbn [fst]. now apply Hlate.
Qed.

Lemma save_trade_read_back_witness :
  Forall (fun r => Trades.symbol r = Trades.btcusdt -> (Trades.timestamp r < 7)%Z)
         [Trades.mkTrade Trades.btcusdt (Num 1) (Num 1) 5;
          Trades.mkTrade Trades.ethusdt (Num 2) (Num 1) 9] /\
  exists rows,
    Trades.read_sql
      (Trades.save_trade
         (Trades.init_db
            (Some [Trades.mkTrade Trades.btcusdt (Num 1) (Num 1) 5;
                   Trades.mkTrade Trades.ethusdt (Num 2) (Num 1) 9]))
         Trades.btcusdt (Num 3) (Num 1) 7)
      Trades.btcusdt 10000
    = Some ((7%Z, Num 3) :: rows).
Proof.
  assert (H : Forall (fun r => Trades.symbol r = Trades.btcusdt ->
                               (Trades.timestamp r < 7)%Z)
                [Trades.mkTrade Trades.btcusdt (Num 1) (Num 1) 5;
                 Trades.mkTrade Trades.ethusdt (Num 2) (Num 1) 9]).
  { constructor; [cbn; intros _; lia|].
    constructor; [cbn; intros E; discriminate|]. constructor. }
  split; [exact H|].
  destruct (save_trade_read_back
              (Some [Trades.mkTrade Trades.btcusdt (Num 1) (Num 1) 5;
                     Trades.mkTrade Trades.ethusdt (Num 2) (Num 1) 9])
              Trades.btcusdt (Num 3) (Num 1) 7) as (_ & _ & R & _).
  apply (R 10000%Z); [discriminate | exact H].
Defined.

(** The result of the query is in descending order of the timestamps. *)
Lemma rev_sorted_desc (l : list (Z * float64)) :
  StronglySorted (fun a b => (fst a <= fst b)%Z) l ->
  StronglySorted (fun a b => (fst b <= fst a)%Z) (rev l).
Proof.
  induction 1 as [|h t S IH F]; [constructor|].
  cbn [rev]. rewrite Forall_forall in F.
  assert (G : forall l' : list (Z * float64),
            StronglySorted (fun a b => (fst b <= fst a)%Z) l' ->
            (forall x, In x l' -> (fst h <= fst x)%Z) ->
            StronglySorted (fun a b => (fst b <= fst a)%Z) (l' ++ [h])).
  { induction 1 as [|a l' S' IH' F']; intros Hb; cbn [app].
    - repeat constructor.
    - constructor; [apply IH'; intros x Hx; apply Hb; now right|].
      apply Forall_forall. intros x Hx. apply in_app_or in Hx as [Hx | [<- | []]].
      + rewrite Forall_forall in F'. now apply F'.
      + apply Hb. now left. }
  apply G; [exact IH|]. intros x Hx. apply F. now apply in_rev.
Qed.

Lemma sorted_desc_split (n : nat) (l : list (Z * float64)) :
  StronglySorted (fun a b => (fst b <= fst a)%Z) l ->
  forall a b, In a (firstn n l) -> In b (skipn n l) -> (fst b <= fst a)%Z.
Proof.
  intros S. revert n. induction S as [|h t S IH F]; intros n a b Ha Hb.
  - rewrite firstn_nil in Ha. contradiction.
  - destruct n as [|n]; [contradiction|]. cbn [firstn skipn] in Ha, Hb.
    destruct Ha as [<- | Ha]; [|now apply (IH n)].
    rewrite Forall_forall in F. apply F.
    rewrite <- (firstn_skipn n t). apply in_or_app. now right.
Qed.

Lemma firstn_subset {A : Type} (n : nat) (l : list A) (x : A) :
  In x (firstn n l) -> In x l.
Proof.
  intros H. rewrite <- (firstn_skipn n l). apply in_or_app. now left.
Qed.

(** X17.  The query returns at most [limit] rows, all of them trades of the
    symbol, latest first, and they are the latest ones: a trade of the symbol
    that is left out is not later than any trade returned. *)
Theorem select_trades_latest (trades : list Trades.Trade) (sym : Trades.Symbol)
  (limit : Z) :
  (0 <= limit)%Z ->
  let rows := Trades.select_trades trades sym limit in
  (length rows <= Z.to_nat limit)%nat /\
  (forall r, In r rows ->
     exists x, In x trades /\ Trades.symbol x = sym /\
               r = (Trades.timestamp x, Trades.price x)) /\
  StronglySorted (fun a b => (fst b <= fst a)%Z) rows /\
  exists rest,
    Permutation (rows ++ rest)
                (map (fun x => (Trades.timestamp x, Trades.price x))
                     (filter (fun x => Trades.symbol_eqb (Trades.symbol x) sym) trades)) /\
    (forall a b, In a rows -> In b rest -> (fst b <= fst a)%Z).
Proof.
  intros Hl rows. unfold rows, Trades.select_trades.
  replace (limit <? 0)%Z with false by (symmetry; apply Z.ltb_ge; lia).
  set (all := map (fun x => (Trades.timestamp x, Trades.price x))
                  (filter (fun x => Trades.symbol_eqb (Trades.symbol x) sym) trades)).
  set (ordered := rev (sort_values (rev all))).
  assert (Hs : StronglySorted (fun a b => (fst b <= fst a)%Z) ordered)
    by (apply rev_sorted_desc, sort_values_sorted).
  split; [apply firstn_le_length|]. split; [|split].
  - intros r Hr. apply firstn_subset in Hr. apply in_rev in Hr.
    apply (proj1 (sort_values_In _ _)) in Hr. apply in_rev in Hr.
    apply in_map_iff in Hr as (x & <- & Hx).
    apply filter_In in Hx as (Hx & E). apply symbol_eqb_eq in E.
    exists x. repeat split; assumption.
  - rewrite <- (firstn_skipn (Z.to_nat limit) ordered) in Hs.
    clear - Hs. induction (firstn (Z.to_nat limit) ordered) as [|a l IH];
      [constructor|].
    cbn [app] in Hs. apply StronglySorted_inv in Hs as (Hs & F).
    constructor; [now apply IH|].
    apply Forall_forall. intros x Hx. rewrite Forall_forall in F. apply F.
    apply in_or_app. now left.
  - exists (skipn (Z.to_nat limit) ordered). split.
    + rewrite firstn_skipn. unfold ordered.
      rewrite <- (Permutation_rev (sort_values (rev all))), (sort_values_perm (rev all)).
      symmetry. apply Permutation_rev.
    + intros a b. now apply sorted_desc_split.
Qed.

Lemma select_trades_latest_witness :
  (0 <= 1)%Z /\
  Trades.select_trades
    [Trades.mkTrade Trades.btcusdt (Num 1) (Num 1) 5;
     Trades.mkTrade Trades.btcusdt (Num 3) (Num 1) 7]
    Trades.btcusdt 1
  = [(7%Z, Num 3)] /\
  (length (Trades.select_trades
             [Trades.mkTrade Trades.btcusdt (Num 1) (Num 1) 5;
              Trades.mkTrade Trades.btcusdt (Num 3) (Num 1) 7]
             Trades.btcusdt 1) <= Z.to_nat 1)%nat.
Proof.
  assert (H : (0 <= 1)%Z) by lia.
  split; [exact H|]. split; [reflexivity|].
  exact (proj1 (select_trades_latest _ Trades.btcusdt 1 H)).
Defined.

(** ** When [load_data] returns no bar *)

Lemma ohlc_priced (b : Z) (prices : list float64) (q : float64) :
  In q prices -> isna q = false ->
  In (ohlc b prices) (dropna_bars [ohlc b prices]).
Proof.
  intros Hq Hn. unfold ohlc.
  pose proof (filter_notna_defined prices) as Hdef.
  destruct (filter notna prices) as [|p ps] eqn:E.
  - exfalso. assert (H : In q (filter notna prices)).
    { apply filter_In. split; [exact Hq|]. unfold notna. now rewrite Hn. }
    now rewrite E in H.
  - inversion Hdef as [|? ? Hp Hps]; subst.
    destruct (fold_fmax_spec ps p Hp Hps) as (HM & _).
    destruct (fold_fmin_spec ps p Hp Hps) as (Hm & _).
    pose proof (last_In ps p) as Hl.
    rewrite Forall_forall in Hdef.
    unfold dropna_bars. cbn [filter open high low close]. unfold notna.
    rewrite Hp, (Hdef _ HM), (Hdef _ Hm), (Hdef _ Hl). now left.
Qed.

Lemma ohlc_frame_priced_tick (df : list (Z * float64)) (tf : Timeframe) (r : Z * float64) :
  In r df -> isna (snd r) = false ->
  exists bar, In bar (ohlc_frame df tf) /\
              interval_start bar = bucket (width tf) (fst r).
Proof.
  intros Hr Hn. unfold ohlc_frame. cbv zeta.
  pose proof (width_pos tf) as Hd.
  assert (Hr' : In r (sort_values df)) by now apply sort_values_In.
  pose proof (resample_bar_exists (width tf) (sort_values df) r Hd
                (sort_values_sorted df) Hr') as Hb.
  cbv zeta in Hb.
  set (b := bucket (width tf) (fst r)) in *.
  set (prices := map snd (filter (in_bucket (width tf) b) (sort_values df))) in *.
  exists (ohlc b prices). split; [|apply ohlc_start].
  apply dropna_bars_In. split; [exact Hb|].
  assert (Hq : In (snd r) prices).
  { unfold prices. apply in_map. apply filter_In. split; [exact Hr'|].
    unfold b, bucket. apply in_bucket_iff; [exact Hd | reflexivity]. }
  pose proof (ohlc_priced b prices (snd r) Hq Hn) as Hs.
  apply dropna_bars_In in Hs. tauto.
Qed.

Lemma ohlc_frame_empty_iff (df : list (Z * float64)) (tf : Timeframe) :
  ohlc_frame df tf = [] <-> Forall (fun r => isna (snd r) = true) df.
Proof.
  split.
  - intros E. apply Forall_forall. intros r Hr.
    destruct (isna (snd r)) eqn:Hn; [reflexivity|].
    destruct (ohlc_frame_priced_tick df tf r Hr Hn) as (bar & Hbar & _).
    now rewrite E in Hbar.
  - intros Hall. destruct (ohlc_frame df tf) as [|bar bars] eqn:E; [reflexivity|].
    exfalso.
    assert (Hbar : In bar (ohlc_frame df tf)) by (rewrite E; now left).
    destruct (ohlc_frame_bar_tick df tf bar Hbar) as (r & Hr & Hn & _).
    rewrite Forall_forall in Hall. rewrite (Hall r Hr) in Hn. discriminate.
Qed.

(** X18.  [load_data] returns an empty frame exactly when the read fails,
    the conversion of the timestamps raises, pandas refuses the frame, or
    no tick carries a price: ticks whose price is missing yield no bar, and
    when nothing raises one tick with a price is enough for a bar. *)
Theorem load_data_empty_iff (raises : Timeframe -> list (Z * float64) -> bool)
  (query : option (list (Z * float64))) (tf : Timeframe) :
  load_data raises query tf = [] <->
  match query with
  | None => True
  | Some df =>
      to_datetime (map fst df) = None \/
      raises tf (sort_values df) = true \/
      Forall (fun r => isna (snd r) = true) df
  end.
Proof.
  destruct query as [df|]; [|split; [trivial | reflexivity]].
  destruct (load_data_cases raises df tf) as [(E & H) | (E & Hne & Hc & Hr)]; rewrite E.
  - split; [intros _ | reflexivity].
    destruct H as [-> | [H | H]]; [right; right; constructor | now left | right; now left].
  - rewrite ohlc_frame_empty_iff. split; [intros H; right; now right|].
    intros [H | [H | H]]; [congruence | congruence | exact H].
Qed.

(** ** One refresh of the dashboard *)

Lemma load_data_closes (raises : Timeframe -> list (Z * float64) -> bool)
  (query : option (list (Z * float64))) (tf : Timeframe) :
  Forall (fun b => isna (close b) = false) (load_data raises query tf).
Proof.
  apply Forall_forall. intros bar Hbar.
  destruct query as [df|]; [|contradiction].
  apply load_data_frame in Hbar. unfold ohlc_frame in Hbar. cbv zeta in Hbar.
  apply dropna_bars_In in Hbar. tauto.
Qed.

(** The two series the dashboard builds from two bar series form an aligned
    pair over the common timestamps. *)
Lemma aligned_series (df_y df_x : list Bar) :
  BarSeries df_y -> BarSeries df_x ->
  Forall (fun b => isna (close b) = false) df_y ->
  Forall (fun b => isna (close b) = false) df_x ->
  AlignedPair (series_y df_y df_x) (series_x df_y df_x) /\
  index (series_y df_y df_x) = common_idx df_y df_x.
Proof.
  intros Hy Hx Cy Cx. unfold BarSeries in Hy, Hx.
  pose proof (ssorted_lt_nodup _ Hy) as Ny.
  pose proof (ssorted_lt_nodup _ Hx) as Nx.
  set (idx := common_idx df_y df_x).
  assert (Hidx : forall t, In t idx <->
            In t (map interval_start df_y) /\ In t (map interval_start df_x))
    by (intros t; apply intersection_In; exact Ny).
  assert (Iy : index (series_y df_y df_x) = idx)
    by (apply loc_close_index; [exact Ny | intros t Ht; now apply Hidx]).
  assert (Ix : index (series_x df_y df_x) = idx)
    by (apply loc_close_index; [exact Nx | intros t Ht; now apply Hidx]).
  split; [|exact Iy]. split; [congruence|].
  rewrite Forall_forall in Cy, Cx.
  split; apply Forall_forall; intros v Hv; apply in_map_iff in Hv as ([t c] & <- & Hin);
    apply loc_close_In in Hin as (_ & b & Hb & _ & <-); cbn [snd]; auto.
Qed.

Lemma spread_index (y x : Series) (beta : float64) :
  AlignedPair y x -> index (calculate_spread y x beta) = index y.
Proof.
  intros HA. rewrite (spread_aligned y x beta HA).
  destruct HA as (Hidx & _). unfold index at 1. rewrite map_map. cbn [fst].
  now destruct (combine_same_index y x Hidx).
Qed.

Lemma index_length (s : Series) : length (index s) = length s.
Proof. unfold index. apply length_map. Qed.

Lemma last_shift {A : Type} (r : list A) :
  forall x y, last (y :: r) x = last r y.
Proof.
  induction r as [|z r IH]; intros x y; [reflexivity|].
  change (last (y :: z :: r) x) with (last (z :: r) x).
  now rewrite (IH x z), (IH y z).
Qed.

Lemma iloc_last_nth {A : Type} (l : list A) :
  l <> [] -> exists v, iloc_last l = Some v /\ nth_error l (length l - 1) = Some v.
Proof.
  intros Hne. destruct l as [|x r]; [contradiction|].
  exists (last r x). split; [reflexivity|].
  cbn [length]. rewrite Nat.sub_1_r. cbn [Nat.pred].
  clear Hne. revert x. induction r as [|y r IH]; intros x; [reflexivity|].
  cbn [length nth_error]. rewrite (last_shift r x y). apply IH.
Qed.

(** The series of one run of the analytics on an aligned pair all have the
    rows of the pair. *)
Lemma run_analytics_lengths
  (OLS_fit_params : list float64 -> Design -> option (list float64))
  (adfuller : list float64 -> option (float64 * float64))
  (sy sx : Series) (w : nat) (T : float64) :
  AlignedPair sy sx ->
  let a := run_analytics OLS_fit_params adfuller sy sx w T in
  index (spread a) = index sy /\
  length (spread a) = length sy /\ length (zscore a) = length sy /\
  length (rolling_corr a) = length sy /\ length (backtest_df a) = length sy.
Proof.
  intros HA a. unfold a, run_analytics. cbn [spread zscore rolling_corr backtest_df].
  set (beta := calculate_ols_hedge_ratio OLS_fit_params sy sx).
  pose proof (spread_index sy sx beta HA) as Hs.
  assert (Ls : length (calculate_spread sy sx beta) = length sy)
    by (rewrite <- !index_length; now rewrite Hs).
  split; [exact Hs|]. split; [exact Ls|].
  split; [now rewrite zscore_length|]. split.
  - rewrite rolling_correlation_unfold, rolling_pearson_length.
    rewrite (dropna_aligned sy sx HA).
    destruct HA as (Hidx & _).
    destruct (concat_axis1_columns sy sx Hidx) as (A & _).
    apply (f_equal (@length Z)) in A. now rewrite length_map, index_length in A.
  - destruct (backtest_zscore_columns (calculate_spread sy sx beta) w T) as (_ & _ & L).
    now rewrite L.
Qed.

(** X19.  One refresh of the dashboard never fails.  It shows the waiting
    notice exactly when one of the two frames is empty, the notice of
    insufficient data when the frames share no more than [window_size]
    timestamps, and else the metrics of the analytics on the aligned pair:
    every series then has one row for each shared timestamp, more than
    [window_size] of them, the z-score shown is that of the last row, and no
    stationarity verdict is shown on fewer than 20 rows. *)
Theorem dashboard_never_fails
  (raises : Timeframe -> list (Z * float64) -> bool)
  (OLS_fit_params : list float64 -> Design -> option (list float64))
  (adfuller : list float64 -> option (float64 * float64))
  (db : Trades.Database) (symbol_y symbol_x : Trades.Symbol) (tf : Timeframe)
  (w : nat) (T : float64) :
  let df_y := Trades.load_data raises db symbol_y tf 10000 in
  let df_x := Trades.load_data raises db symbol_x tf 10000 in
  let n := length (common_idx df_y df_x) in
  match dashboard raises OLS_fit_params adfuller db symbol_y symbol_x tf w T with
  | None => False
  | Some WaitingForData => df_y = [] \/ df_x = []
  | Some InsufficientData => df_y <> [] /\ df_x <> [] /\ (n <= w)%nat
  | Some (Metrics a total_pnl current_z current_corr alert) =>
      df_y <> [] /\ df_x <> [] /\ (w < n)%nat /\
      a = run_analytics OLS_fit_params adfuller
                        (series_y df_y df_x) (series_x df_y df_x) w T /\
      length (spread a) = n /\ length (zscore a) = n /\
      length (rolling_corr a) = n /\ length (backtest_df a) = n /\
      (exists t, nth_error (zscore a) (n - 1) = Some (t, current_z)) /\
      (exists r, nth_error (backtest_df a) (n - 1) = Some r /\
                 total_pnl = cumulative_pnl r) /\
      alert = fgt (fabs current_z) T /\
      ((n < 20)%nat -> adf_res a = None)
  end.
Proof.
  intros df_y df_x n. unfold dashboard. fold df_y df_x. unfold render.
  assert (Hempty : forall l : list Bar, empty l = true -> l = [])
    by (intros [|b l] H; [reflexivity | discriminate]).
  assert (Hfull : forall l : list Bar, empty l = false -> l <> [])
    by (intros [|b l] H; [discriminate | discriminate]).
  destruct (empty df_y) eqn:Ey; [cbn; left; now apply Hempty|].
  destruct (empty df_x) eqn:Ex; [cbn; right; now apply Hempty|].
  cbn [negb andb].
  pose proof (Hfull _ Ey) as Ny. pose proof (Hfull _ Ex) as Nx.
  clear Hempty Hfull.
  change (intersection (map interval_start df_y) (map interval_start df_x))
    with (common_idx df_y df_x).
  fold n. destruct (w <? n)%nat eqn:Ew;
    [apply Nat.ltb_lt in Ew | apply Nat.ltb_ge in Ew; now repeat split].
  cbv zeta.
  change (loc_close df_y (common_idx df_y df_x)) with (series_y df_y df_x).
  change (loc_close df_x (common_idx df_y df_x)) with (series_x df_y df_x).
  set (sy := series_y df_y df_x). set (sx := series_x df_y df_x).
  destruct (aligned_series df_y df_x) as (HA & Hi);
    try apply load_data_bar_series; try apply load_data_closes.
  fold sy sx in HA, Hi.
  assert (Ly : length sy = n) by (rewrite <- index_length, Hi; reflexivity).
  destruct (run_analytics_lengths OLS_fit_params adfuller sy sx w T HA)
    as (Is & L1 & L2 & L3 & L4).
  set (a := run_analytics OLS_fit_params adfuller sy sx w T) in *.
  rewrite Ly in L1, L2, L3, L4.
  destruct (iloc_last_nth (backtest_df a)) as (b & Eb & Nb);
    [intros E; rewrite E in L4; simpl in L4; lia|].
  destruct (iloc_last_nth (zscore a)) as (z & Ez & Nz);
    [intros E; rewrite E in L2; simpl in L2; lia|].
  destruct (iloc_last_nth (rolling_corr a)) as (c & Ec & _);
    [intros E; rewrite E in L3; simpl in L3; lia|].
  rewrite Eb, Ez, Ec. rewrite L4 in Nb. rewrite L2 in Nz.
  repeat split; try assumption.
  - exists (fst z). now destruct z.
  - now exists b.
  - intros H20. unfold a, run_analytics. cbn [adf_res].
    unfold perform_adf_test.
    replace (length (dropna_series _) <? 20)%nat with true; [reflexivity|].
    symmetry. apply Nat.ltb_lt.
    eapply Nat.le_lt_trans; [apply filter_length_le|].
    fold (calculate_ols_hedge_ratio OLS_fit_params sy sx).
    change (length (spread a) < 20)%nat. lia.
Qed.

(** ** The alert and the entry rule *)

(** X20.  The breakout alert of the dashboard, [abs(z) > threshold], is
    raised exactly when the backtest, were it flat, would open a position
    on that z-score: for every threshold and every z-score, the missing
    value and the infinities included. *)
Theorem alert_iff_entry (T z : float64) :
  fgt (fabs z) T = true <-> step T 0%Z z <> 0%Z.
Proof.
  unfold step. cbn [Z.eqb].
  destruct z as [a| | |], T as [t| | |]; cbn; unfold R_ltb;
    repeat match goal with
           | |- context [Rlt_dec ?x ?y] => destruct (Rlt_dec x y)
           end;
    split; intros H; try discriminate; try reflexivity; try (exfalso; now apply H);
    try (exfalso; unfold Rabs in *; destruct (Rcase_abs a); lra).
Qed.

(** ** Long and short are treated alike *)

Lemma fneg_involutive (x : float64) : (- - x)%f64 = x.
Proof. destruct x; cbn; try reflexivity. f_equal. lra. Qed.

Lemma flt_fneg (x y : float64) : flt (- x)%f64 (- y)%f64 = flt y x.
Proof.
  destruct x as [a| | |], y as [b| | |]; cbn; try reflexivity.
  unfold R_ltb. destruct (Rlt_dec (- a) (- b)), (Rlt_dec b a); try reflexivity; lra.
Qed.

Lemma fle_fneg (x y : float64) : fle (- x)%f64 (- y)%f64 = fle y x.
Proof.
  destruct x as [a| | |], y as [b| | |]; cbn; try reflexivity.
  unfold R_leb. destruct (Rle_dec (- a) (- b)), (Rle_dec b a); try reflexivity; lra.
Qed.

Lemma fle_zero_fneg (z : float64) : fle (- z)%f64 (Num 0) = fle (Num 0) z.
Proof.
  destruct z as [a| | |]; cbn; try reflexivity.
  unfold R_leb. destruct (Rle_dec (- a) 0), (Rle_dec 0 a); try reflexivity; lra.
Qed.

Lemma fge_zero_fneg (z : float64) : fle (Num 0) (- z)%f64 = fle z (Num 0).
Proof.
  destruct z as [a| | |]; cbn; try reflexivity.
  unfold R_leb. destruct (Rle_dec 0 (- a)), (Rle_dec a 0); try reflexivity; lra.
Qed.

(** The step on the mirrored z-score from the mirrored position, for a
    threshold that is not negative. *)
Lemma step_mirror (T : float64) (p : Z) (z : float64) :
  flt T (Num 0) = false ->
  (p = -1 \/ p = 0 \/ p = 1)%Z ->
  step T (- p)%Z (- z)%f64 = (- step T p z)%Z.
Proof.
  intros HT [-> | [-> | ->]]; unfold step, fgt, fge; cbn [Z.opp Z.eqb andb Pos.eqb].
  - rewrite fge_zero_fneg. now destruct (fle z (Num 0)).
  - assert (E1 : flt T (- z)%f64 = flt z (- T)%f64).
    { rewrite <- (fneg_involutive T) at 1. apply flt_fneg. }
    rewrite E1, flt_fneg.
    destruct (flt z (- T))%f64 eqn:A, (flt T z) eqn:B; try reflexivity.
    exfalso.
    destruct z as [a| | |], T as [t| | |]; cbn in A, B, HT; try discriminate.
    apply R_ltb_lt in A. apply R_ltb_lt in B.
    unfold R_ltb in HT. destruct (Rlt_dec t 0); [discriminate | lra].
  - rewrite fle_zero_fneg. now destruct (fle (Num 0) z).
Qed.

Lemma positions_mirror (T : float64) (zs : list float64) :
  flt T (Num 0) = false ->
  forall p, (p = -1 \/ p = 0 \/ p = 1)%Z ->
    positions_from T (- p)%Z (map fneg zs) = map Z.opp (positions_from T p zs).
Proof.
  intros HT. induction zs as [|z zs IH]; intros p Hp; [reflexivity|].
  cbn [map positions_from]. rewrite (step_mirror T p z HT Hp).
  rewrite IH by now apply step_range. reflexivity.
Qed.

Lemma fsub_fneg (x y : float64) : (- x - - y)%f64 = (- (x - y))%f64.
Proof.
  unfold fsub. destruct x as [a| | |], y as [b| | |]; cbn; try reflexivity.
  f_equal. lra.
Qed.

Lemma inf_times_mirror (pos : bool) (b : R) :
  inf_times (negb pos) (- b) = inf_times pos b.
Proof.
  unfold inf_times, R_ltb.
  destruct (Rlt_dec 0 (- b)), (Rlt_dec (- b) 0), (Rlt_dec 0 b), (Rlt_dec b 0);
    try lra; destruct pos; reflexivity.
Qed.

Lemma fmul_mirror (x y : float64) : (- x * - y)%f64 = (x * y)%f64.
Proof.
  destruct x as [a| | |], y as [b| | |]; cbn; try reflexivity.
  - f_equal. lra.
  - exact (inf_times_mirror true a).
  - exact (inf_times_mirror false a).
  - exact (inf_times_mirror true b).
  - exact (inf_times_mirror false b).
Qed.

Lemma of_int_opp (p : Z) : of_int (- p) = (- of_int p)%f64.
Proof. unfold of_int. cbn. now rewrite opp_IZR. Qed.

Lemma diff_from_mirror (xs : list float64) :
  forall prev, diff_from (- prev)%f64 (map fneg xs) = map fneg (diff_from prev xs).
Proof.
  induction xs as [|x xs IH]; intros prev; [reflexivity|].
  cbn [map diff_from]. now rewrite fsub_fneg, IH.
Qed.

Lemma diff_mirror (xs : list float64) : diff (map fneg xs) = map fneg (diff xs).
Proof.
  destruct xs as [|x xs]; [reflexivity|].
  cbn [map diff fneg]. now rewrite diff_from_mirror.
Qed.

Lemma removelast_map {A B : Type} (f : A -> B) (l : list A) :
  removelast (map f l) = map f (removelast l).
Proof.
  induction l as [|x l IH]; [reflexivity|].
  destruct l as [|y l]; [reflexivity|].
  change (map f (x :: y :: l)) with (f x :: map f (y :: l)).
  change (removelast (x :: y :: l)) with (x :: removelast (y :: l)).
  cbn [map] in *. now rewrite <- IH.
Qed.

Lemma shift1_mirror (xs : list float64) :
  shift1 (map fneg xs) = map fneg (shift1 xs).
Proof.
  destruct xs as [|x xs]; [reflexivity|].
  change (shift1 (map fneg (x :: xs))) with (NaN :: removelast (map fneg (x :: xs))).
  rewrite removelast_map. reflexivity.
Qed.

Lemma mul_columns_mirror (a : list float64) :
  forall b, mul_columns (map fneg a) (map fneg b) = mul_columns a b.
Proof.
  induction a as [|x a IH]; intros [|y b]; try reflexivity.
  cbn [map mul_columns]. now rewrite fmul_mirror, IH.
Qed.

Lemma pnl_mirror (ps : list Z) (ds : list float64) :
  mul_columns (shift1 (map of_int (map Z.opp ps))) (map fneg ds)
  = mul_columns (shift1 (map of_int ps)) ds.
Proof.
  assert (E : map of_int (map Z.opp ps) = map fneg (map of_int ps)).
  { rewrite !map_map. apply map_ext. intros p. apply of_int_opp. }
  rewrite E, shift1_mirror. apply mul_columns_mirror.
Qed.

(** X22.  Long and short are treated alike: for a threshold that is not
    negative, the backtest on the negated spread and the negated z-scores
    holds the opposite position on every row and books the same profit and the
    same cumulative profit. *)
Theorem backtest_mirror (spread zscore : Series) (T : float64) :
  flt T (Num 0) = false ->
  index spread = index zscore ->
  let neg := map (fun r : Z * float64 => (fst r, (- snd r)%f64)) in
  let rows := run_backtest spread zscore T in
  let rows' := run_backtest (neg spread) (neg zscore) T in
  map position rows' = map Z.opp (map position rows) /\
  map pnl rows' = map pnl rows /\
  map cumulative_pnl rows' = map cumulative_pnl rows.
Proof.
  intros HT Hidx neg rows rows'.
  assert (Hidx' : index (neg spread) = index (neg zscore)).
  { unfold neg, index. rewrite !map_map. cbn [fst]. exact Hidx. }
  destruct (run_backtest_columns spread zscore T) as (_ & Hs & Hz & Hp & Hc & Hg & Hu).
  destruct (run_backtest_columns (neg spread) (neg zscore) T)
    as (_ & Hs' & Hz' & Hp' & Hc' & Hg' & Hu').
  fold rows in Hs, Hz, Hp, Hc, Hg, Hu. fold rows' in Hs', Hz', Hp', Hc', Hg', Hu'.
  destruct (concat_axis1_columns spread zscore Hidx) as (_ & A & B).
  destruct (concat_axis1_columns (neg spread) (neg zscore) Hidx') as (_ & A' & B').
  assert (Vs : values (neg spread) = map fneg (values spread))
    by (unfold neg, values; now rewrite !map_map).
  assert (Vz : values (neg zscore) = map fneg (values zscore))
    by (unfold neg, values; now rewrite !map_map).
  assert (P : map position rows' = map Z.opp (map position rows)).
  { rewrite Hp', Hp, Hz', Hz, B', B, Vz.
    exact (positions_mirror T (values zscore) HT 0%Z (or_intror (or_introl eq_refl))). }
  assert (G : map pnl rows' = map pnl rows).
  { rewrite Hg', Hg, P, Hc', Hc, Hs', Hs, A', A, Vs, diff_mirror.
    apply pnl_mirror. }
  split; [exact P|]. split; [exact G|].
  now rewrite Hu', Hu, G.
Qed.

Lemma backtest_mirror_witness :
  flt (Num 2) (Num 0) = false /\
  index lag_spread = index lag_zscore /\
  map position
      (run_backtest (map (fun r : Z * float64 => (fst r, (- snd r)%f64)) lag_spread)
                    (map (fun r : Z * float64 => (fst r, (- snd r)%f64)) lag_zscore)
                    (Num 2))
  = map Z.opp (map position (run_backtest lag_spread lag_zscore (Num 2))).
Proof.
  assert (H : flt (Num 2) (Num 0) = false).
  { cbn. unfold R_ltb. destruct (Rlt_dec 2 0); [lra | reflexivity]. }
  split; [exact H|]. split; [reflexivity|].
  exact (proj1 (backtest_mirror lag_spread lag_zscore (Num 2) H eq_refl)).
Defined.

(** ** Bars of a finer and of a coarser interval *)

(** The priced ticks of the interval of width [d] that starts at [b]. *)
Lemma priced_prices (d b : Z) (rows : list (Z * float64)) :
  filter notna (map snd (filter (in_bucket d b) rows))
  = map snd (filter (fun r => in_bucket d b r && notna (snd r)) rows).
Proof.
  induction rows as [|r rows IH]; [reflexivity|].
  cbn [filter]. destruct (in_bucket d b r); cbn [andb map filter]; [|exact IH].
  destruct (notna (snd r)); cbn [map]; now rewrite IH.
Qed.

(** The last and the first element that pass a filter. *)
Lemma filter_last_split {A : Type} (h : A -> bool) (l : list A) (d0 : A) :
  filter h l <> [] ->
  exists l1 x l2,
    l = l1 ++ x :: l2 /\ h x = true /\ filter h l2 = [] /\
    last (filter h l) d0 = x.
Proof.
  induction l as [|a l IH]; intros Hne; [contradiction|].
  destruct (filter h l) as [|y ys] eqn:E.
  - cbn [filter] in Hne |- *. rewrite E in Hne |- *.
    destruct (h a) eqn:Ha; [|contradiction].
    exists [], a, l. repeat split; assumption.
  - destruct IH as (l1 & x & l2 & -> & Hx & H2 & Hl); [discriminate|].
    exists (a :: l1), x, l2. repeat split; try assumption.
    cbn [filter]. rewrite E. destruct (h a); [|exact Hl].
    rewrite <- Hl. reflexivity.
Qed.

Lemma filter_first_split {A : Type} (h : A -> bool) (l : list A) :
  forall x xs, filter h l = x :: xs ->
  exists l1 l2, l = l1 ++ x :: l2 /\ h x = true /\ filter h l1 = [].
Proof.
  induction l as [|a l IH]; intros x xs E; [discriminate|].
  cbn [filter] in E. destruct (h a) eqn:Ha.
  - injection E as -> _. exists [], l. repeat split; assumption.
  - destruct (IH x xs E) as (l1 & l2 & -> & Hx & H1).
    exists (a :: l1), l2. repeat split; try assumption.
    cbn [filter]. now rewrite Ha.
Qed.

Lemma filter_subset_nil {A : Type} (g h : A -> bool) (l : list A) :
  (forall x, g x = true -> h x = true) -> filter h l = [] -> filter g l = [].
Proof.
  intros Hgh Hh. apply filter_none. intros x Hx.
  destruct (g x) eqn:Hg; [|reflexivity].
  assert (Hin : In x (filter h l)) by (apply filter_In; split; [exact Hx | now apply Hgh]).
  now rewrite Hh in Hin.
Qed.

(** A finer interval inside a coarser one. *)
Lemma fine_in_coarse (df dc qc t : Z) :
  (0 < df)%Z -> (0 < dc)%Z -> (df | dc)%Z ->
  (dc * qc <= t < dc * qc + dc)%Z ->
  (dc * qc <= bucket df t /\ bucket df t + df <= dc * qc + dc)%Z.
Proof.
  intros Hf Hc (k & Hk) Ht. unfold bucket. subst dc.
  assert (Hk0 : (0 < k)%Z) by nia.
  assert (H1 : (k * qc <= t / df)%Z) by (apply Z.div_le_lower_bound; nia).
  assert (H2 : (t / df < k * qc + k)%Z) by (apply Z.div_lt_upper_bound; nia).
  nia.
Qed.

Lemma in_bucket_bounds (d b : Z) (r : Z * float64) :
  in_bucket d b r = true <-> (b <= fst r < b + d)%Z.
Proof. unfold in_bucket. rewrite andb_true_iff, Z.leb_le, Z.ltb_lt. reflexivity. Qed.

(** The form of a bar of the frame of [load_data]: the aggregate of the priced ticks of
    its interval, of which there is one at least. *)
Lemma ohlc_frame_bar_form (df : list (Z * float64)) (tf : Timeframe) (bar : Bar) :
  In bar (ohlc_frame df tf) ->
  exists q p ps,
    interval_start bar = (width tf * q)%Z /\
    map snd (filter (fun r => in_bucket (width tf) (width tf * q) r && notna (snd r))
                    (sort_values df)) = p :: ps /\
    bar = mkBar (width tf * q) p (fold_left fmax ps p) (fold_left fmin ps p) (last ps p).
Proof.
  intros Hbar.
  destruct (ohlc_frame_bar df tf bar Hbar) as (q & Hq & Hform & Ho).
  pose proof (priced_prices (width tf) (width tf * q) (sort_values df)) as E.
  destruct (filter notna (map snd (filter (in_bucket (width tf) (width tf * q))
                                          (sort_values df)))) as [|p ps] eqn:Ef.
  - exfalso. rewrite Hform in Ho. unfold ohlc in Ho. rewrite Ef in Ho. discriminate.
  - exists q, p, ps. split; [exact Hq|]. split; [now rewrite <- E|].
    rewrite Hform. unfold ohlc. now rewrite Ef.
Qed.

(** The bar of the interval of a priced tick. *)
Lemma ohlc_frame_bar_at (df : list (Z * float64)) (tf : Timeframe) (r : Z * float64) :
  In r df -> isna (snd r) = false ->
  exists p ps,
    let b := bucket (width tf) (fst r) in
    map snd (filter (fun x => in_bucket (width tf) b x && notna (snd x))
                    (sort_values df)) = p :: ps /\
    In (mkBar b p (fold_left fmax ps p) (fold_left fmin ps p) (last ps p))
       (ohlc_frame df tf).
Proof.
  intros Hr Hn.
  destruct (ohlc_frame_priced_tick df tf r Hr Hn) as (bar & Hbar & Hstart).
  destruct (ohlc_frame_bar_form df tf bar Hbar) as (q & p & ps & Hq & Hp & Hform).
  exists p, ps. cbv zeta. rewrite <- Hstart, Hq. split; [exact Hp|].
  now rewrite <- Hform.
Qed.

Lemma last_map {A B : Type} (f : A -> B) (l : list A) (d0 : A) :
  last (map f l) (f d0) = f (last l d0).
Proof.
  induction l as [|a l IH]; [reflexivity|].
  destruct l as [|b l]; [reflexivity|].
  change (last (map f (a :: b :: l)) (f d0)) with (last (map f (b :: l)) (f d0)).
  change (last (a :: b :: l) d0) with (last (b :: l) d0). exact IH.
Qed.

Lemma priced_defined (f : Z * float64 -> bool) (l : list (Z * float64)) :
  Forall (fun q => isna q = false)
         (map snd (filter (fun r => f r && notna (snd r)) l)).
Proof.
  apply Forall_forall. intros q Hq. apply in_map_iff in Hq as (r & <- & Hr).
  apply filter_In in Hr as (_ & Hr). apply andb_true_iff in Hr as (_ & Hr).
  unfold notna in Hr. now apply negb_true_iff in Hr.
Qed.

(** The high and the low of defined prices. *)
Lemma extremes (p : float64) (ps : list float64) :
  Forall (fun q => isna q = false) (p :: ps) ->
  In (fold_left fmax ps p) (p :: ps) /\ In (fold_left fmin ps p) (p :: ps) /\
  (forall q, In q (p :: ps) ->
     fle (fold_left fmin ps p) q = true /\ fle q (fold_left fmax ps p) = true).
Proof.
  intros H. inversion H as [|? ? Hp Hps]; subst.
  destruct (fold_fmax_spec ps p Hp Hps) as (HM & HpM & HqM).
  destruct (fold_fmin_spec ps p Hp Hps) as (Hm & Hmp & Hmq).
  split; [exact HM|]. split; [exact Hm|].
  intros q [<- | Hq]; split; auto.
Qed.

Lemma sorted_before (l1 : list (Z * float64)) (x : Z * float64) (l2 : list (Z * float64)) :
  StronglySorted (fun a b => (fst a <= fst b)%Z) (l1 ++ x :: l2) ->
  (forall y, In y l1 -> (fst y <= fst x)%Z) /\
  (forall y, In y l2 -> (fst x <= fst y)%Z).
Proof.
  induction l1 as [|a l1 IH]; cbn [app]; intros S;
    apply StronglySorted_inv in S as (S & F); rewrite Forall_forall in F.
  - split; [intros y []|]. intros y Hy. now apply F.
  - destruct (IH S) as (A & B). split; [|exact B].
    intros y [<- | Hy]; [|now apply A].
    apply F. apply in_or_app. right. now left.
Qed.

Lemma bucket_le (d t u : Z) : (0 < d)%Z -> (t <= u)%Z -> (bucket d t <= bucket d u)%Z.
Proof.
  intros Hd H. unfold bucket. pose proof (bucket_mono d t u Hd H). nia.
Qed.

Section Timeframes.

Variables (df : list (Z * float64)) (tf_f tf_c : Timeframe).

Hypothesis divides : (width tf_f | width tf_c)%Z.

Let ticks := sort_values df.
Let fine := ohlc_frame df tf_f.
Let priced (d b : Z) (r : Z * float64) : bool := in_bucket d b r && notna (snd r).

Variables (bar_c : Bar) (q : Z) (p : float64) (ps : list float64).

Hypothesis coarse_prices :
  map snd (filter (priced (width tf_c) (width tf_c * q)) ticks) = p :: ps.
Hypothesis coarse_bar :
  bar_c = mkBar (width tf_c * q) p (fold_left fmax ps p) (fold_left fmin ps p) (last ps p).

Let inside (b : Bar) : Prop :=
  (interval_start bar_c <= interval_start b < interval_start bar_c + width tf_c)%Z.

Lemma coarse_start : interval_start bar_c = (width tf_c * q)%Z.
Proof. now rewrite coarse_bar. Qed.

(** A priced tick of the coarse interval: its fine interval lies inside, and
    the priced ticks of the fine interval are ticks of the coarse one. *)
Lemma fine_of_tick (r : Z * float64) :
  priced (width tf_c) (width tf_c * q) r = true ->
  let b := bucket (width tf_f) (fst r) in
  (width tf_c * q <= b < width tf_c * q + width tf_c)%Z /\
  priced (width tf_f) b r = true /\
  (forall x, priced (width tf_f) b x = true ->
             priced (width tf_c) (width tf_c * q) x = true).
Proof.
  intros Hr b. unfold priced in *. apply andb_true_iff in Hr as (Hr & Hn).
  apply in_bucket_bounds in Hr.
  pose proof (width_pos tf_f) as Hf. pose proof (width_pos tf_c) as Hc.
  destruct (fine_in_coarse (width tf_f) (width tf_c) q (fst r) Hf Hc divides Hr)
    as (B1 & B2). fold b in B1, B2.
  pose proof (bucket_bounds (width tf_f) (fst r) Hf) as Hb. fold b in Hb.
  split; [lia|]. split.
  - rewrite Hn, andb_true_r. apply in_bucket_bounds. exact Hb.
  - intros x Hx. apply andb_true_iff in Hx as (Hx & Hxn).
    apply in_bucket_bounds in Hx. rewrite Hxn, andb_true_r.
    apply in_bucket_bounds. lia.
Qed.

(** The priced ticks of a fine bar inside the coarse interval are ticks of
    the coarse interval. *)
Lemma fine_inside (b : Bar) (m : Z) :
  interval_start b = (width tf_f * m)%Z -> inside b ->
  forall x, priced (width tf_f) (width tf_f * m) x = true ->
            priced (width tf_c) (width tf_c * q) x = true.
Proof.
  intros Hm Hin x Hx. unfold inside in Hin. rewrite coarse_start, Hm in Hin.
  unfold priced in *. apply andb_true_iff in Hx as (Hx & Hxn).
  apply in_bucket_bounds in Hx. rewrite Hxn, andb_true_r.
  apply in_bucket_bounds.
  pose proof (width_pos tf_f) as Hf. destruct divides as (k & Hk).
  revert Hin Hx Hf. rewrite Hk. generalize (width tf_f). intros d Hin Hx Hf.
  assert (Hlt : (m < k * q + k)%Z) by nia.
  assert (Hle : (d * (m + 1) <= d * (k * q + k))%Z)
    by (apply Z.mul_le_mono_nonneg_l; lia).
  nia.
Qed.

Lemma tick_of_price (d b : Z) (v : float64) :
  In v (map snd (filter (priced d b) ticks)) ->
  exists r, In r df /\ priced d b r = true /\ snd r = v.
Proof.
  intros H. apply in_map_iff in H as (r & <- & Hr). apply filter_In in Hr as (Hr & Hp).
  exists r. split; [|now split]. now apply (proj1 (sort_values_In df r)).
Qed.

(** The fine bar of a priced tick of the coarse interval. *)
Lemma fine_bar_of_tick (r : Z * float64) :
  In r df -> priced (width tf_c) (width tf_c * q) r = true ->
  exists b p' ps',
    In b fine /\ inside b /\ interval_start b = bucket (width tf_f) (fst r) /\
    map snd (filter (priced (width tf_f) (bucket (width tf_f) (fst r))) ticks) = p' :: ps' /\
    b = mkBar (bucket (width tf_f) (fst r)) p' (fold_left fmax ps' p')
              (fold_left fmin ps' p') (last ps' p').
Proof.
  intros Hr Hp. pose proof Hp as Hp'. unfold priced in Hp'.
  apply andb_true_iff in Hp' as (_ & Hn). unfold notna in Hn.
  apply negb_true_iff in Hn.
  destruct (ohlc_frame_bar_at df tf_f r Hr Hn) as (p' & ps' & Hprices & Hbar).
  cbv zeta in Hprices, Hbar.
  destruct (fine_of_tick r Hp) as (Hin & _).
  eexists. exists p', ps'. split; [exact Hbar|].
  split; [unfold inside; rewrite coarse_start; exact Hin|].
  split; [reflexivity|]. split; [exact Hprices | reflexivity].
Qed.

Lemma coarse_close :
  exists b, In b fine /\ inside b /\ close b = close bar_c /\
            (forall b', In b' fine -> inside b' ->
                        (interval_start b' <= interval_start b)%Z).
Proof.
  pose proof (width_pos tf_f) as Hf.
  assert (Hne : filter (priced (width tf_c) (width tf_c * q)) ticks <> []).
  { intros E. now rewrite E in coarse_prices. }
  destruct (filter_last_split _ ticks (0%Z, NaN) Hne) as (l1 & x & l2 & Et & Hx & H2 & Hl).
  assert (Hxin : In x df).
  { apply (proj1 (sort_values_In df x)). fold ticks. rewrite Et.
    apply in_or_app. right. now left. }
  assert (Hclose : close bar_c = snd x).
  { rewrite coarse_bar. cbn [close]. rewrite <- (last_shift ps NaN p).
    rewrite <- coarse_prices.
    change NaN with (snd (0%Z, NaN)). rewrite last_map. now rewrite Hl. }
  destruct (fine_bar_of_tick x Hxin Hx) as (b & p' & ps' & Hb & Hin & Hs & Hprices & Hform).
  destruct (fine_of_tick x Hx) as (_ & Hgx & Hsub).
  exists b. split; [exact Hb|]. split; [exact Hin|]. split.
  - rewrite Hclose, Hform. cbn [close].
    rewrite Et, filter_app in Hprices. cbn [filter] in Hprices.
    rewrite Hgx in Hprices.
    rewrite (filter_subset_nil _ _ l2 Hsub H2) in Hprices.
    rewrite map_app in Hprices. cbn [map] in Hprices.
    rewrite <- (last_shift ps' NaN p'), <- Hprices. apply last_last.
  - intros b' Hb' Hin'.
    destruct (ohlc_frame_bar_tick df tf_f b' Hb') as (r & Hr & Hn & Hbr).
    destruct (ohlc_frame_bar df tf_f b' Hb') as (m & Hm & _).
    rewrite Hs, <- Hbr. apply bucket_le; [exact Hf|].
    assert (Hpr : priced (width tf_c) (width tf_c * q) r = true).
    { apply (fine_inside b' m Hm Hin'). unfold priced.
      rewrite <- Hm, <- Hbr. unfold notna. rewrite Hn, andb_true_r.
      apply in_bucket_bounds. now apply bucket_bounds. }
    assert (Hrt : In r ticks) by (now apply sort_values_In).
    pose proof (sort_values_sorted df) as S. fold ticks in S. rewrite Et in S, Hrt.
    destruct (sorted_before l1 x l2 S) as (A & _).
    apply in_app_or in Hrt as [Hrt | [<- | Hrt]]; [now apply A | lia |].
    exfalso. assert (Hf2 : In r (filter (priced (width tf_c) (width tf_c * q)) l2))
      by (apply filter_In; now split).
    now rewrite H2 in Hf2.
Qed.

Lemma coarse_open :
  exists b, In b fine /\ inside b /\ open b = open bar_c /\
            (forall b', In b' fine -> inside b' ->
                        (interval_start b <= interval_start b')%Z).
Proof.
  pose proof (width_pos tf_f) as Hf.
  destruct (filter (priced (width tf_c) (width tf_c * q)) ticks) as [|x xs] eqn:Ef;
    [discriminate|].
  destruct (filter_first_split _ ticks x xs Ef) as (l1 & l2 & Et & Hx & H1).
  cbn [map] in coarse_prices. injection coarse_prices as Hp _.
  assert (Hxin : In x df).
  { apply (proj1 (sort_values_In df x)). fold ticks. rewrite Et.
    apply in_or_app. right. now left. }
  destruct (fine_bar_of_tick x Hxin Hx) as (b & p' & ps' & Hb & Hin & Hs & Hprices & Hform).
  destruct (fine_of_tick x Hx) as (_ & Hgx & Hsub).
  exists b. split; [exact Hb|]. split; [exact Hin|]. split.
  - rewrite coarse_bar, Hform. cbn [open]. rewrite <- Hp.
    rewrite Et, filter_app in Hprices. cbn [filter] in Hprices.
    rewrite Hgx in Hprices.
    rewrite (filter_subset_nil _ _ l1 Hsub H1) in Hprices.
    cbn [app map] in Hprices. now injection Hprices as <- _.
  - intros b' Hb' Hin'.
    destruct (ohlc_frame_bar_tick df tf_f b' Hb') as (r & Hr & Hn & Hbr).
    destruct (ohlc_frame_bar df tf_f b' Hb') as (m & Hm & _).
    rewrite Hs, <- Hbr. apply bucket_le; [exact Hf|].
    assert (Hpr : priced (width tf_c) (width tf_c * q) r = true).
    { apply (fine_inside b' m Hm Hin'). unfold priced.
      rewrite <- Hm, <- Hbr. unfold notna. rewrite Hn, andb_true_r.
      apply in_bucket_bounds. now apply bucket_bounds. }
    assert (Hrt : In r ticks) by (now apply sort_values_In).
    pose proof (sort_values_sorted df) as S. fold ticks in S. rewrite Et in S, Hrt.
    destruct (sorted_before l1 x l2 S) as (_ & B).
    apply in_app_or in Hrt as [Hrt | [<- | Hrt]]; [| lia | now apply B].
    exfalso. assert (Hf1 : In r (filter (priced (width tf_c) (width tf_c * q)) l1))
      by (apply filter_In; now split).
    now rewrite H1 in Hf1.
Qed.

Lemma coarse_bounds (b : Bar) :
  In b fine -> inside b ->
  fle (low bar_c) (low b) = true /\ fle (high b) (high bar_c) = true.
Proof.
  intros Hb Hin.
  destruct (ohlc_frame_bar_form df tf_f b Hb) as (m & p' & ps' & Hm & Hprices & Hform).
  fold ticks in Hprices.
  pose proof (priced_defined (in_bucket (width tf_f) (width tf_f * m)) ticks) as Hdef'.
  fold (priced (width tf_f) (width tf_f * m)) in Hdef'.
  change (fun r => in_bucket (width tf_f) (width tf_f * m) r && notna (snd r))
    with (priced (width tf_f) (width tf_f * m)) in Hprices.
  rewrite Hprices in Hdef'.
  pose proof (priced_defined (in_bucket (width tf_c) (width tf_c * q)) ticks) as Hdef.
  fold (priced (width tf_c) (width tf_c * q)) in Hdef. rewrite coarse_prices in Hdef.
  destruct (extremes p' ps' Hdef') as (HM' & Hm' & _).
  destruct (extremes p ps Hdef) as (_ & _ & Hall).
  assert (Hsub : forall v, In v (p' :: ps') -> In v (p :: ps)).
  { intros v Hv. rewrite <- Hprices in Hv. rewrite <- coarse_prices.
    apply in_map_iff in Hv as (r & <- & Hr). apply filter_In in Hr as (Hr & Hg).
    apply in_map. apply filter_In. split; [exact Hr|].
    now apply (fine_inside b m Hm Hin). }
  rewrite coarse_bar, Hform. cbn [low high]. split.
  - now apply Hall, Hsub.
  - now apply Hall, Hsub.
Qed.

Lemma coarse_attained :
  (exists b, In b fine /\ inside b /\ high b = high bar_c) /\
  (exists b, In b fine /\ inside b /\ low b = low bar_c).
Proof.
  pose proof (priced_defined (in_bucket (width tf_c) (width tf_c * q)) ticks) as Hdef.
  fold (priced (width tf_c) (width tf_c * q)) in Hdef. rewrite coarse_prices in Hdef.
  destruct (extremes p ps Hdef) as (HM & Hm & _).
  assert (Hfine : forall v, In v (p :: ps) ->
            exists b, In b fine /\ inside b /\
                      fle (low b) v = true /\ fle v (high b) = true).
  { intros v Hv. rewrite <- coarse_prices in Hv.
    destruct (tick_of_price _ _ v Hv) as (r & Hr & Hp & <-).
    destruct (fine_bar_of_tick r Hr Hp) as (b & p' & ps' & Hb & Hin & _ & Hprices & Hform).
    pose proof (priced_defined (in_bucket (width tf_f) (bucket (width tf_f) (fst r))) ticks)
      as Hdef'.
    fold (priced (width tf_f) (bucket (width tf_f) (fst r))) in Hdef'.
    rewrite Hprices in Hdef'.
    destruct (extremes p' ps' Hdef') as (_ & _ & Hall).
    exists b. split; [exact Hb|]. split; [exact Hin|].
    rewrite Hform. cbn [low high]. apply Hall. rewrite <- Hprices.
    apply in_map. apply filter_In. split; [now apply sort_values_In|].
    now destruct (fine_of_tick r Hp) as (_ & Hg & _). }
  split.
  - destruct (Hfine _ HM) as (b & Hb & Hin & _ & Hle).
    exists b. split; [exact Hb|]. split; [exact Hin|].
    apply fle_antisym; [|rewrite coarse_bar; exact Hle].
    now destruct (coarse_bounds b Hb Hin).
  - destruct (Hfine _ Hm) as (b & Hb & Hin & Hle & _).
    exists b. split; [exact Hb|]. split; [exact Hin|].
    apply fle_antisym; [rewrite coarse_bar; exact Hle|].
    now destruct (coarse_bounds b Hb Hin).
Qed.

End Timeframes.

(** X23.  The bars of two timeframes of which the finer divides the coarser
    (1 second, 1 minute, 5 minutes) agree whenever [load_data] returns bars for
    both: every bar of the coarser timeframe opens at the open of the earliest
    finer bar inside its interval and closes at the close of the latest one;
    its high and low bound the highs and lows of all finer bars inside, and
    each is attained by one of them. *)
Theorem load_data_timeframes_agree (raises : Timeframe -> list (Z * float64) -> bool)
  (df : list (Z * float64)) (tf_f tf_c : Timeframe) (bar_c : Bar) :
  (width tf_f | width tf_c)%Z ->
  In bar_c (load_data raises (Some df) tf_c) ->
  load_data raises (Some df) tf_f <> [] ->
  let fine := load_data raises (Some df) tf_f in
  let inside b :=
    (interval_start bar_c <= interval_start b < interval_start bar_c + width tf_c)%Z in
  (exists b, In b fine /\ inside b /\ open b = open bar_c /\
             forall b', In b' fine -> inside b' ->
                        (interval_start b <= interval_start b')%Z) /\
  (exists b, In b fine /\ inside b /\ close b = close bar_c /\
             forall b', In b' fine -> inside b' ->
                        (interval_start b' <= interval_start b)%Z) /\
  (forall b, In b fine -> inside b ->
             fle (low bar_c) (low b) = true /\ fle (high b) (high bar_c) = true) /\
  (exists b, In b fine /\ inside b /\ high b = high bar_c) /\
  (exists b, In b fine /\ inside b /\ low b = low bar_c).
Proof.
  intros Hdiv Hbar Hfine fine inside. apply load_data_frame in Hbar.
  assert (E : fine = ohlc_frame df tf_f).
  { unfold fine. destruct (load_data_cases raises df tf_f) as [(E & _) | (E & _)];
      [contradiction | exact E]. }
  rewrite E.
  destruct (ohlc_frame_bar_form df tf_c bar_c Hbar) as (q & p & ps & _ & Hprices & Hform).
  split; [exact (coarse_open df tf_f tf_c Hdiv bar_c q p ps Hprices Hform)|].
  split; [exact (coarse_close df tf_f tf_c Hdiv bar_c q p ps Hprices Hform)|].
  split; [exact (coarse_bounds df tf_f tf_c Hdiv bar_c q p ps Hprices Hform)|].
  exact (coarse_attained df tf_f tf_c Hdiv bar_c q p ps Hprices Hform).
Qed.

Lemma gap_scenario_5min :
  load_data never_raises (Some gap_ticks) tf_5Min
  = [ mkBar 0 (Num 5) (Num 9) (Num 4) (Num 7) ].
Proof. cbv -[IZR Rlt_dec Rle_dec Req_dec_T]. r_cases. reflexivity. Qed.

(** The ticks of the gap scenario: the five-minute bar closes at the close
    of the one-minute bar of the third minute. *)
Lemma load_data_timeframes_agree_witness :
  (width tf_1Min | width tf_5Min)%Z /\
  In (mkBar 0 (Num 5) (Num 9) (Num 4) (Num 7))
     (load_data never_raises (Some gap_ticks) tf_5Min) /\
  load_data never_raises (Some gap_ticks) tf_1Min <> [] /\
  exists b, In b (load_data never_raises (Some gap_ticks) tf_1Min) /\ close b = Num 7.
Proof.
  assert (Hdiv : (width tf_1Min | width tf_5Min)%Z) by (exists 5%Z; reflexivity).
  assert (Hbar : In (mkBar 0 (Num 5) (Num 9) (Num 4) (Num 7))
                    (load_data never_raises (Some gap_ticks) tf_5Min))
    by (rewrite gap_scenario_5min; now left).
  assert (Hfine : load_data never_raises (Some gap_ticks) tf_1Min <> [])
    by (rewrite gap_scenario; discriminate).
  split; [exact Hdiv|]. split; [exact Hbar|]. split; [exact Hfine|].
  destruct (load_data_timeframes_agree never_raises gap_ticks tf_1Min tf_5Min _
              Hdiv Hbar Hfine)
    as (_ & (b & Hb & _ & Hc & _) & _).
  exists b. split; [exact Hb | exact Hc].
Defined.
